(** * Long division engine of arbitraire (src/div.c)

    A shallow embedding of [shmul], [_long_sub], [_long_add],
    [arb_div_inter] and [arb_div], and the proofs of their properties.

    Conventions of the embedding.
    - A digit array is a [list Z]; each allocation is a list of its own and
      a C pointer into it is the allocation together with a [Z] offset.
    - [int] and [size_t] arithmetic is carried out in [Z].  The engine's
      guards keep the size computations non-negative.  The sums and
      differences of [_long_sub] and [_long_add] lie between [-base] and
      [2 * base].  The products of digits in [shmul] (line 63) are below
      [base^2], and those of the quotient-digit loop (lines 164-167) are
      below [base^3] in absolute value: they are the values the C code
      computes as long as they fit an [int], and every theorem that rests
      on them assumes so, with [base * base <= INT_MAX] for [shmul] and the
      normalization and [base * base * base <= INT_MAX] for the loop (a
      32-bit [int]; any base up to 1290, and every base of an eight-bit
      digit type).  A [size_t] index that steps below zero and is then
      added to a pointer denotes the element at that signed offset.
    - The digit type [UARBT] is declared in [internal.h], which is not part
      of the sources at hand; its modulus is the section variable
      [UARBT_MOD] and every store into a [UARBT] object is reduced
      modulo it.
    - Accesses outside an allocation and divisions by zero are [Fault]. *)

From Stdlib Require Import ZArith List Lia String Ascii.
From stdpp Require Import base numbers list.

Local Open Scope Z_scope.

(** ** Outcomes *)

Inductive outcome (A : Type) : Type :=
| Ok (a : A)
| Exit (msg : string)
| Fault
| OutOfFuel.

Arguments Ok {A} a.
Arguments Exit {A} msg.
Arguments Fault {A}.
Arguments OutOfFuel {A}.

Definition bind {A B : Type} (c : outcome A) (k : A -> outcome B) : outcome B :=
  match c with
  | Ok a => k a
  | Exit msg => Exit msg
  | Fault => Fault
  | OutOfFuel => OutOfFuel
  end.

Notation "'let*' x ':=' c 'in' k" := (bind c (fun x => k))
  (at level 10, x name, c at level 100, k at level 200).
Notation "'let*' ' pat ':=' c 'in' k" := (bind c (fun x => match x with pat => k end))
  (at level 10, pat pattern, c at level 100, k at level 200).

(** ** Memory: one allocation *)

Definition load (m : list Z) (a : Z) : outcome Z :=
  if a <? 0 then Fault
  else match m !! Z.to_nat a with
       | Some x => Ok x
       | None => Fault
       end.

Definition store (m : list Z) (a : Z) (x : Z) : outcome (list Z) :=
  if a <? 0 then Fault
  else match m !! Z.to_nat a with
       | Some _ => Ok (<[Z.to_nat a := x]> m)
       | None => Fault
       end.

Definition in_range (m : list Z) (a n : Z) : bool :=
  (0 <=? a) && (0 <=? n) && (a + n <=? Z.of_nat (length m)).

Definition load_range (m : list Z) (a n : Z) : outcome (list Z) :=
  if in_range m a n then Ok (take (Z.to_nat n) (drop (Z.to_nat a) m)) else Fault.

(** [m] with the cells from position [a] on overwritten by [ds]. *)
Definition splice (m : list Z) (a : nat) (ds : list Z) : list Z :=
  take a m ++ ds ++ drop (a + length ds) m.

Definition store_range (m : list Z) (a : Z) (ds : list Z) : outcome (list Z) :=
  if in_range m a (Z.of_nat (length ds))
  then Ok (splice m (Z.to_nat a) ds)
  else Fault.

(** C's [/] and [%] on [int]: truncation towards zero, undefined on a zero
    divisor. *)
Definition c_div (x y : Z) : outcome Z :=
  if y =? 0 then Fault else Ok (Z.quot x y).

Definition c_rem (x y : Z) : outcome Z :=
  if y =? 0 then Fault else Ok (Z.rem x y).

(** The largest [int], for an [int] of 32 bits. *)
Definition INT_MAX : Z := 2147483647.

(** ** The number type *)

Record fxdpnt : Type := mk_fxdpnt {
  number : list Z;   (* the digit allocation, most significant first *)
  lp : Z;            (* digits left of the radix point *)
  len : Z            (* digits in use *)
}.

(** Big-endian value of a digit sequence. *)
Definition digits_val (b : Z) (l : list Z) : Z :=
  fold_left (fun acc d => acc * b + d) l 0.

(** The [n] low digits of [x] in base [b], most significant first. *)
Fixpoint to_digits (b : Z) (n : nat) (x : Z) : list Z :=
  match n with
  | O => []
  | S n' => to_digits b n' (x / b) ++ [x mod b]
  end.

(** Digit sequences in base [b]. *)
Definition in_base (b : Z) (l : list Z) : Prop := Forall (fun d => 0 <= d < b) l.

(** The window of [n] cells of [l] that starts at position [i]. *)
Definition window (l : list Z) (i n : nat) : list Z := take n (drop i l).

(** The digits of a number that are in use. *)
Definition digits (a : fxdpnt) : list Z := take (Z.to_nat (len a)) (number a).

Section Engine.

(** Modulus of the digit type [UARBT] ([internal.h] is not among the
    sources): a parameter of the whole development. *)
Variable UARBT_MOD : Z.

(** Contents of the block [arb_malloc] hands out: indeterminate in C, hence
    arbitrary here. *)
Variable junk : list Z.

Definition to_UARBT (x : Z) : Z := x mod UARBT_MOD.

(** ** Collaborators that live outside src/ *)

(** Modelled from the spec: [rl] is "integerDigitCount(n)", the number of
    integer-part digits of a number (the helper itself is not under src/). *)
Definition rl (a : fxdpnt) : Z := lp a.

(** Modelled from the spec: [rr] is "fractionalDigitCount(n)", the digits
    that are not integer-part digits (the helper is not under src/). *)
Definition rr (a : fxdpnt) : Z := len a - lp a.

(** Modelled from the spec: [iszero] answers 0 exactly when "the divisor's
    value is exactly zero", that is when every digit in use is zero (the
    helper is not under src/). *)
Definition iszero (a : fxdpnt) : Z :=
  if forallb (fun d => d =? 0) (digits a) then 0 else 1.

(** Modelled from the spec: [arb_error] is the reporting routine missing
    from src/; "the reference behavior aborts the process". *)
Definition arb_error {A : Type} (msg : string) : outcome A := Exit msg.

(** Modelled from the spec: [arb_calloc] (not under src/) yields a fresh
    working buffer; the engine relies on its guard slots being zero. *)
Definition arb_calloc (n : Z) : list Z := replicate (Z.to_nat n) 0.

(** Modelled from the spec: [arb_malloc] (not under src/) yields a fresh
    scratch buffer of [n] cells with no promise on their contents. *)
Definition arb_malloc (n : Z) : list Z :=
  take (Z.to_nat n) (junk ++ replicate (Z.to_nat n) 0).

(** Modelled from the spec: [_arb_memset] (not under src/) is the fill by
    which "the destination is zero-filled". *)
Definition _arb_memset (m : list Z) (dst : Z) (x : Z) (n : Z) : outcome (list Z) :=
  store_range m dst (replicate (Z.to_nat n) (to_UARBT x)).

(** Modelled from the spec: [_arb_copy_core] (not under src/) is the copy
    by which "the source is copied unchanged": [n] digits from [src] in
    allocation [S] to [dst] in allocation [D]. *)
Definition _arb_copy_core (D : list Z) (dst : Z) (S : list Z) (src : Z) (n : Z)
  : outcome (list Z) :=
  let* ds := load_range S src n in
  store_range D dst ds.

(** Modelled from the spec: [arb_mul_core] (not under src/) is
    "fullMultiply(divisorDigits, length, digit, base) -> sequence", the
    multiply of a digit sequence by one digit; the product of [alen] digits
    by one digit occupies [alen + 1] digits of the destination. *)
Definition arb_mul_core (A : list Z) (a alen : Z) (digit : Z)
           (C : list Z) (c : Z) (base : Z) : outcome (list Z) :=
  let* ds := load_range A a alen in
  store_range C c
    (map to_UARBT (to_digits base (S (Z.to_nat alen)) (digits_val base ds * digit))).

(** Modelled from the spec: [remove_leading_zeros] (not under src/) is
    "stripLeadingZeros(number) -> number": leading zero digits of the
    integer part are dropped, the fractional digits are kept "to preserve
    an intended scale". *)
Fixpoint strip_zeros (fuel : nat) (q : fxdpnt) : fxdpnt :=
  match fuel with
  | O => q
  | S fuel' =>
    match number q with
    | d :: rest =>
      if (0 <? lp q) && (d =? 0)
      then strip_zeros fuel' (mk_fxdpnt rest (lp q - 1) (len q - 1))
      else q
    | [] => q
    end
  end.

Definition remove_leading_zeros (q : fxdpnt) : fxdpnt :=
  strip_zeros (Z.to_nat (lp q)) q.

(** Modelled from the spec: [arb_expand (NULL, n)] followed by [arb_init]
    (neither under src/) yields the quotient, "an output number whose digit
    buffer is sized before the loop runs". *)
Definition arb_expand (n : Z) : fxdpnt := mk_fxdpnt (arb_calloc n) 0 0.

(** ** shmul (div.c, lines 51-70)

    [value = num[i-1] * digit + carry] is an [int]; for digits and a
    multiplier below [base] it stays below [base * base], and the theorems
    on [shmul] assume [base * base <= INT_MAX]. *)

Fixpoint shmul_loop (fuel : nat) (m : list Z) (num : Z) (i : Z) (digit : Z)
         (result : Z) (base : Z) (carry : Z) : outcome (list Z * Z * Z) :=
  if 0 <? i then
    match fuel with
    | O => OutOfFuel
    | S fuel' =>
      let* x := load m (num + (i - 1)) in
      let value := x * digit + carry in
      let* r := c_rem value base in
      let* m' := store m (result + (i - 1)) (to_UARBT r) in
      let* carry' := c_div value base in
      shmul_loop fuel' m' num (i - 1) digit result base carry'
    end
  else Ok (m, i, carry).

(** [num] and [result] are offsets into the one allocation [m], so that the
    in-place calls of the engine and calls on separate windows are both
    covered. *)
Definition shmul (m : list Z) (num : Z) (size : Z) (digit : Z) (result : Z)
           (base : Z) : outcome (list Z) :=
  if digit =? 0 then _arb_memset m result 0 size
  else if digit =? 1 then _arb_copy_core m result m num size
  else
    let* '(m', i, carry) := shmul_loop (Z.to_nat size) m num size digit result base 0 in
    if negb (carry =? 0) then store m' (result + (i - 1)) (to_UARBT carry)
    else Ok m'.

(** ** _long_sub and _long_add (div.c, lines 72-102) *)

Fixpoint long_sub_loop (fuel : nat) (U : list Z) (u : Z) (i : Z)
         (V : list Z) (v : Z) (k : Z) (b : Z) (borrow : Z) : outcome (list Z * Z) :=
  if 0 <? k + 1 then
    match fuel with
    | O => OutOfFuel
    | S fuel' =>
      let* x := load U (u + i) in
      let* y := load V (v + k) in
      let val := x - y - borrow in
      let '(val, borrow) := if val <? 0 then (val + b, 1) else (val, 0) in
      let* U' := store U (u + i) (to_UARBT val) in
      long_sub_loop fuel' U' u (i - 1) V v (k - 1) b borrow
    end
  else Ok (U, borrow).

Definition _long_sub (U : list Z) (u : Z) (i : Z) (V : list Z) (v : Z) (k : Z) (b : Z)
  : outcome (list Z * Z) :=
  long_sub_loop (Z.to_nat (k + 1)) U u i V v k b 0.

Fixpoint long_add_loop (fuel : nat) (U : list Z) (u : Z) (i : Z)
         (V : list Z) (v : Z) (k : Z) (b : Z) (carry : Z) : outcome (list Z * Z) :=
  if 0 <? k + 1 then
    match fuel with
    | O => OutOfFuel
    | S fuel' =>
      let* x := load U (u + i) in
      let* y := load V (v + k) in
      let val := x + y + carry in
      let '(val, carry) := if b <=? val then (val - b, 1) else (val, 0) in
      let* U' := store U (u + i) (to_UARBT val) in
      long_add_loop fuel' U' u (i - 1) V v (k - 1) b carry
    end
  else Ok (U, carry).

Definition _long_add (U : list Z) (u : Z) (i : Z) (V : list Z) (v : Z) (k : Z) (b : Z)
  : outcome (list Z * Z) :=
  long_add_loop (Z.to_nat (k + 1)) U u i V v k b 0.

(** ** arb_div_inter (div.c, lines 104-188) *)

(** The locals of [arb_div_inter] that are fixed once the operands are
    prepared, together with the buffers. [p_v] is the offset of the pointer
    [v] inside the allocation [vf]. *)
Record prep : Type := mk_prep {
  p_u : list Z;
  p_vf : list Z;
  p_v : Z;
  p_temp : list Z;
  p_q : fxdpnt;
  p_lea : Z;
  p_leb : Z;
  p_uscal : Z;
  p_offset : Z;
  p_quodig : Z;
  p_out_of_scale : bool
}.

(** [for (;*v == 0; v++, leb--);] *)
Fixpoint skip_zeros (fuel : nat) (vf : list Z) (v leb : Z) : outcome (Z * Z) :=
  let* x := load vf v in
  if x =? 0 then
    match fuel with
    | O => OutOfFuel
    | S fuel' => skip_zeros fuel' vf (v + 1) (leb - 1)
    end
  else Ok (v, leb).

Definition divide_by_zero : string :=
  String.append "divide by zero" (String (ascii_of_nat 10) EmptyString).

(** Lines 121-149: the zero test, the working copies, the sizing
    parameters and the shape of the quotient. *)
Definition div_prepare (num den q : fxdpnt) (b scale : Z) : outcome prep :=
  let* _ := (if iszero den =? 0 then arb_error divide_by_zero else Ok tt) in
  let lea := rl num + rr den in
  let uscal := rr num - rr den in
  let offset := if uscal <? scale then scale - uscal else 0 in
  let u := arb_calloc (len num + offset + 3) in
  let* u := _arb_copy_core u 1 (number num) 0 (len num) in
  let vf := arb_calloc (len den + offset + 3) in
  let* vf := _arb_copy_core vf 0 (number den) 0 (len den) in
  let leb := len den in
  let temp := arb_malloc (len den + 1) in
  let* '(v, leb) := skip_zeros (length vf) vf 0 leb in
  let out_of_scale := leb >? lea + scale in
  let quodig :=
    if out_of_scale then scale + 1
    else if negb (leb >? lea) then lea - leb + scale + 1
    else scale + 1 in
  let qlp := quodig - scale in
  let q := mk_fxdpnt (number q) qlp (qlp + scale) in
  Ok (mk_prep u vf v temp q lea leb uscal offset quodig out_of_scale).

(** Lines 154-157: normalization. *)
Definition div_norm (b : Z) (p : prep) : outcome Z :=
  let* v0 := load (p_vf p) (p_v p) in
  let* n := c_div b (v0 + 1) in
  Ok (to_UARBT n).

Definition div_normalize (b : Z) (p : prep) : outcome prep :=
  let* norm := div_norm b p in
  if negb (norm =? 1) then
    let* u := shmul (p_u p) 0 (p_lea p + p_uscal p + p_offset p + 1) norm 0 b in
    let* vf := shmul (p_vf p) (p_v p) (p_leb p) norm (p_v p) b in
    Ok (mk_prep u vf (p_v p) (p_temp p) (p_q p) (p_lea p) (p_leb p)
                (p_uscal p) (p_offset p) (p_quodig p) (p_out_of_scale p))
  else Ok p.

(** The part of the frame the quotient-digit loop changes. *)
Record loop_state : Type := mk_loop_state {
  s_u : list Z;
  s_temp : list Z;
  s_q : fxdpnt;
  s_i : Z;
  s_j : Z
}.

(** Lines 162-164: the trial digit.  [u[i] * b + u[i+1]] is an [int],
    below [b * b] for digits below [b]. *)
Definition trial_digit (vf : list Z) (v : Z) (u : list Z) (i b : Z) : outcome Z :=
  let qg := to_UARBT (b - 1) in
  let* v0 := load vf v in
  let* ui := load u i in
  if negb (v0 =? ui) then
    let* ui1 := load u (i + 1) in
    let* t := c_div (ui * b + ui1) v0 in
    Ok (to_UARBT t)
  else Ok qg.

(** The test of lines 165 and 167.  Both sides are [int] expressions; for
    digits and a trial digit below [b] they stay below [b * b * b] in
    absolute value, and the theorems on the loop assume
    [b * b * b <= INT_MAX]. *)
Definition over_guess (vf : list Z) (v : Z) (u : list Z) (i b qg : Z) : outcome bool :=
  let* v1 := load vf (v + 1) in
  let* ui := load u i in
  let* ui1 := load u (i + 1) in
  let* v0 := load vf v in
  let* ui2 := load u (i + 2) in
  Ok (v1 * qg >? (ui * b + ui1 - v0 * qg) * b + ui2).

(** Lines 165-169: the refinement. *)
Definition refine_digit (vf : list Z) (v : Z) (u : list Z) (i b qg : Z) : outcome Z :=
  let* over := over_guess vf v u i b qg in
  if over then
    let qg := to_UARBT (qg - 1) in
    let* over := over_guess vf v u i b qg in
    if over then Ok (to_UARBT (qg - 1)) else Ok qg
  else Ok qg.

(** Lines 171-178: multiply and subtract, then the add-back. The result
    is the dividend buffer, the scratch buffer and the quotient digit. *)
Definition mul_sub_add (vf : list Z) (v leb : Z) (u temp : list Z) (i b qg : Z)
  : outcome (list Z * list Z * Z) :=
  if negb (qg =? 0) then
    let* temp := arb_mul_core vf v leb qg temp 0 b in
    let* '(u, borrow) := _long_sub u leb i temp 0 leb b in
    if borrow =? 0 then Ok (u, temp, qg)
    else
      let qg := to_UARBT (qg - 1) in
      let* '(u, carry) := _long_add u leb i vf v (leb - 1) b in
      if negb (carry =? 0) then
        let* u := store u 0 0 in
        Ok (u, temp, qg)
      else Ok (u, temp, qg)
  else Ok (u, temp, qg).

(** One pass through the body of the loop of line 162, with its
    increments. *)
Definition div_step (p : prep) (b : Z) (st : loop_state) : outcome loop_state :=
  let vf := p_vf p in
  let v := p_v p in
  let* qg := trial_digit vf v (s_u st) (s_i st) b in
  let* qg := refine_digit vf v (s_u st) (s_i st) b qg in
  let* '(u, temp, qg) := mul_sub_add vf v (p_leb p) (s_u st) (s_temp st) (s_i st) b qg in
  let* qn := store (number (s_q st)) (s_j st) qg in
  Ok (mk_loop_state u temp (mk_fxdpnt qn (lp (s_q st)) (len (s_q st)))
                    (s_i st + 1) (s_j st + 1)).

Fixpoint div_loop (fuel : nat) (p : prep) (b scale : Z) (st : loop_state)
  : outcome loop_state :=
  if s_i st <=? p_lea p + scale - p_leb p then
    match fuel with
    | O => OutOfFuel
    | S fuel' =>
      let* st' := div_step p b st in
      div_loop fuel' p b scale st'
    end
  else Ok st.

(** [k] passes through the body of the loop. *)
Fixpoint div_iter (k : nat) (p : prep) (b : Z) (st : loop_state)
  : outcome loop_state :=
  match k with
  | O => Ok st
  | S k' =>
    let* st' := div_step p b st in
    div_iter k' p b st'
  end.

(** The state on entry to the loop: [i = 0] and the write index [j] of
    lines 159-160. *)
Definition loop_entry (p : prep) : loop_state :=
  mk_loop_state (p_u p) (p_temp p) (p_q p) 0
                (if p_leb p >? p_lea p then p_leb p - p_lea p else 0).

Definition arb_div_inter (num den q : fxdpnt) (b scale : Z) : outcome fxdpnt :=
  let* p := div_prepare num den q b scale in
  if p_out_of_scale p then Ok (remove_leading_zeros (p_q p))
  else
    let* p := div_normalize b p in
    let* st := div_loop (Z.to_nat (p_lea p + scale - p_leb p + 1)) p b scale
                        (loop_entry p) in
    Ok (remove_leading_zeros (s_q st)).

(** ** arb_div (div.c, lines 190-198); the sign of the result is set by
    [arb_setsign], outside the engine, and is not part of this model. *)
Definition arb_div (a b c : fxdpnt) (base scale : Z) : outcome fxdpnt :=
  let c2 := arb_expand (len a + len b + scale) in
  arb_div_inter a b c2 base scale.


(** ** The arithmetic of one quotient digit

    The trial digit, the test and the refinement of lines 162-169 as
    functions of the digits they read: [v0], [v1] lead the divisor and
    [u0], [u1], [u2] lead the dividend window. *)

Definition guess (b v0 u0 u1 : Z) : Z :=
  if v0 =? u0 then b - 1 else (u0 * b + u1) / v0.

Definition over (b v0 v1 u0 u1 u2 q : Z) : bool :=
  v1 * q >? (u0 * b + u1 - v0 * q) * b + u2.

Definition refine (b v0 v1 u0 u1 u2 q : Z) : Z :=
  if over b v0 v1 u0 u1 u2 q
  then (if over b v0 v1 u0 u1 u2 (q - 1) then q - 1 - 1 else q - 1)
  else q.

(** ** The single-digit multiply as the specification words it

    "If the digit is 0, the destination is zero-filled; if 1, the source is
    copied unchanged.  Otherwise it scans from least-significant to
    most-significant, computing value = src[i]*digit + carry, storing
    value mod base, carrying value div base; a final nonzero carry is
    written one position further left than any input digit." *)

(** The scan over the digits taken least significant first: the digits
    stored, again least significant first, and the final carry. *)
Fixpoint scale_scan (b d : Z) (lsf : list Z) (carry : Z) : list Z * Z :=
  match lsf with
  | [] => ([], carry)
  | x :: rest =>
    let value := x * d + carry in
    let '(out, c) := scale_scan b d rest (value / b) in
    (value mod b :: out, c)
  end.

Definition scale_digits (b d : Z) (src : list Z) : list Z * Z :=
  if d =? 0 then (replicate (length src) 0, 0)
  else if d =? 1 then (src, 0)
  else let '(out, c) := scale_scan b d (rev src) 0 in (rev out, c).

(** [scale] on a memory [m] that holds the source window at [src] and the
    destination window at [dst]; without a spare slot left of [dst] a
    nonzero carry has no cell of the destination to go to. *)
Definition scale (m : list Z) (src length : nat) (d : Z) (dst : nat) (b : Z)
  : outcome (list Z) :=
  let '(out, c) := scale_digits b d (window m src length) in
  let m' := splice m dst out in
  if c =? 0 then Ok m'
  else match dst with
       | O => Fault
       | S p => Ok (<[p := c]> m')
       end.

(** ** Well-formed numbers and the invariant of the loop *)

Definition wf_number (b : Z) (a : fxdpnt) : Prop :=
  0 <= lp a <= len a
  /\ len a <= Z.of_nat (length (number a))
  /\ in_base b (digits a).

(** The state of the loop after [k] passes.  [n] and [V] are the length and
    the value of the normalized divisor, [u0] the normalized dividend
    buffer, [temp0] and [q0] the scratch buffer and the quotient on entry,
    [j0] the first write index. *)
Record loop_inv (b : Z) (n : nat) (V : Z) (u0 temp0 : list Z) (q0 : fxdpnt)
       (j0 : nat) (k : nat) (st : loop_state) : Prop := mk_loop_inv {
  inv_i : s_i st = Z.of_nat k;
  inv_j : s_j st = Z.of_nat (j0 + k);
  inv_u_length : length (s_u st) = length u0;
  inv_u_base : in_base b (s_u st);
  inv_u_head : (0 < k)%nat -> s_u st !! 0%nat = Some 0;
  inv_u_tail : drop (k + n) (s_u st) = drop (k + n) u0;
  inv_rem : 0 <= digits_val b (window (s_u st) k n) < V;
  inv_quot :
    digits_val b (take (k + n) u0)
    = digits_val b (window (number (s_q st)) j0 k) * V
      + digits_val b (window (s_u st) k n);
  inv_temp : length (s_temp st) = length temp0;
  inv_q_length : length (number (s_q st)) = length (number q0);
  inv_q_head : take j0 (number (s_q st)) = take j0 (number q0);
  inv_q_tail : drop (j0 + k) (number (s_q st)) = drop (j0 + k) (number q0);
  inv_q_base : in_base b (window (number (s_q st)) j0 k);
  inv_q_lp : lp (s_q st) = lp q0;
  inv_q_len : len (s_q st) = len q0
}.

(** The quotient of two numbers truncated to [scale] fractional digits, as
    an integer counted in units of the last fractional digit:
    [floor (N / D * b^scale)] for [N = digits num / b^(rr num)] and
    [D = digits den / b^(rr den)]. *)
Definition quotient_value (b : Z) (num den : fxdpnt) (scale : Z) : Z :=
  (digits_val b (digits num) * b ^ (rr den + scale))
  / (digits_val b (digits den) * b ^ rr num).

(** What holds of the frame [p0] that lines 121-149 prepare: the dividend
    buffer is a zero guard, the window [ws] and two more guards; the
    divisor is [x :: rest] after the zeros [vpre], with a zero guard after
    it. *)
Record prepared_ok (b scale : Z) (num den q : fxdpnt) (p0 : prep)
       (ws vpre : list Z) (x : Z) (rest vpost : list Z) : Prop := mk_prepared_ok {
  po_u : p_u p0 = (0 :: ws) ++ [0; 0];
  po_ws_base : in_base b ws;
  po_size : p_lea p0 + p_uscal p0 + p_offset p0 + 1 = Z.of_nat (S (length ws));
  po_vf : p_vf p0 = vpre ++ (x :: rest) ++ 0 :: vpost;
  po_vs_base : in_base b (x :: rest);
  po_x : x <> 0;
  po_v : p_v p0 = Z.of_nat (length vpre);
  po_leb : p_leb p0 = Z.of_nat (S (length rest));
  po_ws_val : digits_val b ws = digits_val b (digits num) * b ^ p_offset p0;
  po_vs_val : digits_val b (x :: rest) = digits_val b (digits den);
  po_lea : p_lea p0 = rl num + rr den;
  po_uscal : p_uscal p0 = rr num - rr den;
  po_offset :
    p_offset p0 = if p_uscal p0 <? scale then scale - p_uscal p0 else 0;
  po_ws_len : Z.of_nat (length ws) = len num + p_offset p0;
  po_den_len : Z.of_nat (length vpre + S (length rest)) = len den;
  po_den : digits den = vpre ++ x :: rest;
  po_vpre : vpre = replicate (length vpre) 0;
  po_temp : length (p_temp p0) = S (length vpre + S (length rest));
  po_oos : p_out_of_scale p0 = (p_leb p0 >? p_lea p0 + scale);
  po_quodig :
    p_quodig p0
    = if p_out_of_scale p0 then scale + 1
      else if negb (p_leb p0 >? p_lea p0) then p_lea p0 - p_leb p0 + scale + 1
      else scale + 1;
  po_q :
    p_q p0 = mk_fxdpnt (number q) (p_quodig p0 - scale)
                       (p_quodig p0 - scale + scale)
}.

(** What holds of the frame [p] of a division that reaches the loop, once
    it is normalized: the divisor is [vs] inside [vf], the dividend window
    is [rs] followed by two guard cells, the loop makes [S m] passes and
    writes from index [j0] on. *)
Record frame_ok (b scale : Z) (num den q : fxdpnt) (p : prep)
       (vpre vs vpost rs : list Z) (j0 m : nat) (norm : Z) : Prop := mk_frame_ok {
  fo_vs_base : in_base b vs;
  fo_vs_len : (1 <= length vs)%nat;
  fo_lead : b <= 2 * (vs !!! 0%nat) + 1;
  fo_vf : p_vf p = vpre ++ vs ++ 0 :: vpost;
  fo_v : p_v p = Z.of_nat (length vpre);
  fo_leb : p_leb p = Z.of_nat (length vs);
  fo_bound : p_lea p + scale - p_leb p = Z.of_nat m;
  fo_u : p_u p = rs ++ [0; 0];
  fo_rs_base : in_base b rs;
  fo_rs_len : (S m + length vs <= length rs)%nat;
  fo_temp : (S (length vs) <= length (p_temp p))%nat;
  fo_q_room : (j0 + m < length (number (p_q p)))%nat;
  fo_entry :
    loop_inv b (length vs) (digits_val b vs) (rs ++ [0; 0]) (p_temp p) (p_q p)
             j0 0%nat (loop_entry p);
  fo_norm : 1 <= norm < b;
  fo_vs_val : digits_val b vs = digits_val b (digits den) * norm;
  fo_rs_val :
    digits_val b rs = digits_val b (digits num) * b ^ p_offset p * norm;
  fo_offset : 0 <= p_offset p;
  fo_excess :
    p_offset p - Z.of_nat (length rs - (S m + length vs))
    = scale - (rr num - rr den);
  fo_q_number : number (p_q p) = number q;
  fo_q_lp : lp (p_q p) = Z.of_nat (j0 + S m) - scale;
  fo_q_len : len (p_q p) = lp (p_q p) + scale;
  fo_q_scale : scale <= Z.of_nat (j0 + m)
}.


(** * Arithmetic of Algorithm D *)

(** The normalization factor of line 154. *)
Lemma norm_leading (b v0 : Z) :
  2 <= b -> 1 <= v0 < b ->
  1 <= b / (v0 + 1) /\ b / (v0 + 1) < b /\ b <= 2 * (v0 * (b / (v0 + 1))) + 1
  /\ (v0 + 1) * (b / (v0 + 1)) <= b.
Proof.
  intros Hb Hv.
  pose proof (Z.div_mod b (v0 + 1) ltac:(lia)) as E.
  pose proof (Z.mod_pos_bound b (v0 + 1) ltac:(lia)) as M.
  set (d := b / (v0 + 1)) in *.
  assert (1 <= d) by (apply Z.div_le_lower_bound; lia).
  assert (d < b) by (apply Z.div_lt_upper_bound; nia).
  repeat split; try lia; nia.
Qed.

(** The trial digit: [V] and [W] are the divisor and the dividend window,
    split after their two, respectively three, leading digits. *)
Section Trial.
Variables b v0 v1 V2 u0 u1 u2 W3 B V W : Z.
Hypothesis Hb : 2 <= b.
Hypothesis HB : 1 <= B.
Hypothesis Hv0 : 0 <= v0 < b.
Hypothesis Hv1 : 0 <= v1 < b.
Hypothesis Hu0 : 0 <= u0 < b.
Hypothesis Hu1 : 0 <= u1 < b.
Hypothesis Hu2 : 0 <= u2 < b.
Hypothesis HV2 : 0 <= V2 < B.
Hypothesis HW3 : 0 <= W3 < B.
Hypothesis Hnorm : b <= 2 * v0 + 1.
Hypothesis HV : V = (v0 * b + v1) * B + V2.
Hypothesis HW : W = ((u0 * b + u1) * b + u2) * B + W3.
Hypothesis HWV : W < b * V.

Local Abbreviation qhat := (guess b v0 u0 u1).
Local Abbreviation overq := (over b v0 v1 u0 u1 u2).
Local Abbreviation refineq := (refine b v0 v1 u0 u1 u2).

Lemma trial_u0_le : u0 <= v0.
Proof.
  assert (0 < b * b * B) by nia.
  assert (u0 * (b * b * B) <= W) by nia.
  assert (b * V < (v0 + 1) * (b * b * B)) by nia.
  assert (u0 * (b * b * B) < (v0 + 1) * (b * b * B)) by lia.
  apply Z.lt_succ_r. apply Z.mul_lt_mono_pos_r with (p := b * b * B); lia.
Qed.


Lemma guess_range : 0 <= qhat <= b - 1 /\ qhat * v0 <= u0 * b + u1 /\ W < (qhat + 1) * V.
Proof.
  pose proof trial_u0_le.
  assert (1 <= v0) by lia.
  unfold guess. destruct (Z.eqb_spec v0 u0) as [E|E].
  - split; [lia|]. split; [nia|]. nia.
  - assert (u0 < v0) by lia.
    pose proof (Z.div_mod (u0 * b + u1) v0 ltac:(lia)) as E1.
    pose proof (Z.mod_pos_bound (u0 * b + u1) v0 ltac:(lia)) as M.
    set (g := (u0 * b + u1) / v0) in *.
    assert (0 <= g) by (apply Z.div_pos; nia).
    assert (g <= b - 1) by (apply Z.lt_succ_r; apply Z.div_lt_upper_bound; nia).
    split; [lia|]. split; [nia|].
    assert ((u0 * b + u1 + 1) * (b * B) <= (g + 1) * v0 * (b * B)) by (apply Z.mul_le_mono_nonneg_r; nia).
    nia.
Qed.


Lemma over_true q : 0 <= q -> overq q = true -> W < q * V.
Proof.
  unfold over. intros Hq H. apply Z.gtb_lt in H.
  assert ((u0 * b + u1) * b + u2 + 1 <= (v0 * b + v1) * q) by lia.
  assert (((u0 * b + u1) * b + u2 + 1) * B <= (v0 * b + v1) * q * B) by (apply Z.mul_le_mono_nonneg_r; lia).
  nia.
Qed.

Lemma over_false q : 0 <= q <= b -> overq q = false -> (q - 1) * V <= W.
Proof.
  unfold over. intros Hq H.
  assert (Hle : v1 * q <= (u0 * b + u1 - v0 * q) * b + u2).
  { destruct (Z.gtb_spec (v1 * q) ((u0 * b + u1 - v0 * q) * b + u2)); [discriminate|lia]. }
  assert ((v0 * b + v1) * q * B <= ((u0 * b + u1) * b + u2) * B) by (apply Z.mul_le_mono_nonneg_r; lia).
  assert (1 <= v0) by lia.
  assert (q * V2 <= b * B) by nia.
  assert (b * B <= V) by nia.
  nia.
Qed.

Lemma guess_close : (qhat - 3) * V < W.
Proof.
  destruct guess_range as (Hr & Hg & _).
  destruct (Z_lt_le_dec 2 qhat) as [Hgt|Hle].
  2:{ assert (0 <= V) by nia. assert (0 <= W) by nia. nia. }
  (* qhat >= 3 *)
  destruct (Z_lt_le_dec ((qhat - 3) * V) W) as [|Hc]; [assumption|exfalso].
  assert (qhat * v0 * (b * B) <= (u0 * b + u1) * (b * B)) by (apply Z.mul_le_mono_nonneg_r; nia).
  assert ((u0 * b + u1) * (b * B) <= W) by nia.
  assert (V < (v0 + 1) * (b * B)) by nia.
  assert ((qhat - 3) * V  <= (qhat - 3) * ((v0 + 1) * (b * B))) by (apply Z.mul_le_mono_nonneg_l; lia).
  assert (qhat * v0 * (b*B) <= (qhat - 3) * (v0 + 1) * (b * B)) by nia.
  assert (0 < b * B) by nia.
  assert (qhat * v0 <= (qhat - 3) * (v0 + 1)) by (apply Z.mul_le_mono_pos_r with (p := b * B); lia).
  nia.
Qed.


Lemma refine_ok :
  0 <= refineq qhat <= b - 1 /\ (refineq qhat - 1) * V <= W /\ W < (refineq qhat + 1) * V.
Proof.
  destruct guess_range as (Hr & Hg & Hlow).
  pose proof guess_close as Hc.
  assert (0 < V) by nia.
  assert (0 <= W) by nia.
  unfold refine.
  destruct (overq qhat) eqn:E1.
  - pose proof (over_true qhat ltac:(lia) E1) as Ho1.
    assert (1 <= qhat) by nia.
    destruct (overq (qhat - 1)) eqn:E2.
    + pose proof (over_true (qhat - 1) ltac:(lia) E2) as Ho2.
      assert (2 <= qhat) by nia.
      split; [lia|]. split; [nia|]. nia.
    + pose proof (over_false (qhat - 1) ltac:(lia) E2) as Ho2.
      split; [lia|]. split; [nia|]. nia.
  - pose proof (over_false qhat ltac:(lia) E1) as Ho1.
    split; [lia|]. split; [nia|]. nia.
Qed.
End Trial.

(** * Digit sequences and their values *)

Lemma fold_val_acc b l acc :
  fold_left (fun acc d => acc * b + d) l acc
  = acc * b ^ Z.of_nat (length l) + digits_val b l.
Proof.
  unfold digits_val. revert acc.
  induction l as [|x l IH]; intros acc; simpl.
  - lia.
  - rewrite IH, (IH (0 * b + x)).
    replace (Z.of_nat (S (length l))) with (Z.succ (Z.of_nat (length l))) by lia.
    rewrite Z.pow_succ_r by lia. ring.
Qed.

Lemma digits_val_nil b : digits_val b [] = 0.
Proof. reflexivity. Qed.

Lemma digits_val_cons b x l :
  digits_val b (x :: l) = x * b ^ Z.of_nat (length l) + digits_val b l.
Proof.
  unfold digits_val at 1. simpl. rewrite fold_val_acc. ring.
Qed.

Lemma digits_val_app b l1 l2 :
  digits_val b (l1 ++ l2)
  = digits_val b l1 * b ^ Z.of_nat (length l2) + digits_val b l2.
Proof.
  unfold digits_val at 1. rewrite fold_left_app.
  fold (digits_val b l1). apply fold_val_acc.
Qed.

Lemma digits_val_snoc b l x :
  digits_val b (l ++ [x]) = digits_val b l * b + x.
Proof.
  rewrite digits_val_app. simpl length. rewrite Z.pow_1_r.
  unfold digits_val at 2. simpl. ring.
Qed.

Lemma digits_val_bound b l :
  0 < b -> in_base b l -> 0 <= digits_val b l < b ^ Z.of_nat (length l).
Proof.
  intros Hb H. induction H as [|x l Hx Hl IH].
  - simpl. rewrite digits_val_nil. lia.
  - rewrite digits_val_cons.
    replace (Z.of_nat (length (x :: l))) with (Z.succ (Z.of_nat (length l)))
      by (simpl length; lia).
    rewrite Z.pow_succ_r by lia.
    assert (0 < b ^ Z.of_nat (length l)) by (apply Z.pow_pos_nonneg; lia).
    nia.
Qed.

Lemma digits_val_replicate_0 b n : digits_val b (replicate n 0) = 0.
Proof.
  induction n as [|n IH]; [reflexivity|].
  simpl. rewrite digits_val_cons, IH. lia.
Qed.

Lemma in_base_replicate_0 b n : 0 < b -> in_base b (replicate n 0).
Proof. intros Hb. apply Forall_replicate. lia. Qed.

Lemma in_base_app b l1 l2 : in_base b (l1 ++ l2) <-> in_base b l1 /\ in_base b l2.
Proof. apply Forall_app. Qed.

(** Two in-range digit sequences of one length with one value are equal. *)
Lemma digits_val_inj b l1 l2 :
  0 < b -> in_base b l1 -> in_base b l2 -> length l1 = length l2 ->
  digits_val b l1 = digits_val b l2 -> l1 = l2.
Proof.
  intros Hb H1. revert l2.
  induction H1 as [|x l1 Hx Hl1 IH]; intros l2 H2 Hlen Hv.
  - destruct l2; [reflexivity|discriminate].
  - destruct l2 as [|y l2]; [discriminate|].
    apply Forall_cons in H2 as [Hy Hl2].
    simpl in Hlen. injection Hlen as Hlen.
    rewrite !digits_val_cons, Hlen in Hv.
    pose proof (digits_val_bound b l1 Hb Hl1) as B1.
    pose proof (digits_val_bound b l2 Hb Hl2) as B2.
    rewrite Hlen in B1.
    assert (x = y) by nia. subst y.
    f_equal. apply IH; auto. lia.
Qed.

Lemma to_digits_length b n x : length (to_digits b n x) = n.
Proof.
  revert x. induction n as [|n IH]; intros x; simpl; [reflexivity|].
  rewrite length_app, IH. simpl. lia.
Qed.

Lemma to_digits_in_base b n x : 0 < b -> in_base b (to_digits b n x).
Proof.
  intros Hb. revert x. induction n as [|n IH]; intros x; simpl.
  - constructor.
  - apply in_base_app. split; [apply IH|].
    constructor; [|constructor]. apply Z.mod_pos_bound. lia.
Qed.

Lemma to_digits_val b n x :
  0 < b -> digits_val b (to_digits b n x) = x mod b ^ Z.of_nat n.
Proof.
  intros Hb. revert x. induction n as [|n IH]; intros x.
  - simpl. rewrite digits_val_nil, Z.mod_1_r. reflexivity.
  - simpl to_digits. rewrite digits_val_snoc, IH.
    replace (Z.of_nat (S n)) with (Z.succ (Z.of_nat n)) by lia.
    rewrite Z.pow_succ_r by lia.
    rewrite Z.rem_mul_r by (try apply Z.pow_nonzero; try apply Z.pow_pos_nonneg; lia).
    lia.
Qed.

(** * The digit-array primitives *)

Lemma to_UARBT_small x : 0 <= x < UARBT_MOD -> to_UARBT x = x.
Proof. intros H. unfold to_UARBT. apply Z.mod_small. exact H. Qed.

Lemma to_UARBT_digit b x :
  b <= UARBT_MOD -> 0 <= x < b -> to_UARBT x = x.
Proof. intros Hb Hx. apply to_UARBT_small. lia. Qed.

Lemma map_to_UARBT_in_base b l :
  b <= UARBT_MOD -> in_base b l -> map to_UARBT l = l.
Proof.
  intros Hb H. induction H as [|x l Hx Hl IH]; simpl; [reflexivity|].
  rewrite IH, (to_UARBT_digit b) by assumption. reflexivity.
Qed.

Lemma c_div_nonneg x y : 0 <= x -> 0 < y -> c_div x y = Ok (x / y).
Proof.
  intros Hx Hy. unfold c_div.
  destruct (Z.eqb_spec y 0); [lia|].
  rewrite Z.quot_div_nonneg by lia. reflexivity.
Qed.

Lemma c_rem_nonneg x y : 0 <= x -> 0 < y -> c_rem x y = Ok (x mod y).
Proof.
  intros Hx Hy. unfold c_rem.
  destruct (Z.eqb_spec y 0); [lia|].
  rewrite Z.rem_mod_nonneg by lia. reflexivity.
Qed.

(** ** One cell *)

Lemma load_lookup m a x :
  0 <= a -> m !! Z.to_nat a = Some x -> load m a = Ok x.
Proof.
  intros Ha H. unfold load.
  destruct (Z.ltb_spec a 0); [lia|]. rewrite H. reflexivity.
Qed.

Lemma load_nat m (n : nat) x : m !! n = Some x -> load m (Z.of_nat n) = Ok x.
Proof.
  intros H. apply load_lookup; [lia|]. rewrite Nat2Z.id. exact H.
Qed.

Lemma load_middle pre x post a :
  a = Z.of_nat (length pre) -> load (pre ++ x :: post) a = Ok x.
Proof.
  intros ->. apply load_nat. apply list_lookup_middle. reflexivity.
Qed.

Lemma store_nat m (n : nat) x :
  (n < length m)%nat -> store m (Z.of_nat n) x = Ok (<[n := x]> m).
Proof.
  intros H. unfold store.
  destruct (Z.ltb_spec (Z.of_nat n) 0); [lia|].
  rewrite Nat2Z.id.
  destruct (lookup_lt_is_Some_2 m n H) as [y ->]. reflexivity.
Qed.

Lemma store_middle pre x post a y :
  a = Z.of_nat (length pre) ->
  store (pre ++ x :: post) a y = Ok (pre ++ y :: post).
Proof.
  intros ->. rewrite store_nat.
  - f_equal. replace (length pre) with (length pre + 0)%nat at 1 by lia.
    rewrite insert_app_r. reflexivity.
  - rewrite length_app. simpl. lia.
Qed.

(** ** Windows and splices *)

Lemma window_length l i n :
  (i + n <= length l)%nat -> length (window l i n) = n.
Proof.
  intros H. unfold window. rewrite length_take, length_drop. lia.
Qed.

Lemma window_split l i n :
  l = take i l ++ window l i n ++ drop (i + n) l.
Proof.
  unfold window. rewrite <- (take_drop i l) at 1. f_equal.
  rewrite <- (take_drop n (drop i l)) at 1. f_equal.
  rewrite drop_drop. reflexivity.
Qed.

Lemma window_app pre ws post :
  window (pre ++ ws ++ post) (length pre) (length ws) = ws.
Proof.
  unfold window. rewrite drop_app_length, take_app_length. reflexivity.
Qed.

Lemma window_cons l i n x :
  l !! i = Some x -> window l i (S n) = x :: window l (S i) n.
Proof.
  intros H. unfold window.
  rewrite (drop_S l x i H). reflexivity.
Qed.

Lemma window_snoc l i n x :
  l !! (i + n)%nat = Some x -> window l i (S n) = window l i n ++ [x].
Proof.
  intros H. unfold window. apply take_S_r. rewrite lookup_drop. exact H.
Qed.

Lemma window_in_base b l i n : in_base b l -> in_base b (window l i n).
Proof.
  intros H. unfold window. apply Forall_take, Forall_drop, H.
Qed.

Lemma splice_length m a ds :
  (a + length ds <= length m)%nat -> length (splice m a ds) = length m.
Proof.
  intros H. unfold splice.
  rewrite !length_app, length_take, length_drop. lia.
Qed.

Lemma splice_app pre ws post rs :
  length rs = length ws ->
  splice (pre ++ ws ++ post) (length pre) rs = pre ++ rs ++ post.
Proof.
  intros H. unfold splice.
  rewrite take_app_length. f_equal. f_equal.
  rewrite drop_app_add, H, drop_app_length. reflexivity.
Qed.

Lemma splice_window m a n :
  (a + n <= length m)%nat -> splice m a (window m a n) = m.
Proof.
  intros H. unfold splice. rewrite window_length by exact H.
  symmetry. apply window_split.
Qed.

Lemma splice_snoc_insert m a ds r :
  (a + length ds < length m)%nat ->
  splice (<[(a + length ds)%nat := r]> m) a ds = splice m a (ds ++ [r]).
Proof.
  intros H. unfold splice.
  rewrite take_insert_ge by lia.
  rewrite drop_insert_ge by lia.
  replace (a + length ds - (a + length ds))%nat with 0%nat by lia.
  rewrite length_app. simpl length.
  destruct (drop (a + length ds) m) as [|y rest] eqn:E.
  - apply (f_equal length) in E. rewrite length_drop in E. simpl in E. lia.
  - simpl. rewrite <- app_assoc. simpl.
    replace (a + (length ds + 1))%nat with (S (a + length ds)) by lia.
    assert (Hd : drop (S (a + length ds)) m = rest).
    { replace (S (a + length ds)) with (a + length ds + 1)%nat by lia.
      rewrite <- (drop_drop m 1 (a + length ds)), E. reflexivity. }
    rewrite Hd. reflexivity.
Qed.

Lemma splice_nil m a : splice m a [] = m.
Proof.
  unfold splice. simpl. rewrite Nat.add_0_r. apply take_drop.
Qed.

Lemma window_insert_outside m p r i n :
  (p < i \/ i + n <= p)%nat ->
  window (<[p := r]> m) i n = window m i n.
Proof.
  intros H. unfold window. destruct H as [H|H].
  - rewrite drop_insert_lt by lia. reflexivity.
  - rewrite drop_insert_ge by lia. rewrite take_insert_ge by lia. reflexivity.
Qed.

Lemma in_base_splice b m a ds :
  in_base b m -> in_base b ds -> in_base b (splice m a ds).
Proof.
  intros Hm Hd. unfold splice.
  apply Forall_app. split; [apply Forall_take, Hm|].
  apply Forall_app. split; [exact Hd|apply Forall_drop, Hm].
Qed.

(** ** Whole ranges *)

Lemma in_range_nat m (a n : nat) :
  (a + n <= length m)%nat -> in_range m (Z.of_nat a) (Z.of_nat n) = true.
Proof.
  intros H. unfold in_range.
  repeat (apply andb_true_intro; split); apply Z.leb_le; lia.
Qed.

Lemma load_range_nat m (a n : nat) :
  (a + n <= length m)%nat ->
  load_range m (Z.of_nat a) (Z.of_nat n) = Ok (window m a n).
Proof.
  intros H. unfold load_range. rewrite in_range_nat by exact H.
  rewrite !Nat2Z.id. reflexivity.
Qed.

Lemma store_range_nat m (a : nat) ds :
  (a + length ds <= length m)%nat ->
  store_range m (Z.of_nat a) ds = Ok (splice m a ds).
Proof.
  intros H. unfold store_range. rewrite in_range_nat by exact H.
  rewrite Nat2Z.id. reflexivity.
Qed.

(** ** _long_sub and _long_add on a window *)

Lemma snoc_length_inv (ws : list Z) (vs : list Z) x :
  length (ws ++ [x]) = length vs ->
  exists vs' y, vs = vs' ++ [y] /\ length ws = length vs'.
Proof.
  intros H. destruct vs as [|v vs _] using rev_ind.
  - rewrite length_app in H. simpl in H. lia.
  - exists vs, v. split; [reflexivity|].
    rewrite !length_app in H. simpl in H. lia.
Qed.

Lemma long_sub_loop_spec b ws :
  0 < b <= UARBT_MOD ->
  forall vs fuel pre post vpre vpost u i v k borrow,
    length ws = length vs -> in_base b ws -> in_base b vs ->
    (length ws <= fuel)%nat ->
    k = Z.of_nat (length ws) - 1 ->
    u + i = Z.of_nat (length pre) + Z.of_nat (length ws) - 1 ->
    v + k = Z.of_nat (length vpre) + Z.of_nat (length vs) - 1 ->
    0 <= borrow <= 1 ->
    exists rs borrow',
      long_sub_loop fuel (pre ++ ws ++ post) u i (vpre ++ vs ++ vpost) v k b borrow
      = Ok (pre ++ rs ++ post, borrow')
      /\ length rs = length ws /\ in_base b rs /\ 0 <= borrow' <= 1
      /\ digits_val b rs
         = digits_val b ws - digits_val b vs - borrow
           + borrow' * b ^ Z.of_nat (length ws).
Proof.
  intros Hb. induction ws as [|x ws IH] using rev_ind;
    intros vs fuel pre post vpre vpost u i v k borrow Hlen Hws Hvs Hfuel Hk Hu Hv Hbor.
  - destruct vs; [|discriminate]. simpl in Hk. subst k.
    exists [], borrow. destruct fuel; simpl; repeat split; try constructor; try lia;
      rewrite digits_val_nil; lia.
  - destruct (snoc_length_inv ws vs x Hlen) as (vs' & y & -> & Hlen').
    apply in_base_app in Hws as [Hws Hx]. apply in_base_app in Hvs as [Hvs' Hy].
    apply Forall_cons in Hx as [Hx _]. apply Forall_cons in Hy as [Hy _].
    rewrite length_app in *. simpl length in *.
    destruct fuel as [|fuel]; [lia|].
    simpl long_sub_loop.
    destruct (Z.ltb_spec 0 (k + 1)) as [_|Hc]; [|lia].
    rewrite <- !app_assoc. simpl app.
    rewrite (app_assoc pre ws), (app_assoc vpre vs').
    rewrite (load_middle (pre ++ ws) x post) by (rewrite length_app; lia).
    rewrite (load_middle (vpre ++ vs') y vpost) by (rewrite length_app; lia).
    simpl bind.
    set (val := x - y - borrow).
    assert (Hcase : exists r c, (if val <? 0 then (val + b, 1) else (val, 0)) = (r, c)
                           /\ 0 <= r < b /\ 0 <= c <= 1 /\ r = val + c * b).
    { destruct (Z.ltb_spec val 0).
      - exists (val + b), 1. repeat split; subst val; lia.
      - exists val, 0. repeat split; subst val; lia. }
    destruct Hcase as (r & c & -> & Hr & Hc & Hrv).
    rewrite (to_UARBT_digit b) by lia.
    rewrite (store_middle (pre ++ ws) x post) by (rewrite length_app; lia).
    simpl bind. rewrite <- !app_assoc.
    destruct (IH vs' fuel pre (r :: post) vpre (y :: vpost) u (i - 1) v (k - 1) c)
      as (rs & borrow' & Hrun & Hrl & Hrb & Hb' & Hval); try assumption; try lia.
    exists (rs ++ [r]), borrow'. rewrite Hrun.
    rewrite <- !app_assoc. simpl app. split; [reflexivity|].
    split; [rewrite !length_app; simpl; lia|].
    split; [apply in_base_app; split; [assumption|constructor; [lia|constructor]]|].
    split; [assumption|].
    rewrite !digits_val_snoc, Hval.
    replace (Z.of_nat (length ws + 1)) with (Z.succ (Z.of_nat (length ws))) by lia.
    rewrite Z.pow_succ_r by lia. subst val. lia.
Qed.

Lemma long_sub_spec b pre ws post vpre vs vpost u i v k :
  0 < b <= UARBT_MOD ->
  length ws = length vs -> in_base b ws -> in_base b vs ->
  k = Z.of_nat (length ws) - 1 ->
  u + i = Z.of_nat (length pre) + Z.of_nat (length ws) - 1 ->
  v + k = Z.of_nat (length vpre) + Z.of_nat (length vs) - 1 ->
  exists rs borrow,
    _long_sub (pre ++ ws ++ post) u i (vpre ++ vs ++ vpost) v k b
    = Ok (pre ++ rs ++ post, borrow)
    /\ length rs = length ws /\ in_base b rs /\ 0 <= borrow <= 1
    /\ digits_val b rs
       = digits_val b ws - digits_val b vs + borrow * b ^ Z.of_nat (length ws).
Proof.
  intros Hb Hlen Hws Hvs Hk Hu Hv. unfold _long_sub.
  destruct (long_sub_loop_spec b ws Hb vs (Z.to_nat (k + 1)) pre post vpre vpost
              u i v k 0) as (rs & borrow & Hrun & H1 & H2 & H3 & H4);
    try assumption; try lia.
  exists rs, borrow. rewrite Hrun. repeat split; try assumption; try lia.
Qed.

Lemma long_add_loop_spec b ws :
  0 < b <= UARBT_MOD ->
  forall vs fuel pre post vpre vpost u i v k carry,
    length ws = length vs -> in_base b ws -> in_base b vs ->
    (length ws <= fuel)%nat ->
    k = Z.of_nat (length ws) - 1 ->
    u + i = Z.of_nat (length pre) + Z.of_nat (length ws) - 1 ->
    v + k = Z.of_nat (length vpre) + Z.of_nat (length vs) - 1 ->
    0 <= carry <= 1 ->
    exists rs carry',
      long_add_loop fuel (pre ++ ws ++ post) u i (vpre ++ vs ++ vpost) v k b carry
      = Ok (pre ++ rs ++ post, carry')
      /\ length rs = length ws /\ in_base b rs /\ 0 <= carry' <= 1
      /\ digits_val b rs
         = digits_val b ws + digits_val b vs + carry
           - carry' * b ^ Z.of_nat (length ws).
Proof.
  intros Hb. induction ws as [|x ws IH] using rev_ind;
    intros vs fuel pre post vpre vpost u i v k carry Hlen Hws Hvs Hfuel Hk Hu Hv Hcar.
  - destruct vs; [|discriminate]. simpl in Hk. subst k.
    exists [], carry. destruct fuel; simpl; repeat split; try constructor; try lia;
      rewrite digits_val_nil; lia.
  - destruct (snoc_length_inv ws vs x Hlen) as (vs' & y & -> & Hlen').
    apply in_base_app in Hws as [Hws Hx]. apply in_base_app in Hvs as [Hvs' Hy].
    apply Forall_cons in Hx as [Hx _]. apply Forall_cons in Hy as [Hy _].
    rewrite length_app in *. simpl length in *.
    destruct fuel as [|fuel]; [lia|].
    simpl long_add_loop.
    destruct (Z.ltb_spec 0 (k + 1)) as [_|Hc]; [|lia].
    rewrite <- !app_assoc. simpl app.
    rewrite (app_assoc pre ws), (app_assoc vpre vs').
    rewrite (load_middle (pre ++ ws) x post) by (rewrite length_app; lia).
    rewrite (load_middle (vpre ++ vs') y vpost) by (rewrite length_app; lia).
    simpl bind.
    set (val := x + y + carry).
    assert (Hcase : exists r c, (if b <=? val then (val - b, 1) else (val, 0)) = (r, c)
                           /\ 0 <= r < b /\ 0 <= c <= 1 /\ r = val - c * b).
    { destruct (Z.leb_spec b val).
      - exists (val - b), 1. repeat split; subst val; lia.
      - exists val, 0. repeat split; subst val; lia. }
    destruct Hcase as (r & c & -> & Hr & Hc & Hrv).
    rewrite (to_UARBT_digit b) by lia.
    rewrite (store_middle (pre ++ ws) x post) by (rewrite length_app; lia).
    simpl bind. rewrite <- !app_assoc.
    destruct (IH vs' fuel pre (r :: post) vpre (y :: vpost) u (i - 1) v (k - 1) c)
      as (rs & carry' & Hrun & Hrl & Hrb & Hb' & Hval); try assumption; try lia.
    exists (rs ++ [r]), carry'. rewrite Hrun.
    rewrite <- !app_assoc. simpl app. split; [reflexivity|].
    split; [rewrite !length_app; simpl; lia|].
    split; [apply in_base_app; split; [assumption|constructor; [lia|constructor]]|].
    split; [assumption|].
    rewrite !digits_val_snoc, Hval.
    replace (Z.of_nat (length ws + 1)) with (Z.succ (Z.of_nat (length ws))) by lia.
    rewrite Z.pow_succ_r by lia. subst val. lia.
Qed.

Lemma long_add_spec b pre ws post vpre vs vpost u i v k :
  0 < b <= UARBT_MOD ->
  length ws = length vs -> in_base b ws -> in_base b vs ->
  k = Z.of_nat (length ws) - 1 ->
  u + i = Z.of_nat (length pre) + Z.of_nat (length ws) - 1 ->
  v + k = Z.of_nat (length vpre) + Z.of_nat (length vs) - 1 ->
  exists rs carry,
    _long_add (pre ++ ws ++ post) u i (vpre ++ vs ++ vpost) v k b
    = Ok (pre ++ rs ++ post, carry)
    /\ length rs = length ws /\ in_base b rs /\ 0 <= carry <= 1
    /\ digits_val b rs
       = digits_val b ws + digits_val b vs - carry * b ^ Z.of_nat (length ws).
Proof.
  intros Hb Hlen Hws Hvs Hk Hu Hv. unfold _long_add.
  destruct (long_add_loop_spec b ws Hb vs (Z.to_nat (k + 1)) pre post vpre vpost
              u i v k 0) as (rs & carry & Hrun & H1 & H2 & H3 & H4);
    try assumption; try lia.
  exists rs, carry. rewrite Hrun. repeat split; try assumption; try lia.
Qed.

(** ** shmul *)

Lemma window_lookup l i n j :
  (j < n)%nat -> window l i n !! j = l !! (i + j)%nat.
Proof.
  intros H. unfold window. rewrite lookup_take_lt by exact H.
  apply lookup_drop.
Qed.

Lemma window_snoc_inv l i ws x :
  window l i (S (length ws)) = ws ++ [x] ->
  window l i (length ws) = ws /\ l !! (i + length ws)%nat = Some x.
Proof.
  intros H. split.
  - unfold window in *.
    apply (f_equal (take (length ws))) in H.
    rewrite take_take, take_app_length in H.
    rewrite Nat.min_l in H by lia. exact H.
  - rewrite <- (window_lookup l i (S (length ws))) by lia.
    rewrite H. apply list_lookup_middle. reflexivity.
Qed.

Lemma scale_scan_spec b d lsf :
  0 < b -> 0 <= d < b -> in_base b lsf ->
  forall carry, 0 <= carry < b ->
    length (scale_scan b d lsf carry).1 = length lsf
    /\ in_base b (scale_scan b d lsf carry).1
    /\ 0 <= (scale_scan b d lsf carry).2 < b
    /\ digits_val b (rev (scale_scan b d lsf carry).1)
       + (scale_scan b d lsf carry).2 * b ^ Z.of_nat (length lsf)
       = digits_val b (rev lsf) * d + carry.
Proof.
  intros Hb Hd H. induction H as [|x lsf Hx Hl IH]; intros carry Hc.
  - simpl. rewrite digits_val_nil. repeat split; try constructor; lia.
  - simpl scale_scan.
    set (value := x * d + carry).
    assert (Hv : 0 <= value <= (b - 1) * b) by (subst value; nia).
    assert (Hq : 0 <= value / b < b).
    { split; [apply Z.div_pos; lia|apply Z.div_lt_upper_bound; nia]. }
    destruct (IH (value / b) Hq) as (H1 & H2 & H3 & H4).
    destruct (scale_scan b d lsf (value / b)) as [out c]. simpl in *.
    split; [lia|].
    split; [constructor; [apply Z.mod_pos_bound; lia|assumption]|].
    split; [assumption|].
    rewrite !digits_val_snoc.
    replace (Z.of_nat (S (length lsf))) with (Z.succ (Z.of_nat (length lsf))) by lia.
    rewrite Z.pow_succ_r by lia.
    pose proof (Z.div_mod value b ltac:(lia)) as E.
    subst value. nia.
Qed.

Lemma shmul_loop_spec b d src :
  0 < b <= UARBT_MOD -> 0 <= d < b ->
  forall m num result fuel carry,
    window m num (length src) = src -> in_base b src ->
    (num + length src <= length m)%nat ->
    (result + length src <= length m)%nat ->
    (num <= result \/ result + length src <= num)%nat ->
    (length src <= fuel)%nat -> 0 <= carry < b ->
    shmul_loop fuel m (Z.of_nat num) (Z.of_nat (length src)) d (Z.of_nat result) b carry
    = Ok (splice m result (rev (scale_scan b d (rev src) carry).1), 0,
          (scale_scan b d (rev src) carry).2).
Proof.
  intros Hb Hd. induction src as [|x src IH] using rev_ind;
    intros m num result fuel carry Hwin Hsrc Hnum Hres Hsep Hfuel Hc.
  - simpl. rewrite splice_nil. destruct fuel; reflexivity.
  - apply in_base_app in Hsrc as [Hsrc Hx]. apply Forall_cons in Hx as [Hx _].
    rewrite length_app in *. simpl length in *.
    replace (length src + 1)%nat with (S (length src)) in * by lia.
    apply window_snoc_inv in Hwin as [Hwin Hlast].
    destruct fuel as [|fuel]; [lia|].
    simpl shmul_loop.
    destruct (Z.ltb_spec 0 (Z.of_nat (S (length src)))) as [_|Hn]; [|lia].
    replace (Z.of_nat num + (Z.of_nat (S (length src)) - 1))
      with (Z.of_nat (num + length src)) by lia.
    rewrite (load_nat m _ x Hlast). simpl bind.
    set (value := x * d + carry).
    assert (Hv : 0 <= value <= (b - 1) * b) by (subst value; nia).
    assert (Hq : 0 <= value / b < b).
    { split; [apply Z.div_pos; lia|apply Z.div_lt_upper_bound; nia]. }
    rewrite c_rem_nonneg by lia. simpl bind.
    rewrite (to_UARBT_digit b) by (try apply Z.mod_pos_bound; lia).
    replace (Z.of_nat result + (Z.of_nat (S (length src)) - 1))
      with (Z.of_nat (result + length src)) by lia.
    rewrite store_nat by lia. simpl bind.
    rewrite c_div_nonneg by lia. simpl bind.
    replace (Z.of_nat (S (length src)) - 1) with (Z.of_nat (length src)) by lia.
    rewrite IH; try assumption; try lia.
    2:{ rewrite window_insert_outside; [exact Hwin|lia]. }
    2:{ rewrite length_insert. lia. }
    2:{ rewrite length_insert. lia. }
    rewrite rev_app_distr. simpl rev. simpl app. simpl scale_scan.
    fold value.
    pose proof (scale_scan_spec b d (rev src) ltac:(lia) Hd) as Hss.
    destruct (Hss ltac:(apply Forall_rev; exact Hsrc) (value / b) Hq) as (Hl & _).
    destruct (scale_scan b d (rev src) (value / b)) as [out c]. simpl in *.
    rewrite length_rev in Hl.
    rewrite <- Hl at 1. rewrite <- (length_rev out).
    rewrite splice_snoc_insert by (rewrite length_rev; lia).
    reflexivity.
Qed.

(** [shmul] does what the specification's single-digit multiply does, when
    source and destination are one window or two disjoint windows. *)
Lemma shmul_scale m (num size result : nat) d b :
  0 < b <= UARBT_MOD -> 0 <= d < b ->
  in_base b (window m num size) ->
  (num + size <= length m)%nat -> (result + size <= length m)%nat ->
  (num = result \/ num + size <= result \/ result + size <= num)%nat ->
  shmul m (Z.of_nat num) (Z.of_nat size) d (Z.of_nat result) b
  = scale m num size d result b.
Proof.
  intros Hb Hd Hsrc Hnum Hres Hsep.
  pose proof (window_length m num size Hnum) as Hwl.
  unfold shmul, scale, scale_digits.
  destruct (Z.eqb_spec d 0) as [->|Hd0].
  - unfold _arb_memset. rewrite Nat2Z.id, Hwl.
    replace (to_UARBT 0) with 0 by (unfold to_UARBT; rewrite Zmod_0_l; reflexivity).
    rewrite store_range_nat by (rewrite length_replicate; lia).
    reflexivity.
  - destruct (Z.eqb_spec d 1) as [->|Hd1].
    + unfold _arb_copy_core. rewrite load_range_nat by lia. simpl bind.
      rewrite store_range_nat by (rewrite Hwl; lia). reflexivity.
    + rewrite Nat2Z.id.
      pose proof (shmul_loop_spec b d (window m num size) Hb Hd m num result size 0)
        as HL.
      rewrite Hwl in HL.
      rewrite HL; try assumption; try lia; try reflexivity.
      pose proof (scale_scan_spec b d (rev (window m num size)) ltac:(lia) Hd
                    ltac:(apply Forall_rev; exact Hsrc) 0 ltac:(lia))
        as (Hl & Ho & Hc & _).
      destruct (scale_scan b d (rev (window m num size)) 0) as [out c].
      simpl in *. simpl bind.
      destruct (Z.eqb_spec c 0) as [->|Hc0]; simpl negb; cbv iota.
      * reflexivity.
      * rewrite (to_UARBT_digit b) by lia.
        destruct result as [|p].
        { reflexivity. }
        replace (Z.of_nat (S p) + (0 - 1)) with (Z.of_nat p) by lia.
        rewrite store_nat; [reflexivity|].
        rewrite splice_length; rewrite ?length_rev, ?Hl, ?length_rev, ?Hwl; lia.
Qed.

Lemma scale_digits_spec b d src :
  0 < b -> 0 <= d < b -> in_base b src ->
  length (scale_digits b d src).1 = length src
  /\ in_base b (scale_digits b d src).1
  /\ 0 <= (scale_digits b d src).2 < b
  /\ digits_val b (scale_digits b d src).1
     + (scale_digits b d src).2 * b ^ Z.of_nat (length src)
     = digits_val b src * d.
Proof.
  intros Hb Hd Hsrc. unfold scale_digits.
  destruct (Z.eqb_spec d 0) as [->|Hd0]; [|destruct (Z.eqb_spec d 1) as [->|Hd1]].
  - simpl. rewrite length_replicate, digits_val_replicate_0.
    repeat split; try lia. apply in_base_replicate_0. lia.
  - simpl. repeat split; try assumption; lia.
  - pose proof (scale_scan_spec b d (rev src) Hb Hd
                  ltac:(apply Forall_rev; exact Hsrc) 0 ltac:(lia))
      as (Hl & Ho & Hc & Hv).
    destruct (scale_scan b d (rev src) 0) as [out c]. simpl in *.
    rewrite length_rev in *. rewrite rev_involutive in Hv.
    repeat split; try lia. apply Forall_rev. exact Ho.
Qed.

(** The in-place multiply of a window whose product still fits it. *)
Lemma shmul_in_place b d pre ws post :
  0 < b <= UARBT_MOD -> 0 <= d < b -> in_base b ws ->
  digits_val b ws * d < b ^ Z.of_nat (length ws) ->
  exists rs,
    shmul (pre ++ ws ++ post) (Z.of_nat (length pre)) (Z.of_nat (length ws)) d
          (Z.of_nat (length pre)) b
    = Ok (pre ++ rs ++ post)
    /\ length rs = length ws /\ in_base b rs
    /\ digits_val b rs = digits_val b ws * d.
Proof.
  intros Hb Hd Hws Hfit.
  rewrite shmul_scale; try assumption; try lia;
    rewrite ?window_app, ?length_app; try assumption; try lia.
  unfold scale. rewrite window_app.
  pose proof (scale_digits_spec b d ws ltac:(lia) Hd Hws) as (Hl & Ho & Hc & Hv).
  destruct (scale_digits b d ws) as [out c]. simpl in *.
  pose proof (digits_val_bound b out ltac:(lia) Ho) as Hob.
  assert (0 < b ^ Z.of_nat (length ws)) by (apply Z.pow_pos_nonneg; lia).
  assert (c = 0) by nia. subst c. simpl.
  exists out. rewrite splice_app by exact Hl.
  repeat split; try assumption. lia.
Qed.

Lemma store_range_0 m ds :
  (length ds <= length m)%nat ->
  store_range m 0 ds = Ok (ds ++ drop (length ds) m).
Proof.
  intros H. apply (store_range_nat m 0 ds). simpl. exact H.
Qed.

Lemma arb_mul_core_spec b vpre vs vpost qg temp :
  0 < b <= UARBT_MOD -> 0 <= qg < b -> in_base b vs ->
  (S (length vs) <= length temp)%nat ->
  exists ts,
    arb_mul_core (vpre ++ vs ++ vpost) (Z.of_nat (length vpre)) (Z.of_nat (length vs))
                 qg temp 0 b
    = Ok (ts ++ drop (S (length vs)) temp)
    /\ length ts = S (length vs) /\ in_base b ts
    /\ digits_val b ts = digits_val b vs * qg.
Proof.
  intros Hb Hq Hvs Hlen. unfold arb_mul_core.
  rewrite load_range_nat by (rewrite !length_app; lia). cbn [bind].
  rewrite window_app, Nat2Z.id.
  set (ts := to_digits b (S (length vs)) (digits_val b vs * qg)).
  assert (Htl : length ts = S (length vs)) by apply to_digits_length.
  assert (Htb : in_base b ts) by (apply to_digits_in_base; lia).
  assert (Htv : digits_val b ts = digits_val b vs * qg).
  { unfold ts. rewrite to_digits_val by lia.
    apply Z.mod_small.
    pose proof (digits_val_bound b vs ltac:(lia) Hvs) as Hvb.
    replace (Z.of_nat (S (length vs))) with (Z.succ (Z.of_nat (length vs))) by lia.
    rewrite Z.pow_succ_r by lia. nia. }
  clearbody ts.
  rewrite (map_to_UARBT_in_base b) by (try assumption; lia).
  rewrite store_range_0 by lia.
  exists ts. rewrite Htl. repeat split; assumption.
Qed.


(** ** The range of the [int] expressions

    What keeps the digit products of lines 63 and 164-167 inside an [int],
    where the arithmetic of [Z] is the arithmetic of the C code. *)

Lemma shmul_value_in_int b x digit carry :
  b * b <= INT_MAX -> 0 <= x < b -> 0 <= digit < b -> 0 <= carry < b ->
  0 <= x * digit <= INT_MAX
  /\ 0 <= x * digit + carry <= INT_MAX
  /\ 0 <= (x * digit + carry) / b < b.
Proof.
  intros Hi Hx Hd Hc.
  assert (0 <= x * digit) by nia.
  assert (x * digit + carry < b * b) by nia.
  split; [nia|]. split; [lia|].
  split; [apply Z.div_pos; lia|].
  apply Z.div_lt_upper_bound; lia.
Qed.

Lemma trial_value_in_int b ui ui1 :
  b * b <= INT_MAX -> 0 <= ui < b -> 0 <= ui1 < b ->
  0 <= ui * b <= INT_MAX /\ 0 <= ui * b + ui1 <= INT_MAX.
Proof. intros Hi Hu Hu1. split; nia. Qed.

Lemma over_values_in_int b v0 v1 ui ui1 ui2 qg :
  b * b * b <= INT_MAX -> 0 < b ->
  0 <= v0 < b -> 0 <= v1 < b ->
  0 <= ui < b -> 0 <= ui1 < b -> 0 <= ui2 < b -> 0 <= qg < b ->
  0 <= v1 * qg <= INT_MAX
  /\ 0 <= v0 * qg <= INT_MAX
  /\ 0 <= ui * b + ui1 <= INT_MAX
  /\ - INT_MAX <= ui * b + ui1 - v0 * qg <= INT_MAX
  /\ - INT_MAX <= (ui * b + ui1 - v0 * qg) * b <= INT_MAX
  /\ - INT_MAX <= (ui * b + ui1 - v0 * qg) * b + ui2 <= INT_MAX.
Proof.
  intros Hi Hb Hv0 Hv1 Hu Hu1 Hu2 Hq.
  assert (Hbb : b * b <= b * b * b) by nia.
  assert (H1 : 0 <= v1 * qg <= (b - 1) * (b - 1)) by nia.
  assert (H2 : 0 <= v0 * qg <= (b - 1) * (b - 1)) by nia.
  assert (H3 : 0 <= ui * b + ui1 <= b * b - 1) by nia.
  assert (H4 : - ((b - 1) * (b - 1)) <= ui * b + ui1 - v0 * qg <= b * b - 1) by lia.
  assert (H5 : - (b * b * b) + b <= (ui * b + ui1 - v0 * qg) * b <= b * b * b - b)
    by nia.
  repeat split; nia.
Qed.

(** * One quotient digit *)

Lemma load_at m a k x :
  a = Z.of_nat k -> m !! k = Some x -> load m a = Ok x.
Proof. intros -> H. apply load_nat, H. Qed.

Lemma lookup_total_Some (l : list Z) k :
  (k < length l)%nat -> l !! k = Some (l !!! k).
Proof. intros H. apply list_lookup_lookup_total_lt, H. Qed.

Lemma in_base_lookup_total b (l : list Z) k :
  in_base b l -> (k < length l)%nat -> 0 <= l !!! k < b.
Proof.
  intros Hl Hk. unfold in_base in Hl. rewrite Forall_lookup in Hl.
  apply (Hl k). apply lookup_total_Some, Hk.
Qed.

Lemma over_zero b v0 v1 u0 u1 u2 :
  0 <= b -> 0 <= u0 -> 0 <= u1 -> 0 <= u2 -> over b v0 v1 u0 u1 u2 0 = false.
Proof.
  intros. unfold over.
  destruct (Z.gtb_spec (v1 * 0) ((u0 * b + u1 - v0 * 0) * b + u2)); [nia|reflexivity].
Qed.

Lemma over_guess_spec vf v u i b q kv ki v0 v1 ui ui1 ui2 :
  v = Z.of_nat kv -> i = Z.of_nat ki ->
  vf !! kv = Some v0 -> vf !! S kv = Some v1 ->
  u !! ki = Some ui -> u !! S ki = Some ui1 -> u !! S (S ki) = Some ui2 ->
  over_guess vf v u i b q = Ok (over b v0 v1 ui ui1 ui2 q).
Proof.
  intros -> -> Hv0 Hv1 Hu0 Hu1 Hu2. unfold over_guess.
  rewrite (load_at vf _ (S kv) v1) by (lia || assumption). cbn [bind].
  rewrite (load_at u _ ki ui) by (lia || assumption). cbn [bind].
  rewrite (load_at u _ (S ki) ui1) by (lia || assumption). cbn [bind].
  rewrite (load_at vf _ kv v0) by (lia || assumption). cbn [bind].
  rewrite (load_at u _ (S (S ki)) ui2) by (lia || assumption). cbn [bind].
  reflexivity.
Qed.

Lemma refine_decrements b v0 v1 u0 u1 u2 q :
  q - 2 <= refine b v0 v1 u0 u1 u2 q <= q.
Proof.
  unfold refine.
  destruct (over b v0 v1 u0 u1 u2 q); [|lia].
  destruct (over b v0 v1 u0 u1 u2 (q - 1)); lia.
Qed.

Lemma refine_digit_spec vf v u i b q kv ki v0 v1 ui ui1 ui2 :
  v = Z.of_nat kv -> i = Z.of_nat ki ->
  vf !! kv = Some v0 -> vf !! S kv = Some v1 ->
  u !! ki = Some ui -> u !! S ki = Some ui1 -> u !! S (S ki) = Some ui2 ->
  0 <= ui -> 0 <= ui1 -> 0 <= ui2 -> 0 <= q < b -> b <= UARBT_MOD ->
  refine_digit vf v u i b q = Ok (refine b v0 v1 ui ui1 ui2 q).
Proof.
  intros Hv Hi Hv0 Hv1 Hu0 Hu1 Hu2 Hp0 Hp1 Hp2 Hq Hb.
  unfold refine_digit, refine.
  rewrite (over_guess_spec vf v u i b q kv ki v0 v1 ui ui1 ui2) by assumption.
  cbn [bind].
  destruct (over b v0 v1 ui ui1 ui2 q) eqn:E1; [|reflexivity].
  assert (q <> 0).
  { intros ->. rewrite over_zero in E1 by lia. discriminate. }
  rewrite (to_UARBT_digit b) by lia.
  rewrite (over_guess_spec vf v u i b (q - 1) kv ki v0 v1 ui ui1 ui2) by assumption.
  cbn [bind].
  destruct (over b v0 v1 ui ui1 ui2 (q - 1)) eqn:E2; [|reflexivity].
  assert (q - 1 <> 0).
  { intros E. rewrite E, over_zero in E2 by lia. discriminate. }
  rewrite (to_UARBT_digit b) by lia. reflexivity.
Qed.

Lemma trial_digit_spec vf v u i b kv ki v0 ui ui1 :
  v = Z.of_nat kv -> i = Z.of_nat ki ->
  vf !! kv = Some v0 -> u !! ki = Some ui -> u !! S ki = Some ui1 ->
  0 < v0 -> 0 <= ui -> 0 <= ui1 -> 0 < b <= UARBT_MOD ->
  0 <= guess b v0 ui ui1 < b ->
  trial_digit vf v u i b = Ok (guess b v0 ui ui1).
Proof.
  intros -> -> Hv0 Hu0 Hu1 Hp Hp0 Hp1 Hb Hg. unfold trial_digit.
  rewrite (load_at vf _ kv v0) by (lia || assumption). cbn [bind].
  rewrite (load_at u _ ki ui) by (lia || assumption). cbn [bind].
  unfold guess in *.
  destruct (Z.eqb_spec v0 ui) as [E|E]; cbn [negb].
  - rewrite (to_UARBT_digit b) by lia. reflexivity.
  - rewrite (load_at u _ (S ki) ui1) by (lia || assumption). cbn [bind].
    rewrite c_div_nonneg by nia. cbn [bind].
    rewrite (to_UARBT_digit b) by lia. reflexivity.
Qed.

Lemma Zpow_nat_S b k : b ^ Z.of_nat (S k) = b * b ^ Z.of_nat k.
Proof.
  replace (Z.of_nat (S k)) with (Z.succ (Z.of_nat k)) by lia.
  apply Z.pow_succ_r. lia.
Qed.

Lemma Zpow_nat_pos b k : 0 < b -> 0 < b ^ Z.of_nat k.
Proof. intros H. apply Z.pow_pos_nonneg; lia. Qed.

(** The dividend window that follows a partial remainder below the divisor
    is below [b] times the divisor. *)
Lemma window_step_bound b u i n V :
  0 < b -> in_base b u -> (i + n < length u)%nat ->
  digits_val b (window u i n) < V ->
  digits_val b (window u i (S n)) < b * V.
Proof.
  intros Hb Hu Hlen HR.
  rewrite (window_snoc u i n (u !!! (i + n)%nat)) by (apply lookup_total_Some; lia).
  rewrite digits_val_snoc.
  pose proof (in_base_lookup_total b u (i + n) Hu Hlen). nia.
Qed.

Section Digit.

Variables (b : Z) (vpre vs vpost : list Z).
Hypothesis Hb : 2 <= b <= UARBT_MOD.
Hypothesis Hvs : in_base b vs.
Hypothesis Hvn : (1 <= length vs)%nat.
Hypothesis Hnorm : b <= 2 * (vs !!! 0%nat) + 1.

Local Abbreviation vf := (vpre ++ vs ++ 0 :: vpost).
Local Abbreviation n := (length vs).
Local Abbreviation V := (digits_val b vs).
Local Abbreviation v0 := (vs !!! 0%nat).
Local Abbreviation v1 := ((vs ++ [0]) !!! 1%nat).

Lemma divisor_lead : vf !! length vpre = Some v0 /\ vf !! S (length vpre) = Some v1.
Proof.
  destruct vs as [|a vs']; [simpl in Hvn; lia|].
  split.
  - apply list_lookup_middle. reflexivity.
  - replace (S (length vpre)) with (length vpre + 1)%nat by lia.
    rewrite lookup_app_r by lia.
    replace (length vpre + 1 - length vpre)%nat with 1%nat by lia.
    simpl. destruct vs'; reflexivity.
Qed.

Lemma divisor_bounds :
  0 < v0 < b /\ 0 <= v1 < b /\ v0 * b ^ Z.of_nat (n - 1) <= V < b ^ Z.of_nat n.
Proof.
  pose proof (digits_val_bound b vs ltac:(lia) Hvs) as HV.
  destruct vs as [|a vs']; [simpl in Hvn; lia|].
  apply Forall_cons in Hvs as [Ha Hvs'].
  change ((a :: vs') !!! 0%nat) with a in *.
  pose proof (digits_val_bound b vs' ltac:(lia) Hvs') as HV'.
  rewrite digits_val_cons in *. simpl length in *.
  replace (S (length vs') - 1)%nat with (length vs') by lia.
  split; [lia|]. split; [|lia].
  destruct vs' as [|a1 vs2]; simpl.
  - lia.
  - apply Forall_cons in Hvs' as [Ha1 _]. exact Ha1.
Qed.

Lemma digit_bounds u i :
  in_base b u -> (i + n + 2 <= length u)%nat ->
  digits_val b (window u i n) < V ->
  0 <= guess b v0 (u !!! i) (u !!! S i) < b
  /\ 0 <= refine b v0 v1 (u !!! i) (u !!! S i) (u !!! S (S i))
                 (guess b v0 (u !!! i) (u !!! S i)) <= b - 1
  /\ (refine b v0 v1 (u !!! i) (u !!! S i) (u !!! S (S i))
             (guess b v0 (u !!! i) (u !!! S i)) - 1) * V
     <= digits_val b (window u i (S n))
  /\ digits_val b (window u i (S n))
     < (refine b v0 v1 (u !!! i) (u !!! S i) (u !!! S (S i))
               (guess b v0 (u !!! i) (u !!! S i)) + 1) * V.
Proof.
  intros Hu Hlen HR.
  pose proof (window_step_bound b u i n V ltac:(lia) Hu ltac:(lia) HR) as HWV.
  pose proof divisor_bounds as (Hv0 & Hv1 & _).
  pose proof (in_base_lookup_total b u i Hu ltac:(lia)) as Hu0.
  pose proof (in_base_lookup_total b u (S i) Hu ltac:(lia)) as Hu1.
  pose proof (in_base_lookup_total b u (S (S i)) Hu ltac:(lia)) as Hu2.
  pose proof (lookup_total_Some u i ltac:(lia)) as Lu0.
  pose proof (lookup_total_Some u (S i) ltac:(lia)) as Lu1.
  pose proof (lookup_total_Some u (S (S i)) ltac:(lia)) as Lu2.
  set (ui := u !!! i) in *. set (ui1 := u !!! S i) in *.
  set (ui2 := u !!! S (S i)) in *.
  destruct vs as [|a vs']; [simpl in Hvn; lia|].
  change ((a :: vs') !!! 0%nat) with a in *.
  destruct vs' as [|a1 vs2].
  - (* a one-digit divisor: the cell after it is the zero guard *)
    change (([a] ++ [0]) !!! 1%nat) with 0 in *.
    simpl length in *.
    rewrite (window_cons u i 1 ui Lu0), (window_cons u (S i) 0 ui1 Lu1) in *.
    change (window u (S (S i)) 0) with (@nil Z) in *.
    change (digits_val b [a]) with (0 * b + a) in *.
    change (digits_val b [ui; ui1]) with ((0 * b + ui) * b + ui1) in *.
    pose proof (guess_range b a 0 0 ui ui1 ui2 0 1 ((0 * b + a) * b)
                  (((0 * b + ui) * b + ui1) * b + ui2)
                  ltac:(lia) ltac:(lia) ltac:(lia) ltac:(lia) ltac:(lia)
                  ltac:(lia) ltac:(lia) ltac:(lia) ltac:(lia) ltac:(lia)
                  ltac:(lia) ltac:(lia) ltac:(nia)) as (G1 & _).
    pose proof (refine_ok b a 0 0 ui ui1 ui2 0 1 ((0 * b + a) * b)
                  (((0 * b + ui) * b + ui1) * b + ui2)
                  ltac:(lia) ltac:(lia) ltac:(lia) ltac:(lia) ltac:(lia)
                  ltac:(lia) ltac:(lia) ltac:(lia) ltac:(lia) ltac:(lia)
                  ltac:(lia) ltac:(lia) ltac:(nia)) as (R1 & R2 & R3).
    set (q1 := refine b a 0 ui ui1 ui2 (guess b a ui ui1)) in *.
    split; [lia|]. split; [lia|]. split; nia.
  - apply Forall_cons in Hvs as [Ha Hvs']. apply Forall_cons in Hvs' as [Ha1 Hvs2].
    change (((a :: a1 :: vs2) ++ [0]) !!! 1%nat) with a1 in *.
    simpl length in *.
    pose proof (digits_val_bound b vs2 ltac:(lia) Hvs2) as HV2.
    assert (Hw3 : in_base b (window u (S (S (S i))) (length vs2)))
      by (apply window_in_base, Hu).
    pose proof (digits_val_bound b _ ltac:(lia) Hw3) as HW3.
    rewrite window_length in HW3 by lia.
    rewrite (window_cons u i _ ui Lu0), (window_cons u (S i) _ ui1 Lu1),
      (window_cons u (S (S i)) _ ui2 Lu2) in *.
    rewrite !digits_val_cons in *. simpl length in *.
    rewrite window_length in * by lia.
    rewrite !Zpow_nat_S in *.
    pose proof (Zpow_nat_pos b (length vs2) ltac:(lia)) as HB.
    set (B := b ^ Z.of_nat (length vs2)) in *.
    set (V2 := digits_val b vs2) in *.
    set (W3 := digits_val b (window u (S (S (S i))) (length vs2))) in *.
    pose proof (guess_range b a a1 V2 ui ui1 ui2 W3 B
                  (a * (b * B) + (a1 * B + V2))
                  (ui * (b * (b * B)) + (ui1 * (b * B) + (ui2 * B + W3)))
                  ltac:(lia) ltac:(lia) ltac:(lia) ltac:(lia) ltac:(lia)
                  ltac:(lia) ltac:(lia) ltac:(lia) ltac:(lia) ltac:(lia)
                  ltac:(ring) ltac:(ring) ltac:(lia)) as (G1 & _).
    pose proof (refine_ok b a a1 V2 ui ui1 ui2 W3 B
                  (a * (b * B) + (a1 * B + V2))
                  (ui * (b * (b * B)) + (ui1 * (b * B) + (ui2 * B + W3)))
                  ltac:(lia) ltac:(lia) ltac:(lia) ltac:(lia) ltac:(lia)
                  ltac:(lia) ltac:(lia) ltac:(lia) ltac:(lia) ltac:(lia)
                  ltac:(ring) ltac:(ring) ltac:(lia)) as (R1 & R2 & R3).
    split; [lia|]. split; [lia|]. split; lia.
Qed.


Lemma store_0 m x : (0 < length m)%nat -> store m 0 x = Ok (<[0%nat := x]> m).
Proof. intros H. apply (store_nat m 0 x H). Qed.

Lemma frame_take (pre mid post : list Z) i :
  length pre = i -> take i (pre ++ mid ++ post) = pre.
Proof. intros <-. apply take_app_length. Qed.

Lemma frame_drop (pre mid post : list Z) k :
  (length pre + length mid)%nat = k -> drop k (pre ++ mid ++ post) = post.
Proof.
  intros <-. rewrite app_assoc.
  rewrite <- length_app. apply drop_app_length.
Qed.

Lemma frame_window_tail (pre rt post : list Z) h i k :
  length pre = i -> length rt = k ->
  window (pre ++ (h :: rt) ++ post) (S i) k = rt.
Proof.
  intros <- <-.
  change (pre ++ (h :: rt) ++ post) with (pre ++ [h] ++ rt ++ post).
  rewrite (app_assoc pre [h]).
  replace (S (length pre)) with (length (pre ++ [h]))
    by (rewrite length_app; simpl; lia).
  apply window_app.
Qed.

Lemma frame_lookup_0 (pre rs post : list Z) :
  (pre ++ rs ++ post) !! 0%nat
  = match pre with [] => (rs ++ post) !! 0%nat | x :: _ => Some x end.
Proof. destruct pre; reflexivity. Qed.

(** D4: the product of the divisor and the trial digit is subtracted from
    the window [u[i..i+n]]. *)
Lemma mul_sub_spec u temp i q1 :
  in_base b u -> (i + n + 2 <= length u)%nat -> (S n <= length temp)%nat ->
  0 <= q1 <= b - 1 ->
  exists temp' rs borrow,
    arb_mul_core vf (Z.of_nat (length vpre)) (Z.of_nat n) q1 temp 0 b = Ok temp'
    /\ _long_sub u (Z.of_nat n) (Z.of_nat i) temp' 0 (Z.of_nat n) b
       = Ok (take i u ++ rs ++ drop (i + S n) u, borrow)
    /\ length temp' = length temp
    /\ length rs = S n /\ in_base b rs /\ 0 <= borrow <= 1
    /\ digits_val b rs
       = digits_val b (window u i (S n)) - V * q1 + borrow * b ^ Z.of_nat (S n).
Proof.
  intros Hu Hlen Htemp Hq.
  destruct (arb_mul_core_spec b vpre vs (0 :: vpost) q1 temp)
    as (ts & Hmul & Htl & Htb & Htv); try assumption; try lia.
  exists (ts ++ drop (S n) temp).
  pose proof (window_length u i (S n) ltac:(lia)) as Hwl.
  destruct (long_sub_spec b (take i u) (window u i (S n)) (drop (i + S n) u)
              [] ts (drop (S n) temp)
              (Z.of_nat n) (Z.of_nat i) 0 (Z.of_nat n))
    as (rs & borrow & Hsub & Hrl & Hrb & Hbor & Hval);
    try assumption; try lia.
  { apply window_in_base, Hu. }
  { rewrite length_take. lia. }
  { simpl length. lia. }
  exists rs, borrow.
  rewrite <- window_split in Hsub. simpl app in Hsub.
  split; [exact Hmul|]. split; [exact Hsub|].
  split.
  { rewrite length_app, length_drop. lia. }
  split; [lia|]. split; [assumption|]. split; [assumption|].
  rewrite Hval, Htv, Hwl. reflexivity.
Qed.

(** D6: after a borrow the divisor is added back to the [n] low cells of
    the window, and the carry out of them is one. *)
Lemma add_back_spec pre h rt post i q1 W :
  length pre = i -> length rt = n -> in_base b (h :: rt) ->
  digits_val b (h :: rt) = W - V * q1 + b ^ Z.of_nat (S n) ->
  (q1 - 1) * V <= W -> W < q1 * V ->
  exists rt',
    _long_add (pre ++ (h :: rt) ++ post) (Z.of_nat n) (Z.of_nat i) vf
              (Z.of_nat (length vpre)) (Z.of_nat n - 1) b
    = Ok (pre ++ (h :: rt') ++ post, 1)
    /\ length rt' = n /\ in_base b rt'
    /\ digits_val b rt' = W - (q1 - 1) * V.
Proof.
  intros Hpre Hrt Hrs Hval Hlo Hhi.
  apply Forall_cons in Hrs as [Hh Hrtb].
  pose proof divisor_bounds as (_ & _ & _ & HVn).
  pose proof (digits_val_bound b rt ltac:(lia) Hrtb) as Hrtv.
  rewrite digits_val_cons, Hrt in Hval.
  rewrite Hrt in Hrtv.
  rewrite Zpow_nat_S in Hval.
  pose proof (Zpow_nat_pos b n ltac:(lia)) as HB.
  set (B := b ^ Z.of_nat n) in *.
  assert (Hh1 : h = b - 1) by nia.
  destruct (long_add_spec b (pre ++ [h]) rt post vpre vs (0 :: vpost)
              (Z.of_nat n) (Z.of_nat i) (Z.of_nat (length vpre)) (Z.of_nat n - 1))
    as (rt' & carry & Hadd & Hl' & Hb' & Hc & Hv');
    try assumption; try lia.
  { rewrite length_app. simpl length. lia. }
  pose proof (digits_val_bound b rt' ltac:(lia) Hb') as Hrtv'.
  rewrite Hl', Hrt in Hrtv'. rewrite Hrt in Hv'. fold B in Hv', Hrtv'.
  assert (carry = 1) by nia. subst carry.
  exists rt'.
  rewrite <- !app_assoc in Hadd. simpl app in Hadd. simpl app.
  split; [exact Hadd|]. split; [lia|]. split; [assumption|]. nia.
Qed.

(** D4-D6 together: the quotient digit is exact and the partial remainder
    is back below the divisor. *)
Lemma mul_sub_add_spec u temp i q1 :
  in_base b u -> (i + n + 2 <= length u)%nat -> (S n <= length temp)%nat ->
  ((0 < i)%nat -> u !! 0%nat = Some 0) ->
  0 <= q1 <= b - 1 ->
  (q1 - 1) * V <= digits_val b (window u i (S n)) ->
  digits_val b (window u i (S n)) < (q1 + 1) * V ->
  exists u' temp' qd,
    mul_sub_add vf (Z.of_nat (length vpre)) (Z.of_nat n) u temp (Z.of_nat i) b q1
    = Ok (u', temp', qd)
    /\ 0 <= qd <= b - 1
    /\ qd * V <= digits_val b (window u i (S n)) < (qd + 1) * V
    /\ length u' = length u /\ in_base b u' /\ length temp' = length temp
    /\ u' !! 0%nat = Some 0
    /\ take i u' = take i u
    /\ drop (i + S n) u' = drop (i + S n) u
    /\ digits_val b (window u' (S i) n)
       = digits_val b (window u i (S n)) - qd * V.
Proof.
  intros Hu Hlen Htemp Hu0 Hq Hlo Hhi.
  pose proof divisor_bounds as (Hv0 & _ & _ & HVn).
  pose proof (Zpow_nat_pos b n ltac:(lia)) as HB.
  pose proof (window_length u i (S n) ltac:(lia)) as Hwl.
  assert (Hwb : in_base b (window u i (S n))) by (apply window_in_base, Hu).
  pose proof (digits_val_bound b _ ltac:(lia) Hwb) as HWb.
  set (W := digits_val b (window u i (S n))) in *.
  assert (Hpl : length (take i u) = i) by (rewrite length_take; lia).
  unfold mul_sub_add.
  destruct (Z.eqb_spec q1 0) as [->|Hq0]; cbn [negb].
  - (* the digit is zero and nothing is subtracted *)
    exists u, temp, 0.
    destruct (window u i (S n)) as [|h rt] eqn:Ew; [discriminate|].
    simpl in Hwl. injection Hwl as Hrt.
    apply Forall_cons in Hwb as [Hh Hrtb].
    pose proof (digits_val_bound b rt ltac:(lia) Hrtb) as Hrtv.
    rewrite Hrt in Hrtv.
    assert (HW : W = h * b ^ Z.of_nat n + digits_val b rt).
    { unfold W. rewrite digits_val_cons, Hrt. reflexivity. }
    assert (h = 0) by nia. subst h.
    split; [reflexivity|]. split; [lia|]. split; [lia|].
    do 3 (split; [first [reflexivity | assumption]|]).
    split.
    { destruct i as [|i']; [|apply Hu0; lia].
      pose proof (window_lookup u 0 (S n) 0 ltac:(lia)) as E0.
      rewrite Ew in E0. simpl in E0. symmetry. exact E0. }
    do 2 (split; [reflexivity|]).
    rewrite (window_split u i (S n)), Ew.
    rewrite (frame_window_tail _ rt _ 0 i n) by assumption. lia.
  - destruct (mul_sub_spec u temp i q1 Hu Hlen Htemp Hq)
      as (temp' & rs & borrow & Hmul & Hsub & Htl & Hrl & Hrb & Hbor & Hval).
    fold W in Hval. rewrite Zpow_nat_S in Hval.
    rewrite Hmul. cbn [bind]. rewrite Hsub. cbn [bind].
    pose proof (digits_val_bound b rs ltac:(lia) Hrb) as Hrsv.
    rewrite Hrl, Zpow_nat_S in Hrsv.
    destruct rs as [|h rt]; [discriminate|].
    simpl in Hrl. injection Hrl as Hrt.
    pose proof Hrb as Hrb'.
    apply Forall_cons in Hrb' as [Hh Hrtb].
    pose proof (digits_val_bound b rt ltac:(lia) Hrtb) as Hrtv.
    rewrite Hrt in Hrtv.
    pose proof Hval as Hval'.
    rewrite digits_val_cons, Hrt in Hval'.
    set (B := b ^ Z.of_nat n) in *.
    destruct (Z.eqb_spec borrow 0) as [->|Hb1].
    + (* no borrow: the trial digit stands *)
      exists (take i u ++ (h :: rt) ++ drop (i + S n) u), temp', q1.
      assert (Hge : V * q1 <= W) by nia.
      assert (h = 0) by nia. subst h.
      split; [reflexivity|]. split; [lia|]. split; [nia|].
      split.
      { rewrite !length_app, length_take, length_drop. simpl length. lia. }
      split.
      { apply in_base_app. split; [apply Forall_take, Hu|].
        apply in_base_app. split; [assumption|apply Forall_drop, Hu]. }
      split; [assumption|].
      split.
      { rewrite frame_lookup_0. destruct (take i u) as [|x pre] eqn:Ep.
        - reflexivity.
        - assert (0 < i)%nat by (destruct i; [discriminate|lia]).
          rewrite <- Hu0 by assumption. rewrite <- (lookup_take_lt u i 0) by assumption.
          rewrite Ep. reflexivity. }
      split; [apply frame_take; assumption|].
      split; [apply frame_drop; simpl length; lia|].
      rewrite (frame_window_tail _ rt _ 0 i n) by assumption. nia.
    + (* a borrow: the digit was one too large *)
      assert (borrow = 1) by lia. subst borrow.
      assert (Hlt : W < q1 * V) by nia.
      destruct (add_back_spec (take i u) h rt (drop (i + S n) u) i q1 W)
        as (rt' & Hadd & Hl' & Hb' & Hv'); try assumption; try lia.
      { rewrite Hval, Zpow_nat_S. fold B. lia. }
      rewrite (to_UARBT_digit b) by lia.
      rewrite Hadd. cbn [bind].
      change (negb (1 =? 0)) with true. cbv iota.
      rewrite store_0 by (rewrite !length_app, length_take; simpl length; lia).
      cbn [bind].
      exists (<[0%nat := 0]> (take i u ++ (h :: rt') ++ drop (i + S n) u)), temp', (q1 - 1).
      split; [reflexivity|]. split; [lia|]. split; [nia|].
      split.
      { rewrite length_insert, !length_app, length_take, length_drop. simpl length. lia. }
      split.
      { apply Forall_insert; [|lia].
        apply in_base_app. split; [apply Forall_take, Hu|].
        apply in_base_app. split; [constructor; assumption|apply Forall_drop, Hu]. }
      split; [assumption|].
      split.
      { apply list_lookup_insert_eq.
        rewrite !length_app, length_take. simpl length. lia. }
      split.
      { destruct i as [|i']; [reflexivity|].
        rewrite take_insert_lt by lia.
        rewrite frame_take by assumption.
        apply list_insert_id. rewrite lookup_take_lt by lia. apply Hu0. lia. }
      split.
      { rewrite drop_insert_lt by lia. apply frame_drop. simpl length. lia. }
      unfold window. rewrite drop_insert_lt by lia.
      fold (window (take i u ++ (h :: rt') ++ drop (i + S n) u) (S i) n).
      rewrite (frame_window_tail _ rt' _ h i n) by assumption. lia.
Qed.

(** The add-back on its own: what the pass does once [_long_sub] has
    reported a borrow. *)
Lemma mul_sub_add_borrow u temp i q1 temp' u1 borrow :
  in_base b u -> (i + n + 2 <= length u)%nat -> (S n <= length temp)%nat ->
  ((0 < i)%nat -> u !! 0%nat = Some 0) ->
  0 <= q1 <= b - 1 -> q1 <> 0 ->
  (q1 - 1) * V <= digits_val b (window u i (S n)) ->
  digits_val b (window u i (S n)) < (q1 + 1) * V ->
  arb_mul_core vf (Z.of_nat (length vpre)) (Z.of_nat n) q1 temp 0 b = Ok temp' ->
  _long_sub u (Z.of_nat n) (Z.of_nat i) temp' 0 (Z.of_nat n) b = Ok (u1, borrow) ->
  borrow <> 0 ->
  exists u2,
    _long_add u1 (Z.of_nat n) (Z.of_nat i) vf (Z.of_nat (length vpre))
              (Z.of_nat n - 1) b = Ok (u2, borrow)
    /\ mul_sub_add vf (Z.of_nat (length vpre)) (Z.of_nat n) u temp (Z.of_nat i) b q1
       = Ok (<[0%nat := 0]> u2, temp', to_UARBT (q1 - 1))
    /\ to_UARBT (q1 - 1) = q1 - 1
    /\ take (S i) u2 = take (S i) u1
    /\ drop (i + S n) u2 = drop (i + S n) u1
    /\ take i (<[0%nat := 0]> u2) = take i u
    /\ drop (i + S n) (<[0%nat := 0]> u2) = drop (i + S n) u
    /\ digits_val b (window (<[0%nat := 0]> u2) (S i) n)
       = digits_val b (window u i (S n)) - (q1 - 1) * V.
Proof.
  intros Hu Hlen Htemp Hu0 Hq Hq0 Hlo Hhi Hmul Hsub Hbor.
  pose proof divisor_bounds as (Hv0 & _ & _ & HVn).
  pose proof (Zpow_nat_pos b n ltac:(lia)) as HB.
  assert (Hwb : in_base b (window u i (S n))) by (apply window_in_base, Hu).
  pose proof (digits_val_bound b _ ltac:(lia) Hwb) as HWb.
  rewrite window_length in HWb by lia.
  set (W := digits_val b (window u i (S n))) in *.
  assert (Hpl : length (take i u) = i) by (rewrite length_take; lia).
  destruct (mul_sub_spec u temp i q1 Hu Hlen Htemp Hq)
    as (temp0 & rs & borrow0 & Hmul0 & Hsub0 & Htl & Hrl & Hrb & Hbor0 & Hval).
  rewrite Hmul in Hmul0. injection Hmul0 as <-.
  rewrite Hsub in Hsub0. injection Hsub0 as -> ->.
  assert (borrow0 = 1) by lia. subst borrow0.
  fold W in Hval. rewrite Zpow_nat_S in Hval, HWb.
  pose proof (digits_val_bound b rs ltac:(lia) Hrb) as Hrsv.
  rewrite Hrl, Zpow_nat_S in Hrsv.
  destruct rs as [|h rt]; [discriminate|].
  simpl in Hrl. injection Hrl as Hrt.
  set (B := b ^ Z.of_nat n) in *.
  assert (Hlt : W < q1 * V) by nia.
  destruct (add_back_spec (take i u) h rt (drop (i + S n) u) i q1 W)
    as (rt' & Hadd & Hl' & Hb' & Hv'); try assumption; try lia.
  { rewrite Hval, Zpow_nat_S. fold B. lia. }
  exists (take i u ++ (h :: rt') ++ drop (i + S n) u).
  split; [exact Hadd|].
  split.
  { unfold mul_sub_add. destruct (Z.eqb_spec q1 0) as [E|_]; [contradiction|].
    cbn [negb]. rewrite Hmul. cbn [bind]. rewrite Hsub. cbn [bind].
    change (1 =? 0) with false. cbv iota.
    rewrite Hadd. cbn [bind].
    change (negb (1 =? 0)) with true. cbv iota.
    rewrite store_0 by (rewrite !length_app, length_take; simpl length; lia).
    reflexivity. }
  split; [apply (to_UARBT_digit b); lia|].
  split.
  { replace (S i) with (length (take i u ++ [h]))
      by (rewrite length_app, Hpl; simpl; lia).
    change (take i u ++ (h :: rt') ++ drop (i + S n) u)
      with (take i u ++ [h] ++ rt' ++ drop (i + S n) u).
    change (take i u ++ (h :: rt) ++ drop (i + S n) u)
      with (take i u ++ [h] ++ rt ++ drop (i + S n) u).
    rewrite !(app_assoc (take i u) [h]), !take_app_length. reflexivity. }
  split.
  { rewrite !frame_drop by (simpl length; lia). reflexivity. }
  split.
  { destruct i as [|i']; [reflexivity|].
    rewrite take_insert_lt by lia.
    rewrite frame_take by assumption.
    apply list_insert_id. rewrite lookup_take_lt by lia. apply Hu0. lia. }
  split.
  { rewrite drop_insert_lt by lia. apply frame_drop. simpl length. lia. }
  unfold window. rewrite drop_insert_lt by lia.
  fold (window (take i u ++ (h :: rt') ++ drop (i + S n) u) (S i) n).
  rewrite (frame_window_tail _ rt' _ h i n) by assumption. lia.
Qed.

(** After a borrow the top cell of the window, the one that the add-back
    does not reach, holds [b - 1]. *)
Lemma borrow_top_cell u temp i q1 temp' u1 borrow :
  in_base b u -> (i + n + 2 <= length u)%nat -> (S n <= length temp)%nat ->
  0 <= q1 <= b - 1 ->
  (q1 - 1) * V <= digits_val b (window u i (S n)) ->
  arb_mul_core vf (Z.of_nat (length vpre)) (Z.of_nat n) q1 temp 0 b = Ok temp' ->
  _long_sub u (Z.of_nat n) (Z.of_nat i) temp' 0 (Z.of_nat n) b = Ok (u1, borrow) ->
  borrow <> 0 ->
  u1 !! i = Some (b - 1).
Proof.
  intros Hu Hlen Htemp Hq Hlo Hmul Hsub Hbor.
  pose proof divisor_bounds as (Hv0 & _ & _ & HVn).
  pose proof (Zpow_nat_pos b n ltac:(lia)) as HB.
  assert (Hpl : length (take i u) = i) by (rewrite length_take; lia).
  destruct (mul_sub_spec u temp i q1 Hu Hlen Htemp Hq)
    as (temp0 & rs & borrow0 & Hmul0 & Hsub0 & Htl & Hrl & Hrb & Hbor0 & Hval).
  rewrite Hmul in Hmul0. injection Hmul0 as <-.
  rewrite Hsub in Hsub0. injection Hsub0 as -> ->.
  assert (borrow0 = 1) by lia. subst borrow0.
  destruct rs as [|h rt]; [discriminate|].
  simpl in Hrl. injection Hrl as Hrt.
  apply Forall_cons in Hrb as [Hh Hrtb].
  pose proof (digits_val_bound b rt ltac:(lia) Hrtb) as Hrtv.
  rewrite digits_val_cons, Hrt, Zpow_nat_S in Hval. rewrite Hrt in Hrtv.
  set (B := b ^ Z.of_nat n) in *.
  set (W := digits_val b (window u i (S n))) in *.
  assert (Hh1 : h = b - 1) by nia.
  subst h. apply list_lookup_middle. symmetry. exact Hpl.
Qed.

End Digit.

(** * The quotient-digit loop *)

Lemma drop_succ_eq (l1 l2 : list Z) k :
  drop k l1 = drop k l2 -> drop (S k) l1 = drop (S k) l2.
Proof.
  intros H. replace (S k) with (k + 1)%nat by lia.
  rewrite <- !drop_drop, H. reflexivity.
Qed.

Lemma drop_eq_lookup (l1 l2 : list Z) k :
  drop k l1 = drop k l2 -> l1 !! k = l2 !! k.
Proof.
  intros H. apply (f_equal (fun l => l !! 0%nat)) in H.
  rewrite !lookup_drop, Nat.add_0_r in H. exact H.
Qed.

Lemma div_step_index p b st st' :
  div_step p b st = Ok st' -> s_i st' = s_i st + 1.
Proof.
  unfold div_step. intros H.
  destruct (trial_digit _ _ _ _ _); try discriminate. cbn [bind] in H.
  destruct (refine_digit _ _ _ _ _ _); try discriminate. cbn [bind] in H.
  destruct (mul_sub_add _ _ _ _ _ _ _ _) as [[[u temp] qg]| | |]; try discriminate.
  cbn [bind] in H.
  destruct (store _ _ _); try discriminate. cbn [bind] in H.
  injection H as <-. reflexivity.
Qed.

(** The loop of line 162 makes exactly [lea + scale - leb + 1] passes. *)
Lemma div_loop_iter p b scale r :
  forall fuel st,
    s_i st + Z.of_nat r = p_lea p + scale - p_leb p + 1 ->
    (r <= fuel)%nat ->
    div_loop fuel p b scale st = div_iter r p b st.
Proof.
  induction r as [|r IH]; intros fuel st Hi Hfuel.
  - destruct fuel; simpl;
      (destruct (Z.leb_spec (s_i st) (p_lea p + scale - p_leb p)); [lia|reflexivity]).
  - destruct fuel as [|fuel]; [lia|]. simpl.
    destruct (Z.leb_spec (s_i st) (p_lea p + scale - p_leb p)); [|lia].
    destruct (div_step p b st) as [st'| | |] eqn:E; try reflexivity.
    cbn [bind]. apply IH; [|lia].
    rewrite (div_step_index p b st st' E). lia.
Qed.

Section Loop.

Variables (b scale : Z) (p : prep) (vpre vs vpost u0 temp0 : list Z).
Variables (q0 : fxdpnt) (j0 m : nat).
Hypothesis Hb : 2 <= b <= UARBT_MOD.
Hypothesis Hvs : in_base b vs.
Hypothesis Hvn : (1 <= length vs)%nat.
Hypothesis Hnorm : b <= 2 * (vs !!! 0%nat) + 1.
Hypothesis Hvf : p_vf p = vpre ++ vs ++ 0 :: vpost.
Hypothesis Hv : p_v p = Z.of_nat (length vpre).
Hypothesis Hleb : p_leb p = Z.of_nat (length vs).
Hypothesis Hbound : p_lea p + scale - p_leb p = Z.of_nat m.
Hypothesis Hu0len : (m + length vs + 2 <= length u0)%nat.
Hypothesis Htemp : (S (length vs) <= length temp0)%nat.
Hypothesis Hq0len : (j0 + m < length (number q0))%nat.

Local Abbreviation Inv := (loop_inv b (length vs) (digits_val b vs) u0 temp0 q0 j0).

Lemma div_step_inv k st :
  (k <= m)%nat -> Inv k st ->
  exists st', div_step p b st = Ok st' /\ Inv (S k) st'.
Proof.
  intros Hk [Hi Hj Hul Hub Huh Hut Hrem Hquot Htl Hql Hqh Hqt Hqb Hqlp Hqlen].
  pose proof (divisor_lead b vpre vs vpost Hvs Hvn Hnorm) as [Lv0 Lv1].
  pose proof (divisor_bounds b vs Hb Hvs Hvn Hnorm) as (Hv0 & Hv1 & HVlo & HVhi).
  assert (Hlen : (k + length vs + 2 <= length (s_u st))%nat) by lia.
  destruct (digit_bounds b vs Hb Hvs Hvn Hnorm (s_u st) k Hub Hlen ltac:(lia))
    as (G & R1 & R2 & R3).
  pose proof (in_base_lookup_total b (s_u st) k Hub ltac:(lia)) as Hu0.
  pose proof (in_base_lookup_total b (s_u st) (S k) Hub ltac:(lia)) as Hu1.
  pose proof (in_base_lookup_total b (s_u st) (S (S k)) Hub ltac:(lia)) as Hu2.
  pose proof (lookup_total_Some (s_u st) k ltac:(lia)) as Lu0.
  pose proof (lookup_total_Some (s_u st) (S k) ltac:(lia)) as Lu1.
  pose proof (lookup_total_Some (s_u st) (S (S k)) ltac:(lia)) as Lu2.
  set (q1 := refine b (vs !!! 0%nat) ((vs ++ [0]) !!! 1%nat)
                    (s_u st !!! k) (s_u st !!! S k) (s_u st !!! S (S k))
                    (guess b (vs !!! 0%nat) (s_u st !!! k) (s_u st !!! S k))) in *.
  destruct (mul_sub_add_spec b vpre vs vpost Hb Hvs Hvn Hnorm (s_u st) (s_temp st)
              k q1 Hub Hlen ltac:(lia) Huh R1 R2 R3)
    as (u' & temp' & qd & Hmsa & Hqd & Hqv & Hul' & Hub' & Htl' & Huh' & Hut1 & Hut2 & Hrem').
  assert (Hjlen : (j0 + k < length (number (s_q st)))%nat) by lia.
  unfold div_step. rewrite Hvf, Hv, Hleb, Hi, Hj.
  rewrite (trial_digit_spec _ _ (s_u st) _ b (length vpre) k (vs !!! 0%nat)
             (s_u st !!! k) (s_u st !!! S k)); try assumption; try reflexivity; try lia.
  cbn [bind].
  rewrite (refine_digit_spec _ _ (s_u st) _ b _ (length vpre) k (vs !!! 0%nat)
             ((vs ++ [0]) !!! 1%nat)
             (s_u st !!! k) (s_u st !!! S k) (s_u st !!! S (S k)));
    try assumption; try reflexivity; try lia.
  cbn [bind]. fold q1. rewrite Hmsa. cbn [bind].
  rewrite store_nat by exact Hjlen. cbn [bind].
  eexists. split; [reflexivity|].
  (* the cell of the dividend that enters the window *)
  assert (Lx : u0 !! (k + length vs)%nat = Some (s_u st !!! (k + length vs)%nat)).
  { rewrite <- (drop_eq_lookup _ _ _ Hut). apply lookup_total_Some. lia. }
  pose proof (in_base_lookup_total b (s_u st) (k + length vs) Hub ltac:(lia)) as Hx.
  assert (HW : digits_val b (window (s_u st) k (S (length vs)))
               = digits_val b (window (s_u st) k (length vs)) * b
                 + s_u st !!! (k + length vs)%nat).
  { rewrite (window_snoc _ k (length vs) (s_u st !!! (k + length vs)%nat))
      by (apply lookup_total_Some; lia).
    apply digits_val_snoc. }
  assert (Hqw : window (<[(j0 + k)%nat := qd]> (number (s_q st))) j0 (S k)
                = window (number (s_q st)) j0 k ++ [qd]).
  { rewrite (window_snoc _ j0 k qd) by (apply list_lookup_insert_eq; lia).
    rewrite window_insert_outside by lia. reflexivity. }
  constructor; cbn [s_i s_j s_u s_temp s_q number lp len].
  - lia.
  - lia.
  - lia.
  - exact Hub'.
  - intros _. exact Huh'.
  - replace (S k + length vs)%nat with (S (k + length vs)) by lia.
    replace (k + S (length vs))%nat with (S (k + length vs)) in Hut2 by lia.
    rewrite Hut2. apply drop_succ_eq, Hut.
  - lia.
  - replace (S k + length vs)%nat with (S (k + length vs)) by lia.
    rewrite (take_S_r u0 _ _ Lx), digits_val_snoc, Hquot.
    rewrite Hqw, digits_val_snoc, Hrem', HW. ring.
  - lia.
  - rewrite length_insert. exact Hql.
  - rewrite take_insert_ge by lia. exact Hqh.
  - rewrite drop_insert_lt by lia.
    replace (j0 + S k)%nat with (S (j0 + k)) by lia.
    apply drop_succ_eq, Hqt.
  - rewrite Hqw. apply in_base_app. split; [exact Hqb|].
    constructor; [lia|constructor].
  - exact Hqlp.
  - exact Hqlen.
Qed.

Lemma div_iter_inv r :
  forall k st,
    (k + r <= S m)%nat -> Inv k st ->
    exists st', div_iter r p b st = Ok st' /\ Inv (k + r) st'.
Proof.
  induction r as [|r IH]; intros k st Hk HI.
  - exists st. rewrite Nat.add_0_r. split; [reflexivity|exact HI].
  - destruct (div_step_inv k st ltac:(lia) HI) as (st1 & Hstep & HI1).
    destruct (IH (S k) st1 ltac:(lia) HI1) as (st' & Hrun & HI').
    exists st'. simpl. rewrite Hstep. cbn [bind].
    replace (k + S r)%nat with (S k + r)%nat by lia.
    split; assumption.
Qed.

Lemma div_loop_inv st0 :
  s_i st0 = 0 -> Inv 0%nat st0 ->
  exists st',
    div_loop (Z.to_nat (p_lea p + scale - p_leb p + 1)) p b scale st0 = Ok st'
    /\ div_iter (S m) p b st0 = Ok st'
    /\ Inv (S m) st'.
Proof.
  intros Hi HI.
  destruct (div_iter_inv (S m) 0 st0 ltac:(lia) HI) as (st' & Hrun & HI').
  exists st'. split; [|split; [exact Hrun|exact HI']].
  rewrite (div_loop_iter p b scale (S m)); [exact Hrun| |]; lia.
Qed.

End Loop.

(** * Operand preparation *)

Lemma nonzero_decompose (l : list Z) :
  forallb (fun d => d =? 0) l = false ->
  exists z x rest, l = replicate z 0 ++ x :: rest /\ x <> 0.
Proof.
  induction l as [|d l IH]; [discriminate|].
  simpl. destruct (Z.eqb_spec d 0) as [->|Hd]; simpl.
  - intros H. destruct (IH H) as (z & x & rest & -> & Hx).
    exists (S z), x, rest. split; [reflexivity|exact Hx].
  - intros _. exists 0%nat, d, l. split; [reflexivity|exact Hd].
Qed.

Lemma skip_zeros_spec z :
  forall pre x rest fuel leb,
    x <> 0 -> (z <= fuel)%nat ->
    skip_zeros fuel (pre ++ replicate z 0 ++ x :: rest) (Z.of_nat (length pre)) leb
    = Ok (Z.of_nat (length pre + z), leb - Z.of_nat z).
Proof.
  induction z as [|z IH]; intros pre x rest fuel leb Hx Hfuel.
  - simpl replicate. simpl app.
    destruct fuel; simpl; rewrite load_middle by reflexivity; cbn [bind];
      (destruct (Z.eqb_spec x 0); [contradiction|]);
      rewrite Nat.add_0_r, Z.sub_0_r; reflexivity.
  - destruct fuel as [|fuel]; [lia|].
    simpl replicate. simpl app. simpl skip_zeros.
    rewrite load_middle by reflexivity. cbn [bind].
    change (0 =? 0) with true. cbv iota.
    replace (pre ++ 0 :: replicate z 0 ++ x :: rest)
      with ((pre ++ [0]) ++ replicate z 0 ++ x :: rest)
      by (rewrite <- app_assoc; reflexivity).
    replace (Z.of_nat (length pre) + 1) with (Z.of_nat (length (pre ++ [0])))
      by (rewrite length_app; simpl; lia).
    rewrite IH by (assumption || lia).
    rewrite length_app. simpl length. f_equal. f_equal; lia.
Qed.

Lemma digits_length b a :
  wf_number b a -> length (digits a) = Z.to_nat (len a).
Proof.
  intros (Hlp & Hlen & _). unfold digits. rewrite length_take. lia.
Qed.

Lemma load_range_digits b a :
  wf_number b a -> load_range (number a) 0 (len a) = Ok (digits a).
Proof.
  intros (Hlp & Hlen & _). unfold load_range, in_range.
  destruct (Z.leb_spec 0 0); [|lia].
  destruct (Z.leb_spec 0 (len a)); [|lia].
  destruct (Z.leb_spec (0 + len a) (Z.of_nat (length (number a)))); [|lia].
  reflexivity.
Qed.

Lemma copy_dividend b num offset :
  wf_number b num -> 0 <= offset ->
  _arb_copy_core (arb_calloc (len num + offset + 3)) 1 (number num) 0 (len num)
  = Ok (0 :: digits num ++ replicate (Z.to_nat offset + 2) 0).
Proof.
  intros Hwf Hoff. pose proof (digits_length b num Hwf) as Hdl.
  unfold _arb_copy_core. rewrite (load_range_digits b) by exact Hwf.
  destruct Hwf as (Hlp & Hlen & Hb).
  cbn [bind]. unfold store_range, in_range, arb_calloc.
  rewrite length_replicate, Hdl.
  destruct (Z.leb_spec 0 1); [|lia].
  destruct (Z.leb_spec 0 (Z.of_nat (Z.to_nat (len num)))); [|lia].
  destruct (Z.leb_spec (1 + Z.of_nat (Z.to_nat (len num)))
              (Z.of_nat (Z.to_nat (len num + offset + 3)))); [|lia].
  cbn [andb]. f_equal. unfold splice.
  rewrite take_replicate, drop_replicate, Hdl.
  replace (Z.to_nat 1 `min` Z.to_nat (len num + offset + 3))%nat with 1%nat by lia.
  replace (Z.to_nat (len num + offset + 3) - (Z.to_nat 1 + Z.to_nat (len num)))%nat
    with (Z.to_nat offset + 2)%nat by lia.
  reflexivity.
Qed.

Lemma copy_divisor b den offset :
  wf_number b den -> 0 <= offset ->
  _arb_copy_core (arb_calloc (len den + offset + 3)) 0 (number den) 0 (len den)
  = Ok (digits den ++ replicate (Z.to_nat offset + 3) 0).
Proof.
  intros Hwf Hoff. pose proof (digits_length b den Hwf) as Hdl.
  unfold _arb_copy_core. rewrite (load_range_digits b) by exact Hwf.
  destruct Hwf as (Hlp & Hlen & Hb).
  cbn [bind]. unfold store_range, in_range, arb_calloc.
  rewrite length_replicate, Hdl.
  destruct (Z.leb_spec 0 0); [|lia].
  destruct (Z.leb_spec 0 (Z.of_nat (Z.to_nat (len den)))); [|lia].
  destruct (Z.leb_spec (0 + Z.of_nat (Z.to_nat (len den)))
              (Z.of_nat (Z.to_nat (len den + offset + 3)))); [|lia].
  cbn [andb]. f_equal. unfold splice.
  rewrite take_replicate, drop_replicate, Hdl.
  replace (Z.to_nat 0 `min` Z.to_nat (len den + offset + 3))%nat with 0%nat by lia.
  replace (Z.to_nat (len den + offset + 3) - (Z.to_nat 0 + Z.to_nat (len den)))%nat
    with (Z.to_nat offset + 3)%nat by lia.
  reflexivity.
Qed.

Lemma iszero_nonzero a :
  iszero a <> 0 -> forallb (fun d => d =? 0) (digits a) = false.
Proof.
  unfold iszero. destruct (forallb _ _); [intros H; contradiction H; reflexivity|reflexivity].
Qed.

(** The frame that lines 121-149 build from well-formed operands and a
    non-zero divisor whose digits start with [z] zeros. *)
Lemma div_prepare_spec b num den q scale :
  wf_number b num -> wf_number b den -> iszero den <> 0 -> 0 <= scale ->
  exists z x rest,
    digits den = replicate z 0 ++ x :: rest /\ x <> 0
    /\ div_prepare num den q b scale
       = Ok (let lea := rl num + rr den in
             let uscal := rr num - rr den in
             let offset := if uscal <? scale then scale - uscal else 0 in
             let leb := len den - Z.of_nat z in
             let quodig :=
               if leb >? lea + scale then scale + 1
               else if negb (leb >? lea) then lea - leb + scale + 1
               else scale + 1 in
             mk_prep (0 :: digits num ++ replicate (Z.to_nat offset + 2) 0)
                     (digits den ++ replicate (Z.to_nat offset + 3) 0)
                     (Z.of_nat z) (arb_malloc (len den + 1))
                     (mk_fxdpnt (number q) (quodig - scale) (quodig - scale + scale))
                     lea leb uscal offset quodig (leb >? lea + scale)).
Proof.
  intros Hnum Hden Hnz Hscale.
  destruct (nonzero_decompose _ (iszero_nonzero den Hnz)) as (z & x & rest & Hdd & Hx).
  exists z, x, rest. split; [exact Hdd|]. split; [exact Hx|].
  unfold div_prepare.
  destruct (Z.eqb_spec (iszero den) 0) as [E|_]; [contradiction|].
  cbn [bind].
  set (uscal := rr num - rr den).
  set (offset := if uscal <? scale then scale - uscal else 0).
  assert (Hoff : 0 <= offset).
  { unfold offset. destruct (Z.ltb_spec uscal scale); lia. }
  rewrite (copy_dividend b) by assumption. cbn [bind].
  rewrite (copy_divisor b) by assumption. cbn [bind].
  rewrite Hdd.
  rewrite <- (app_assoc (replicate z 0)). 
  change (replicate z 0 ++ (x :: rest) ++ replicate (Z.to_nat offset + 3) 0)
    with ([] ++ replicate z 0 ++ x :: (rest ++ replicate (Z.to_nat offset + 3) 0)).
  change 0 with (Z.of_nat (length (@nil Z))) at 3.
  rewrite skip_zeros_spec.
  - cbn [bind]. reflexivity.
  - exact Hx.
  - simpl app. rewrite !length_app, length_replicate. lia.
Qed.

(** * Normalization *)

Lemma digits_val_take b l k :
  0 < b -> in_base b l -> (k <= length l)%nat ->
  digits_val b (take k l) = digits_val b l / b ^ Z.of_nat (length l - k).
Proof.
  intros Hb Hl Hk.
  rewrite <- (take_drop k l) at 2.
  rewrite digits_val_app, length_drop.
  pose proof (digits_val_bound b (drop k l) Hb ltac:(apply Forall_drop, Hl)) as Hd.
  rewrite length_drop in Hd.
  pose proof (Zpow_nat_pos b (length l - k) Hb).
  apply Z.div_unique with (r := digits_val b (drop k l)); [lia|ring].
Qed.

Lemma lead_digit_lower b l c :
  0 < b -> in_base b l -> (1 <= length l)%nat ->
  c * b ^ Z.of_nat (length l - 1) <= digits_val b l ->
  c <= l !!! 0%nat.
Proof.
  intros Hb Hl Hn Hc.
  destruct l as [|h t]; [simpl in Hn; lia|].
  apply Forall_cons in Hl as [Hh Ht].
  pose proof (digits_val_bound b t Hb Ht) as Htv.
  rewrite digits_val_cons in Hc. simpl length in Hc.
  replace (S (length t) - 1)%nat with (length t) in Hc by lia.
  pose proof (Zpow_nat_pos b (length t) Hb).
  change ((h :: t) !!! 0%nat) with h. nia.
Qed.

Lemma div_norm_spec b p vpre x rest vpost :
  2 <= b <= UARBT_MOD -> 1 <= x < b ->
  p_vf p = vpre ++ (x :: rest) ++ vpost -> p_v p = Z.of_nat (length vpre) ->
  div_norm b p = Ok (b / (x + 1)).
Proof.
  intros Hb Hx Hvf Hv. unfold div_norm. rewrite Hvf, Hv.
  simpl app. rewrite load_middle by reflexivity. cbn [bind].
  rewrite c_div_nonneg by lia. cbn [bind].
  pose proof (norm_leading b x ltac:(lia) Hx) as (H1 & H2 & _).
  rewrite (to_UARBT_digit b) by lia. reflexivity.
Qed.

(** Lines 154-157 multiply the dividend window and the divisor by [norm];
    afterwards the divisor leads with a digit of at least [b / 2]. *)
Lemma div_normalize_spec b p ws' upost vpre x rest vpost :
  2 <= b <= UARBT_MOD ->
  p_u p = (0 :: ws') ++ upost -> in_base b ws' ->
  p_lea p + p_uscal p + p_offset p + 1 = Z.of_nat (S (length ws')) ->
  p_vf p = vpre ++ (x :: rest) ++ vpost -> in_base b (x :: rest) -> x <> 0 ->
  p_v p = Z.of_nat (length vpre) ->
  p_leb p = Z.of_nat (S (length rest)) ->
  exists rs vs',
    div_normalize b p
    = Ok (mk_prep (rs ++ upost) (vpre ++ vs' ++ vpost) (p_v p) (p_temp p) (p_q p)
                  (p_lea p) (p_leb p) (p_uscal p) (p_offset p) (p_quodig p)
                  (p_out_of_scale p))
    /\ length rs = S (length ws') /\ in_base b rs
    /\ digits_val b rs = digits_val b ws' * (b / (x + 1))
    /\ length vs' = S (length rest) /\ in_base b vs'
    /\ digits_val b vs' = digits_val b (x :: rest) * (b / (x + 1))
    /\ b <= 2 * (vs' !!! 0%nat) + 1
    /\ (b / (x + 1) <> 1 ->
        shmul (p_u p) 0 (p_lea p + p_uscal p + p_offset p + 1) (b / (x + 1)) 0 b
        = Ok (rs ++ upost)
        /\ shmul (p_vf p) (p_v p) (p_leb p) (b / (x + 1)) (p_v p) b
           = Ok (vpre ++ vs' ++ vpost)).
Proof.
  intros Hb Hu Hws Hsize Hvf Hvs Hx0 Hv Hleb.
  pose proof Hvs as Hvs'. apply Forall_cons in Hvs' as [Hx Hrest].
  assert (Hx1 : 1 <= x < b) by lia.
  pose proof (norm_leading b x ltac:(lia) Hx1) as (Hn1 & Hn2 & Hn3 & Hn4).
  pose proof (digits_val_bound b ws' ltac:(lia) Hws) as Hwv.
  pose proof (digits_val_bound b rest ltac:(lia) Hrest) as Hrv.
  pose proof (Zpow_nat_pos b (length ws') ltac:(lia)) as HBw.
  pose proof (Zpow_nat_pos b (length rest) ltac:(lia)) as HBr.
  assert (Hlead : b <= 2 * (x * (b / (x + 1))) + 1) by exact Hn3.
  unfold div_normalize.
  rewrite (div_norm_spec b p vpre x rest vpost Hb Hx1 Hvf Hv). cbn [bind].
  set (norm := b / (x + 1)) in *.
  destruct (Z.eqb_spec norm 1) as [E|E]; cbn [negb].
  - (* nothing to multiply *)
    exists (0 :: ws'), (x :: rest). rewrite <- Hu, <- Hvf.
    split; [destruct p; reflexivity|].
    rewrite E, !Z.mul_1_r.
    split; [reflexivity|]. split; [constructor; [lia|assumption]|].
    split; [rewrite digits_val_cons; lia|].
    split; [reflexivity|]. split; [assumption|]. split; [reflexivity|].
    split; [change ((x :: rest) !!! 0%nat) with x; lia|].
    intros Hne. contradiction.
  - destruct (shmul_in_place b norm [] (0 :: ws') upost)
      as (rs & Hmu & Hrl & Hrb & Hrv'); try lia.
    { constructor; [lia|assumption]. }
    { rewrite digits_val_cons. simpl length. rewrite Zpow_nat_S. nia. }
    destruct (shmul_in_place b norm vpre (x :: rest) vpost)
      as (vs' & Hmv & Hvl & Hvb & Hvv); try lia; try assumption.
    { rewrite digits_val_cons. simpl length. rewrite Zpow_nat_S. nia. }
    simpl length in Hmu, Hmv. simpl app in Hmu.
    change (Z.of_nat 0) with 0 in Hmu.
    assert (Hmu' : shmul (p_u p) 0 (p_lea p + p_uscal p + p_offset p + 1) norm 0 b
                   = Ok (rs ++ upost)).
    { rewrite Hu, Hsize. simpl app. exact Hmu. }
    assert (Hmv' : shmul (p_vf p) (p_v p) (p_leb p) norm (p_v p) b
                   = Ok (vpre ++ vs' ++ vpost)).
    { rewrite Hvf, Hv, Hleb. exact Hmv. }
    rewrite Hmu'. cbn [bind]. rewrite Hmv'. cbn [bind].
    exists rs, vs'. split; [reflexivity|].
    simpl length in *.
    split; [assumption|]. split; [assumption|].
    split; [rewrite Hrv', digits_val_cons; lia|].
    split; [assumption|]. split; [assumption|]. split; [assumption|].
    assert (x * norm <= vs' !!! 0%nat).
    { apply (lead_digit_lower b); try assumption; try lia.
      rewrite Hvl, Hvv, digits_val_cons.
      replace (S (length rest) - 1)%nat with (length rest) by lia. nia. }
    split; [lia|]. intros _. split; first [assumption | reflexivity].
Qed.

(** * Finalization *)

Lemma arb_malloc_length n : length (arb_malloc n) = Z.to_nat n.
Proof.
  unfold arb_malloc. rewrite length_take, length_app, length_replicate. lia.
Qed.

Lemma digits_val_zero_cons b l : digits_val b (0 :: l) = digits_val b l.
Proof. rewrite digits_val_cons. lia. Qed.

Lemma digits_val_zeros_app b z l :
  digits_val b (replicate z 0 ++ l) = digits_val b l.
Proof.
  rewrite digits_val_app, digits_val_replicate_0. lia.
Qed.

Lemma strip_zeros_spec b fuel :
  forall q, wf_number b q ->
    wf_number b (strip_zeros fuel q)
    /\ digits_val b (digits (strip_zeros fuel q)) = digits_val b (digits q)
    /\ len (strip_zeros fuel q) - lp (strip_zeros fuel q) = len q - lp q
    /\ ((Z.to_nat (lp q) <= fuel)%nat ->
        lp (strip_zeros fuel q) = 0
        \/ exists d rest, number (strip_zeros fuel q) = d :: rest /\ d <> 0).
Proof.
  induction fuel as [|fuel IH]; intros q Hwf; pose proof Hwf as (Hlp & Hlen & Hb).
  - simpl. split; [exact Hwf|]. split; [reflexivity|]. split; [reflexivity|].
    intros H. left. lia.
  - simpl. destruct (number q) as [|d rest] eqn:En.
    + simpl in Hlen.
      split; [exact Hwf|]. split; [reflexivity|]. split; [reflexivity|].
      intros _. left. lia.
    + destruct (Z.ltb_spec 0 (lp q)) as [Hpos|Hnp]; cbn [andb].
      2:{ split; [exact Hwf|]. split; [reflexivity|]. split; [reflexivity|].
          intros _. left. lia. }
      destruct (Z.eqb_spec d 0) as [->|Hd].
      2:{ split; [exact Hwf|]. split; [reflexivity|]. split; [reflexivity|].
          intros _. right. exists d, rest. split; [exact En|exact Hd]. }
      simpl length in Hlen.
      assert (Hdig : digits q = 0 :: take (Z.to_nat (len q - 1)) rest).
      { unfold digits. rewrite En.
        replace (Z.to_nat (len q)) with (S (Z.to_nat (len q - 1))) by lia.
        reflexivity. }
      rewrite Hdig in Hb. apply Forall_cons in Hb as [_ Hb].
      destruct (IH (mk_fxdpnt rest (lp q - 1) (len q - 1))) as (W1 & W2 & W3 & W4).
      { unfold wf_number, digits. cbn [number lp len].
        split; [lia|]. split; [lia|exact Hb]. }
      cbn [number lp len] in *.
      split; [exact W1|].
      split; [rewrite W2, Hdig, digits_val_zero_cons; reflexivity|].
      split; [lia|].
      intros Hf. apply W4. lia.
Qed.

Lemma remove_leading_zeros_spec b q :
  wf_number b q ->
  wf_number b (remove_leading_zeros q)
  /\ digits_val b (digits (remove_leading_zeros q)) = digits_val b (digits q)
  /\ len (remove_leading_zeros q) - lp (remove_leading_zeros q) = len q - lp q
  /\ (lp (remove_leading_zeros q) = 0
      \/ exists d rest, number (remove_leading_zeros q) = d :: rest /\ d <> 0).
Proof.
  intros Hwf. unfold remove_leading_zeros.
  destruct (strip_zeros_spec b (Z.to_nat (lp q)) q Hwf) as (W1 & W2 & W3 & W4).
  split; [exact W1|]. split; [exact W2|]. split; [exact W3|]. apply W4. lia.
Qed.

(** * The value of the quotient *)

Lemma quotient_scaling b Nint Dint norm off e rrN rrD scale :
  0 < b -> 0 <= Nint -> 0 < Dint -> 0 < norm ->
  0 <= off -> 0 <= e -> 0 <= rrN -> 0 <= rrD -> 0 <= scale ->
  off - e = scale - (rrN - rrD) ->
  (Nint * b ^ off * norm) / b ^ e / (Dint * norm)
  = (Nint * b ^ (rrD + scale)) / (Dint * b ^ rrN).
Proof.
  intros Hb HN HD Hn Hoff He HrN HrD Hs Heq.
  assert (0 < b ^ e) by (apply Z.pow_pos_nonneg; lia).
  assert (0 < b ^ rrN) by (apply Z.pow_pos_nonneg; lia).
  rewrite Z.div_div by lia.
  replace (Nint * b ^ off * norm) with ((Nint * b ^ off) * norm) by ring.
  replace (b ^ e * (Dint * norm)) with ((b ^ e * Dint) * norm) by ring.
  rewrite Z.div_mul_cancel_r by lia.
  rewrite <- (Z.div_mul_cancel_r (Nint * b ^ off) (b ^ e * Dint) (b ^ rrN)) by lia.
  rewrite <- (Z.div_mul_cancel_r (Nint * b ^ (rrD + scale)) (Dint * b ^ rrN) (b ^ e))
    by lia.
  f_equal.
  - rewrite <- !Z.mul_assoc, <- !Z.pow_add_r by lia. f_equal. f_equal. lia.
  - ring.
Qed.

(** The quotient that the loop leaves in [q], before the leading zeros are
    removed. *)
Lemma loop_quotient b n V rs upost temp0 q0 j0 m st N scale :
  0 < b -> 0 < V -> in_base b rs -> (S m + n <= length rs)%nat ->
  loop_inv b n V (rs ++ upost) temp0 q0 j0 (S m) st ->
  number q0 = replicate N 0 -> (j0 + m < N)%nat ->
  lp q0 = Z.of_nat (j0 + S m) - scale -> len q0 = lp q0 + scale ->
  0 <= scale <= Z.of_nat (j0 + m) ->
  wf_number b (s_q st)
  /\ len (s_q st) - lp (s_q st) = scale
  /\ digits_val b (digits (s_q st))
     = digits_val b rs / b ^ Z.of_nat (length rs - (S m + n)) / V.
Proof.
  intros Hb HV Hrs Hlen [Hi Hj Hul Hub Huh Hut Hrem Hquot Htl Hql Hqh Hqt Hqb Hqlp Hqlen]
         Hq0 HN Hlp0 Hlen0 Hscale.
  rewrite Hq0, length_replicate in Hql.
  assert (Hdig : digits (s_q st)
                 = replicate j0 0 ++ window (number (s_q st)) j0 (S m)).
  { unfold digits. rewrite Hqlen, Hlen0, Hlp0.
    replace (Z.to_nat (Z.of_nat (j0 + S m) - scale + scale)) with (j0 + S m)%nat by lia.
    unfold window. rewrite <- take_take_drop. f_equal.
    rewrite Hqh, Hq0, take_replicate. f_equal. lia. }
  split; [|split].
  - unfold wf_number. rewrite Hdig, Hqlp, Hqlen, Hlen0, Hlp0, Hql.
    split; [lia|]. split; [lia|].
    apply in_base_app. split; [apply in_base_replicate_0; lia|exact Hqb].
  - rewrite Hqlp, Hqlen, Hlen0. lia.
  - rewrite Hdig, digits_val_zeros_app.
    rewrite take_app_le in Hquot by lia.
    rewrite (digits_val_take b rs) in Hquot by (assumption || lia).
    apply Z.div_unique with (r := digits_val b (window (s_u st) (S m) n)); [lia|].
    rewrite Hquot. ring.
Qed.

(** The state on entry to the loop satisfies the invariant. *)
Lemma loop_entry_inv b p rs upost vs norm (w : nat) j0 :
  2 <= b -> in_base b rs -> in_base b upost -> in_base b vs ->
  (1 <= length vs <= length rs)%nat ->
  length rs = S w ->
  0 <= digits_val b rs < b ^ Z.of_nat w * norm ->
  norm * b ^ Z.of_nat (length vs - 1) <= digits_val b vs ->
  p_u p = rs ++ upost ->
  (if p_leb p >? p_lea p then p_leb p - p_lea p else 0) = Z.of_nat j0 ->
  loop_inv b (length vs) (digits_val b vs) (rs ++ upost) (p_temp p) (p_q p) j0
           0%nat (loop_entry p).
Proof.
  intros Hb Hrs Hup Hvs Hn Hrl Hrv HV Hu Hj.
  unfold loop_entry. rewrite Hj, Hu.
  assert (Hw : window (rs ++ upost) 0 (length vs) = take (length vs) rs).
  { unfold window. rewrite drop_0. apply take_app_le. lia. }
  assert (Htv : 0 <= digits_val b (take (length vs) rs) < digits_val b vs).
  { rewrite (digits_val_take b rs) by (assumption || lia).
    pose proof (Zpow_nat_pos b (length rs - length vs) ltac:(lia)) as HB.
    pose proof (Zpow_nat_pos b (length vs - 1) ltac:(lia)) as HB1.
    split; [apply Z.div_pos; lia|].
    apply Z.div_lt_upper_bound; [lia|].
    assert (E : b ^ Z.of_nat w
                = b ^ Z.of_nat (length rs - length vs) * b ^ Z.of_nat (length vs - 1)).
    { rewrite <- Z.pow_add_r by lia. f_equal. lia. }
    rewrite E in Hrv. nia. }
  constructor; cbn [s_i s_j s_u s_temp s_q].
  - reflexivity.
  - lia.
  - reflexivity.
  - apply in_base_app. split; assumption.
  - intros H. lia.
  - reflexivity.
  - rewrite Hw. exact Htv.
  - rewrite Hw. simpl. rewrite take_app_le by lia.
    change (window (number (p_q p)) j0 0) with (@nil Z).
    rewrite digits_val_nil. lia.
  - reflexivity.
  - reflexivity.
  - reflexivity.
  - reflexivity.
  - constructor.
  - reflexivity.
  - reflexivity.
Qed.

(** * The frame of a division *)

Lemma prepared b num den q scale :
  0 < b -> wf_number b num -> wf_number b den -> iszero den <> 0 -> 0 <= scale ->
  exists p0 ws vpre x rest vpost,
    div_prepare num den q b scale = Ok p0
    /\ prepared_ok b scale num den q p0 ws vpre x rest vpost.
Proof.
  intros Hb Hnum Hden Hnz Hscale.
  destruct (div_prepare_spec b num den q scale Hnum Hden Hnz Hscale)
    as (z & x & rest & Hdd & Hx & Hprep).
  pose proof (digits_length b num Hnum) as Hnl.
  pose proof (digits_length b den Hden) as Hdl.
  pose proof Hnum as (Hnlp & Hnlen & Hnb).
  pose proof Hden as (Hdlp & Hdlen & Hdb).
  rewrite Hdd, length_app, length_replicate in Hdl. simpl length in Hdl.
  set (uscal := rr num - rr den) in *.
  set (offset := if uscal <? scale then scale - uscal else 0) in *.
  assert (Hoff : 0 <= offset).
  { unfold offset. destruct (Z.ltb_spec uscal scale); lia. }
  eexists. exists (digits num ++ replicate (Z.to_nat offset) 0), (replicate z 0),
             x, rest, (replicate (Z.to_nat offset + 2) 0).
  split; [exact Hprep|]. cbv zeta.
  constructor; cbn [p_u p_vf p_v p_temp p_q p_lea p_leb p_uscal p_offset p_quodig
                        p_out_of_scale]; fold offset.
  - simpl. f_equal. rewrite <- app_assoc. f_equal.
    rewrite replicate_add. reflexivity.
  - apply in_base_app. split; [exact Hnb|apply in_base_replicate_0; exact Hb].
  - rewrite length_app, length_replicate. unfold rl, rr in *.
    unfold uscal in *. lia.
  - rewrite Hdd, <- app_assoc. f_equal. f_equal.
    replace (Z.to_nat offset + 3)%nat with (S (Z.to_nat offset + 2)) by lia.
    reflexivity.
  - rewrite Hdd in Hdb. apply in_base_app in Hdb as [_ Hdb]. exact Hdb.
  - exact Hx.
  - rewrite length_replicate. reflexivity.
  - lia.
  - rewrite digits_val_app, digits_val_replicate_0, length_replicate.
    rewrite Z2Nat.id by lia. lia.
  - rewrite Hdd, digits_val_zeros_app. reflexivity.
  - reflexivity.
  - reflexivity.
  - reflexivity.
  - rewrite length_app, length_replicate. lia.
  - rewrite length_replicate. lia.
  - exact Hdd.
  - rewrite length_replicate. reflexivity.
  - rewrite arb_malloc_length, length_replicate. lia.
  - reflexivity.
  - reflexivity.
  - reflexivity.
Qed.

Lemma engine_frame b scale num den q N p0 ws vpre x rest vpost :
  2 <= b <= UARBT_MOD -> wf_number b num -> wf_number b den -> 0 <= scale ->
  prepared_ok b scale num den q p0 ws vpre x rest vpost ->
  number q = replicate N 0 -> len num + len den + scale <= Z.of_nat N ->
  p_out_of_scale p0 = false ->
  exists p vs rs j0 m,
    div_normalize b p0 = Ok p
    /\ frame_ok b scale num den q p vpre vs vpost rs j0 m (b / (x + 1))
    /\ p_lea p = p_lea p0 /\ p_leb p = p_leb p0.
Proof.
  intros Hb Hnum Hden Hscale
         [Hu Hwsb Hsize Hvf Hvsb Hx Hv Hleb Hwsv Hvsv Hlea Huscal Hoffset Hwsl Hdl
             Hdd Hvpre Htemp Hoos Hquodig Hq]
         HqN HN Hnoos.
  destruct (div_normalize_spec b p0 ws [0; 0] vpre x rest (0 :: vpost)
              Hb Hu Hwsb Hsize Hvf Hvsb Hx Hv Hleb)
    as (rs & vs & Hnorm & Hrl & Hrb & Hrv & Hvl & Hvb & Hvv & Hlead & _).
  pose proof Hvsb as Hvsb'. apply Forall_cons in Hvsb' as [Hxb _].
  pose proof (norm_leading b x ltac:(lia) ltac:(lia)) as (Hn1 & Hn2 & _).
  set (norm := b / (x + 1)) in *.
  pose proof Hnum as (Hnlp & Hnlen & Hnb).
  pose proof Hden as (Hdlp & Hdlen & Hdb).
  rewrite Hoos in Hnoos.
  assert (Hle : p_leb p0 <= p_lea p0 + scale).
  { destruct (Z.gtb_spec (p_leb p0) (p_lea p0 + scale)); [discriminate|lia]. }
  assert (Hoff : 0 <= p_offset p0 /\ scale - p_uscal p0 <= p_offset p0).
  { rewrite Hoffset. destruct (Z.ltb_spec (p_uscal p0) scale); lia. }
  assert (Hqd : p_quodig p0
                = (if p_leb p0 >? p_lea p0 then p_leb p0 - p_lea p0 else 0)
                  + (p_lea p0 + scale - p_leb p0) + 1).
  { rewrite Hquodig, Hoos, Hnoos.
    destruct (Z.gtb_spec (p_leb p0) (p_lea p0)); cbn [negb]; lia. }
  assert (Hj : 0 <= (if p_leb p0 >? p_lea p0 then p_leb p0 - p_lea p0 else 0)).
  { destruct (Z.gtb_spec (p_leb p0) (p_lea p0)); lia. }
  assert (Hjm : (if p_leb p0 >? p_lea p0 then p_leb p0 - p_lea p0 else 0)
                + (p_lea p0 + scale - p_leb p0) >= scale).
  { destruct (Z.gtb_spec (p_leb p0) (p_lea p0)); lia. }
  unfold rl, rr in *.
  assert (Hjub : (if p_leb p0 >? p_lea p0 then p_leb p0 - p_lea p0 else 0)
                 + (p_lea p0 + scale - p_leb p0) + 1 <= len num + len den + scale).
  { destruct (Z.gtb_spec (p_leb p0) (p_lea p0)); lia. }
  pose proof (digits_val_bound b ws ltac:(lia) Hwsb) as Hwb.
  pose proof (digits_val_bound b rest ltac:(lia)
                ltac:(apply Forall_cons in Hvsb as [_ Hr]; exact Hr)) as Hrestb.
  pose proof (Zpow_nat_pos b (length ws) ltac:(lia)) as HBw.
  pose proof (Zpow_nat_pos b (length rest) ltac:(lia)) as HBr.
  unfold rl, rr in *.
  eexists. exists vs, rs,
    (Z.to_nat (if p_leb p0 >? p_lea p0 then p_leb p0 - p_lea p0 else 0)),
    (Z.to_nat (p_lea p0 + scale - p_leb p0)).
  split; [exact Hnorm|].
  split; [|split; reflexivity].
  constructor; cbn [p_u p_vf p_v p_temp p_q p_lea p_leb p_uscal p_offset p_quodig
                        p_out_of_scale].
  - exact Hvb.
  - lia.
  - exact Hlead.
  - reflexivity.
  - exact Hv.
  - lia.
  - lia.
  - reflexivity.
  - exact Hrb.
  - lia.
  - lia.
  - rewrite Hq. cbn [number]. rewrite HqN, length_replicate. lia.
  - match goal with
    | |- loop_inv _ _ _ _ _ _ _ _ (loop_entry ?p) =>
      apply (loop_entry_inv b p rs [0; 0] vs norm (length ws))
    end; try assumption; cbn [p_u p_leb p_lea]; try lia.
    + repeat constructor; lia.
    + rewrite Hrv. nia.
    + rewrite Hvv, Hvl, digits_val_cons.
      replace (S (length rest) - 1)%nat with (length rest) by lia. nia.
    + reflexivity.
  - lia.
  - rewrite Hvv, Hvsv. reflexivity.
  - rewrite Hrv, Hwsv. reflexivity.
  - lia.
  - unfold rr. lia.
  - rewrite Hq. reflexivity.
  - rewrite Hq. cbn [lp]. lia.
  - rewrite Hq. reflexivity.
  - lia.
Qed.

Lemma divisor_value_pos b x rest :
  0 < b -> in_base b (x :: rest) -> x <> 0 ->
  b ^ Z.of_nat (length rest) <= digits_val b (x :: rest).
Proof.
  intros Hb Hv Hx. apply Forall_cons in Hv as [Hxb Hr].
  pose proof (digits_val_bound b rest Hb Hr).
  pose proof (Zpow_nat_pos b (length rest) Hb).
  rewrite digits_val_cons. nia.
Qed.

(** A divisor longer than [lea + scale] digits makes the quotient vanish at
    the requested scale. *)
Lemma out_of_scale_zero b scale num den q p0 ws vpre x rest vpost :
  0 < b -> wf_number b num -> wf_number b den -> 0 <= scale ->
  prepared_ok b scale num den q p0 ws vpre x rest vpost ->
  p_out_of_scale p0 = true ->
  quotient_value b num den scale = 0.
Proof.
  intros Hb Hnum Hden Hscale
         [Hu Hwsb Hsize Hvf Hvsb Hx Hv Hleb Hwsv Hvsv Hlea Huscal Hoffset Hwsl Hdl
             Hdd Hvpre Htemp Hoos Hquodig Hq] Ht.
  rewrite Hoos in Ht. apply Z.gtb_lt in Ht.
  pose proof Hnum as (Hnlp & Hnlen & Hnb).
  pose proof Hden as (Hdlp & Hdlen & Hdb).
  pose proof (digits_val_bound b _ Hb Hnb) as HN.
  rewrite (digits_length b num Hnum) in HN.
  pose proof (divisor_value_pos b x rest Hb Hvsb Hx) as HD.
  rewrite Hvsv in HD.
  unfold quotient_value, rl, rr in *.
  apply Z.div_small.
  assert (0 < b ^ (len den - lp den + scale)) by (apply Z.pow_pos_nonneg; lia).
  assert (0 < b ^ (len num - lp num)) by (apply Z.pow_pos_nonneg; lia).
  split; [nia|].
  rewrite Z2Nat.id in HN by lia.
  assert (E1 : b ^ len num * b ^ (len den - lp den + scale)
               = b ^ (lp num + (len den - lp den) + scale) * b ^ (len num - lp num)).
  { rewrite <- !Z.pow_add_r by lia. f_equal. lia. }
  assert (E2 : b ^ (lp num + (len den - lp den) + scale) <= b ^ Z.of_nat (length rest)).
  { apply Z.pow_le_mono_r; lia. }
  nia.
Qed.

(** The quotient [arb_div_inter] computes, before its leading zeros are
    removed. *)
Lemma arb_div_inter_spec b num den q scale N :
  2 <= b <= UARBT_MOD -> wf_number b num -> wf_number b den ->
  iszero den <> 0 -> 0 <= scale ->
  number q = replicate N 0 -> len num + len den + scale <= Z.of_nat N ->
  exists x,
    arb_div_inter num den q b scale = Ok (remove_leading_zeros x)
    /\ wf_number b x /\ len x - lp x = scale
    /\ digits_val b (digits x) = quotient_value b num den scale.
Proof.
  intros Hb Hnum Hden Hnz Hscale HqN HN.
  destruct (prepared b num den q scale ltac:(lia) Hnum Hden Hnz Hscale)
    as (p0 & ws & vpre & x & rest & vpost & Hprep & Hpo).
  unfold arb_div_inter. rewrite Hprep. cbn [bind].
  destruct (p_out_of_scale p0) eqn:Eoos.
  - exists (p_q p0). split; [reflexivity|].
    pose proof (out_of_scale_zero b scale num den q p0 ws vpre x rest vpost
                  ltac:(lia) Hnum Hden Hscale Hpo Eoos) as Hz.
    destruct Hpo as [_ _ _ _ _ _ _ _ _ _ _ _ _ _ Hdl _ _ _ _ Hquodig Hq].
    rewrite Eoos in Hquodig. rewrite Hq, Hquodig.
    pose proof Hnum as (Hnlp & Hnlen & Hnb).
    assert (Hdig : digits (mk_fxdpnt (number q) (scale + 1 - scale)
                                     (scale + 1 - scale + scale))
                   = replicate (Z.to_nat (scale + 1)) 0).
    { unfold digits. cbn [number len]. rewrite HqN, take_replicate.
      f_equal. lia. }
    split; [|split].
    + unfold wf_number. rewrite Hdig. cbn [number lp len].
      rewrite HqN, length_replicate.
      split; [lia|]. split; [lia|]. apply in_base_replicate_0. lia.
    + cbn [lp len]. lia.
    + rewrite Hdig, digits_val_replicate_0, Hz. reflexivity.
  - destruct (engine_frame b scale num den q N p0 ws vpre x rest vpost
                Hb Hnum Hden Hscale Hpo HqN HN Eoos)
      as (p & vs & rs & j0 & m & Hnorm & Hfo & _ & _).
    rewrite Hnorm. cbn [bind].
    pose proof Hfo as [F1 F2 F3 F4 F5 F6 F7 F8 F9 F10 F11 F12 F13 F14 F15 F16 F17 F18
                          F19 F20 F21 F22].
    destruct (div_loop_inv b scale p vpre vs vpost (rs ++ [0; 0]) (p_temp p) (p_q p)
                j0 m Hb F1 F2 F3 F4 F5 F6 F7
                ltac:(rewrite length_app; simpl length; lia) F11 F12
                (loop_entry p) eq_refl F13)
      as (st' & Hloop & _ & HI).
    rewrite Hloop. cbn [bind].
    exists (s_q st'). split; [reflexivity|].
    pose proof (divisor_value_pos b x rest ltac:(lia) (po_vs_base _ _ _ _ _ _ _ _ _ _ _ Hpo)
                  (po_x _ _ _ _ _ _ _ _ _ _ _ Hpo)) as HD.
    rewrite (po_vs_val _ _ _ _ _ _ _ _ _ _ _ Hpo) in HD.
    pose proof (Zpow_nat_pos b (length rest) ltac:(lia)) as HBr.
    destruct (loop_quotient b (length vs) (digits_val b vs) rs [0; 0] (p_temp p) (p_q p)
                j0 m st' N scale) as (W1 & W2 & W3); try assumption; try lia.
    { rewrite F15. nia. }
    { rewrite F19. exact HqN. }
    { rewrite F19, HqN, length_replicate in F12. exact F12. }
    split; [exact W1|]. split; [exact W2|].
    rewrite W3, F15, F16.
    pose proof Hnum as (Hnlp & Hnlen & Hnb).
    pose proof Hden as (Hdlp & Hdlen & Hdb).
    pose proof (digits_val_bound b _ ltac:(lia) Hnb) as HNb.
    unfold quotient_value.
    apply quotient_scaling; unfold rr; try lia.
    unfold rr in F18. exact F18.
Qed.

(** * The properties of the specification *)

(** C10: the ranged subtract and the ranged add are inverse on their
    window.  For a buffer [pre ++ ws ++ post] whose window [ws] ends at
    index [u + i] and a digit sequence [vs] of [k + 1] digits, all digits in
    [[0, b)], [_long_sub] followed by [_long_add] on the same window gives
    the buffer back digit for digit, the carry out of the add is the borrow
    out of the subtract, and neither touches [pre] or [post]. *)
Theorem long_sub_add_inverse b pre ws post vpre vs vpost u i v k :
  0 < b <= UARBT_MOD ->
  in_base b ws -> in_base b vs -> length ws = length vs ->
  k = Z.of_nat (length ws) - 1 ->
  u + i = Z.of_nat (length pre) + Z.of_nat (length ws) - 1 ->
  v + k = Z.of_nat (length vpre) + Z.of_nat (length vs) - 1 ->
  exists rs borrow,
    _long_sub (pre ++ ws ++ post) u i (vpre ++ vs ++ vpost) v k b
    = Ok (pre ++ rs ++ post, borrow)
    /\ length rs = length ws
    /\ _long_add (pre ++ rs ++ post) u i (vpre ++ vs ++ vpost) v k b
       = Ok (pre ++ ws ++ post, borrow).
Proof.
  intros Hb Hws Hvs Hlen Hk Hu Hv.
  destruct (long_sub_spec b pre ws post vpre vs vpost u i v k)
    as (rs & borrow & Hsub & Hrl & Hrb & Hbor & Hval); try assumption.
  destruct (long_add_spec b pre rs post vpre vs vpost u i v k)
    as (rs' & carry & Hadd & Hrl' & Hrb' & Hcar & Hval'); try assumption; try lia.
  exists rs, borrow. split; [exact Hsub|]. split; [exact Hrl|].
  pose proof (digits_val_bound b ws ltac:(lia) Hws) as B1.
  pose proof (digits_val_bound b rs' ltac:(lia) Hrb') as B2.
  rewrite Hrl', Hrl in B2. rewrite Hrl in Hval'.
  pose proof (Zpow_nat_pos b (length ws) ltac:(lia)) as HB.
  assert (carry = borrow) by nia. subst carry.
  assert (rs' = ws).
  { apply (digits_val_inj b); try assumption; try lia. }
  subst rs'. exact Hadd.
Qed.

(** C9: [shmul] is the single-digit multiply of the specification.  On a
    memory that holds the source window at [num] and the destination window
    at [result] (the same window, or two that do not overlap), with digits
    and multiplier in [[0, b)], it zero-fills the destination for the digit
    0, copies the source for the digit 1, and otherwise stores
    [value mod b] and carries [value / b] from the least significant digit
    up, putting a final nonzero carry into the cell left of the destination
    and faulting when there is no such cell.
    The base is one whose square fits an [int], where the product of line
    63 is exact. *)
Theorem shmul_refines_scale m (num size result : nat) d b :
  0 < b <= UARBT_MOD -> b * b <= INT_MAX ->
  0 <= d < b ->
  in_base b (window m num size) ->
  (num + size <= length m)%nat -> (result + size <= length m)%nat ->
  (num = result \/ num + size <= result \/ result + size <= num)%nat ->
  shmul m (Z.of_nat num) (Z.of_nat size) d (Z.of_nat result) b
  = scale m num size d result b
  /\ (d = 0 -> scale m num size d result b
               = Ok (splice m result (replicate size 0)))
  /\ (d = 1 -> scale m num size d result b
               = Ok (splice m result (window m num size)))
  /\ digits_val b (scale_digits b d (window m num size)).1
     + (scale_digits b d (window m num size)).2 * b ^ Z.of_nat size
     = digits_val b (window m num size) * d.
Proof.
  intros Hb Hint Hd Hsrc Hnum Hres Hsep.
  split; [apply shmul_scale; assumption|].
  pose proof (window_length m num size Hnum) as Hwl.
  split; [|split].
  - intros ->. unfold scale, scale_digits. simpl. rewrite Hwl. reflexivity.
  - intros ->. unfold scale, scale_digits. simpl. reflexivity.
  - pose proof (scale_digits_spec b d _ ltac:(lia) Hd Hsrc) as (_ & _ & _ & Hv).
    rewrite Hwl in Hv. exact Hv.
Qed.

Lemma arb_div_spec b num den c scale :
  2 <= b <= UARBT_MOD -> wf_number b num -> wf_number b den ->
  iszero den <> 0 -> 0 <= scale ->
  exists q,
    arb_div num den c b scale = Ok q
    /\ wf_number b q /\ len q - lp q = scale
    /\ (lp q = 0 \/ exists d rest, number q = d :: rest /\ d <> 0)
    /\ digits_val b (digits q) = quotient_value b num den scale.
Proof.
  intros Hb Hnum Hden Hnz Hscale.
  pose proof Hnum as (Hnlp & Hnlen & _). pose proof Hden as (Hdlp & Hdlen & _).
  unfold arb_div.
  destruct (arb_div_inter_spec b num den (arb_expand (len num + len den + scale))
              scale (Z.to_nat (len num + len den + scale)))
    as (x & Hrun & Hwf & Hsc & Hval); try assumption; try reflexivity; try lia.
  destruct (remove_leading_zeros_spec b x Hwf) as (W1 & W2 & W3 & W4).
  exists (remove_leading_zeros x).
  split; [exact Hrun|]. split; [exact W1|]. split; [lia|].
  split; [exact W4|]. rewrite W2. exact Hval.
Qed.

Lemma quotient_value_bounds b num den scale :
  0 < b -> wf_number b num -> wf_number b den -> iszero den <> 0 ->
  quotient_value b num den scale * (digits_val b (digits den) * b ^ rr num)
  <= digits_val b (digits num) * b ^ (rr den + scale)
  < (quotient_value b num den scale + 1) * (digits_val b (digits den) * b ^ rr num).
Proof.
  intros Hb Hnum Hden Hnz.
  pose proof Hnum as (Hnlp & _ & _).
  destruct (nonzero_decompose _ (iszero_nonzero den Hnz)) as (z & x & rest & Hdd & Hx).
  pose proof Hden as (_ & _ & Hdb).
  rewrite Hdd in Hdb. apply in_base_app in Hdb as [_ Hdb].
  pose proof (divisor_value_pos b x rest Hb Hdb Hx) as HD.
  rewrite <- (digits_val_zeros_app b z), <- Hdd in HD.
  pose proof (Zpow_nat_pos b (length rest) Hb).
  assert (HP : 0 < b ^ rr num) by (apply Z.pow_pos_nonneg; unfold rr; lia).
  unfold quotient_value.
  set (A := digits_val b (digits num) * b ^ (rr den + scale)).
  set (B := digits_val b (digits den) * b ^ rr num).
  assert (0 < B) by nia.
  pose proof (Z.mul_div_le A B ltac:(lia)).
  pose proof (Z.mul_succ_div_gt A B ltac:(lia)).
  lia.
Qed.

(** C1: the reconstruction identity.  With [N = digits num / b^(rr num)],
    [D = digits den / b^(rr den)] and the quotient [q = digits q / b^scale],
    the identity [q * D + r = N] with a remainder [0 <= r < D * b^(-scale)]
    reads, multiplied through by [b^(rr num + rr den + scale)], as below:
    the quotient has [scale] fractional digits and is [N / D] truncated,
    not rounded, to them.
    The base is one whose cube fits an [int], where the products of lines
    164-167 are exact. *)
Theorem arb_div_reconstruction b num den c scale :
  2 <= b <= UARBT_MOD -> b * b * b <= INT_MAX ->
  wf_number b num -> wf_number b den ->
  iszero den <> 0 -> 0 <= scale ->
  exists q,
    arb_div num den c b scale = Ok q
    /\ len q - lp q = scale
    /\ exists r,
         digits_val b (digits q) * (digits_val b (digits den) * b ^ rr num) + r
         = digits_val b (digits num) * b ^ (rr den + scale)
         /\ 0 <= r < digits_val b (digits den) * b ^ rr num.
Proof.
  intros Hb Hint Hnum Hden Hnz Hscale.
  destruct (arb_div_spec b num den c scale Hb Hnum Hden Hnz Hscale)
    as (q & Hrun & _ & Hsc & _ & Hval).
  pose proof (quotient_value_bounds b num den scale ltac:(lia) Hnum Hden Hnz) as HB.
  exists q. split; [exact Hrun|]. split; [exact Hsc|].
  rewrite Hval.
  exists (digits_val b (digits num) * b ^ (rr den + scale)
          - quotient_value b num den scale
            * (digits_val b (digits den) * b ^ rr num)).
  split; lia.
Qed.

(** C8: the quotient satisfies the invariant of numbers: its digits lie in
    [[0, b)], its integer-part count lies between 0 and its length, and no
    zero digit is left at the head of its integer part.
    The base is one whose cube fits an [int], where the products of lines
    164-167 are exact. *)
Theorem arb_div_invariant b num den c scale :
  2 <= b <= UARBT_MOD -> b * b * b <= INT_MAX ->
  wf_number b num -> wf_number b den ->
  iszero den <> 0 -> 0 <= scale ->
  exists q,
    arb_div num den c b scale = Ok q
    /\ in_base b (digits q)
    /\ 0 <= lp q <= len q
    /\ len q = Z.of_nat (length (digits q))
    /\ (lp q = 0 \/ exists d rest, digits q = d :: rest /\ d <> 0).
Proof.
  intros Hb Hint Hnum Hden Hnz Hscale.
  destruct (arb_div_spec b num den c scale Hb Hnum Hden Hnz Hscale)
    as (q & Hrun & Hwf & _ & Hhead & _).
  pose proof (digits_length b q Hwf) as Hdl.
  destruct Hwf as (Hlp & Hlen & Hqb).
  exists q. split; [exact Hrun|]. split; [exact Hqb|]. split; [exact Hlp|].
  split; [lia|].
  destruct Hhead as [H0|(d & rest & Hn & Hd)]; [left; exact H0|].
  destruct (Z.eq_dec (lp q) 0) as [E|E]; [left; exact E|].
  right. exists d, (take (Z.to_nat (len q - 1)) rest).
  split; [|exact Hd].
  unfold digits. rewrite Hn.
  replace (Z.to_nat (len q)) with (S (Z.to_nat (len q - 1))) by lia.
  reflexivity.
Qed.

(** The frame and the state of a division that has made [k] passes through
    the loop. *)
Lemma pass_state b num den scale p0 p k st :
  2 <= b <= UARBT_MOD -> wf_number b num -> wf_number b den ->
  iszero den <> 0 -> 0 <= scale ->
  div_prepare num den (arb_expand (len num + len den + scale)) b scale = Ok p0 ->
  p_out_of_scale p0 = false ->
  div_normalize b p0 = Ok p ->
  Z.of_nat k <= p_lea p + scale - p_leb p + 1 ->
  div_iter k p b (loop_entry p) = Ok st ->
  exists ws vpre x rest vpost vs rs j0 m,
    prepared_ok b scale num den (arb_expand (len num + len den + scale)) p0
                ws vpre x rest vpost
    /\ frame_ok b scale num den (arb_expand (len num + len den + scale)) p
                vpre vs vpost rs j0 m (b / (x + 1))
    /\ loop_inv b (length vs) (digits_val b vs) (rs ++ [0; 0]) (p_temp p) (p_q p)
                j0 k st.
Proof.
  intros Hb Hnum Hden Hnz Hscale Hprep Hoos Hnorm Hk Hrun.
  pose proof Hnum as (Hnlp & Hnlen & _). pose proof Hden as (Hdlp & Hdlen & _).
  destruct (prepared b num den (arb_expand (len num + len den + scale)) scale
              ltac:(lia) Hnum Hden Hnz Hscale)
    as (p0' & ws & vpre & x & rest & vpost & Hprep' & Hpo).
  rewrite Hprep in Hprep'. injection Hprep' as <-.
  destruct (engine_frame b scale num den (arb_expand (len num + len den + scale))
              (Z.to_nat (len num + len den + scale)) p0 ws vpre x rest vpost
              Hb Hnum Hden Hscale Hpo eq_refl ltac:(lia) Hoos)
    as (p' & vs & rs & j0 & m & Hnorm' & Hfo & _ & _).
  rewrite Hnorm in Hnorm'. injection Hnorm' as <-.
  exists ws, vpre, x, rest, vpost, vs, rs, j0, m.
  split; [exact Hpo|]. split; [exact Hfo|].
  pose proof Hfo as [F1 F2 F3 F4 F5 F6 F7 F8 F9 F10 F11 F12 F13 F14 F15 F16 F17 F18
                        F19 F20 F21 F22].
  destruct (div_iter_inv b p vpre vs vpost (rs ++ [0; 0]) (p_temp p) (p_q p) j0 m
              Hb F1 F2 F3 F4 F5 F6
              ltac:(rewrite length_app; simpl length; lia) F11 F12
              k 0%nat (loop_entry p) ltac:(lia) F13)
    as (st' & Hrun' & HI).
  rewrite Hrun in Hrun'. injection Hrun' as <-. exact HI.
Qed.

Lemma window_prefix (ws post : list Z) : window (ws ++ post) 0 (length ws) = ws.
Proof. apply (window_app [] ws post). Qed.

(** C5 as the code has it: normalization.  In a division that reaches the
    loop the factor is [norm = b / (v0 + 1)] for the leading digit [v0] of
    the stripped divisor; when [norm <> 1] the dividend window and the
    divisor are both multiplied by it through [shmul], when [norm = 1]
    nothing is touched; either way both values are [norm] times what they
    were, and the divisor then leads with a digit of at least [b / 2] in
    integer division, the floor of half the base (at an odd base the digit
    can be less than half the base).
    The base is one whose square fits an [int], where the product of line
    63 is exact. *)
Theorem normalization_step b num den q scale p0 :
  2 <= b <= UARBT_MOD -> b * b <= INT_MAX ->
  wf_number b num -> wf_number b den ->
  iszero den <> 0 -> 0 <= scale ->
  div_prepare num den q b scale = Ok p0 ->
  p_out_of_scale p0 = false ->
  exists v0 p v0',
    load (p_vf p0) (p_v p0) = Ok v0
    /\ div_norm b p0 = Ok (b / (v0 + 1))
    /\ div_normalize b p0 = Ok p
    /\ (b / (v0 + 1) <> 1 ->
        shmul (p_u p0) 0 (p_lea p0 + p_uscal p0 + p_offset p0 + 1) (b / (v0 + 1)) 0 b
        = Ok (p_u p)
        /\ shmul (p_vf p0) (p_v p0) (p_leb p0) (b / (v0 + 1)) (p_v p0) b
           = Ok (p_vf p))
    /\ (b / (v0 + 1) = 1 -> p = p0)
    /\ digits_val b (window (p_u p) 0
                            (Z.to_nat (p_lea p0 + p_uscal p0 + p_offset p0 + 1)))
       = digits_val b (window (p_u p0) 0
                              (Z.to_nat (p_lea p0 + p_uscal p0 + p_offset p0 + 1)))
         * (b / (v0 + 1))
    /\ digits_val b (window (p_vf p) (Z.to_nat (p_v p0)) (Z.to_nat (p_leb p0)))
       = digits_val b (window (p_vf p0) (Z.to_nat (p_v p0)) (Z.to_nat (p_leb p0)))
         * (b / (v0 + 1))
    /\ load (p_vf p) (p_v p) = Ok v0'
    /\ b / 2 <= v0'.
Proof.
  intros Hb Hint Hnum Hden Hnz Hscale Hprep Hoos.
  destruct (prepared b num den q scale ltac:(lia) Hnum Hden Hnz Hscale)
    as (p0' & ws & vpre & x & rest & vpost & Hprep' & Hpo).
  rewrite Hprep in Hprep'. injection Hprep' as <-.
  destruct Hpo as [Hu Hwsb Hsize Hvf Hvsb Hx Hv Hleb Hwsv Hvsv Hlea Huscal Hoffset Hwsl
                      Hdl Hdd Hvpre Htemp Hoos' Hquodig Hq].
  destruct (div_normalize_spec b p0 ws [0; 0] vpre x rest (0 :: vpost)
              Hb Hu Hwsb Hsize Hvf Hvsb Hx Hv Hleb)
    as (rs & vs & Hnorm & Hrl & Hrb & Hrv & Hvl & Hvb & Hvv & Hlead & Hshmul).
  pose proof Hvsb as Hvsb'. apply Forall_cons in Hvsb' as [Hxb _].
  assert (Hx1 : 1 <= x < b) by lia.
  eexists x, _, (vs !!! 0%nat).
  split.
  { rewrite Hvf, Hv. simpl app. apply load_middle. reflexivity. }
  split; [apply (div_norm_spec b p0 vpre x rest (0 :: vpost)); assumption|].
  split; [exact Hnorm|].
  cbn [p_u p_vf p_v].
  split; [exact Hshmul|].
  split.
  { intros E. pose proof Hnorm as Hn'. unfold div_normalize in Hn'.
    rewrite (div_norm_spec b p0 vpre x rest (0 :: vpost) Hb Hx1 Hvf Hv) in Hn'.
    cbn [bind] in Hn'. rewrite E in Hn'. simpl in Hn'.
    injection Hn' as Hn'. symmetry. exact Hn'. }
  rewrite Hsize, Hv, Hleb, !Nat2Z.id.
  split.
  { rewrite Hu.
    replace (S (length ws)) with (length (0 :: ws)) by reflexivity.
    rewrite <- Hrl at 1.
    rewrite (window_prefix rs [0; 0]), (window_prefix (0 :: ws) [0; 0]).
    rewrite Hrv, digits_val_zero_cons. reflexivity. }
  split.
  { rewrite Hvf.
    replace (S (length rest)) with (length (x :: rest)) by reflexivity.
    rewrite <- Hvl at 1.
    rewrite (window_app vpre vs (0 :: vpost)), (window_app vpre (x :: rest) (0 :: vpost)).
    exact Hvv. }
  split.
  { destruct vs as [|h t]; [discriminate|].
    simpl app. apply load_middle. reflexivity. }
  pose proof (Z.div_mod b 2 ltac:(lia)). pose proof (Z.mod_pos_bound b 2 ltac:(lia)).
  lia.
Qed.

(** C6: the trial digit and its refinement.  At the start of pass [k] of
    the loop the trial digit is [b - 1] when [u[i] = v[0]] and
    [(u[i] * b + u[i+1]) / v[0]] otherwise; the refinement lowers it by at
    most two; and the refined digit is the true quotient digit [W / V], for
    the dividend window [W = u[i..i+leb]] and the divisor [V], or one more.
    The base is one whose cube fits an [int], where the products of lines
    164-167 are exact. *)
Theorem trial_digit_refinement b num den scale p0 p k st :
  2 <= b <= UARBT_MOD -> b * b * b <= INT_MAX ->
  wf_number b num -> wf_number b den ->
  iszero den <> 0 -> 0 <= scale ->
  div_prepare num den (arb_expand (len num + len den + scale)) b scale = Ok p0 ->
  p_out_of_scale p0 = false ->
  div_normalize b p0 = Ok p ->
  Z.of_nat k <= p_lea p + scale - p_leb p ->
  div_iter k p b (loop_entry p) = Ok st ->
  exists ui ui1 ui2 v0 v1 q1,
    s_i st = Z.of_nat k
    /\ load (s_u st) (s_i st) = Ok ui
    /\ load (s_u st) (s_i st + 1) = Ok ui1
    /\ load (s_u st) (s_i st + 2) = Ok ui2
    /\ load (p_vf p) (p_v p) = Ok v0
    /\ load (p_vf p) (p_v p + 1) = Ok v1
    /\ trial_digit (p_vf p) (p_v p) (s_u st) (s_i st) b
       = Ok (if v0 =? ui then b - 1 else (ui * b + ui1) / v0)
    /\ refine_digit (p_vf p) (p_v p) (s_u st) (s_i st) b
                    (if v0 =? ui then b - 1 else (ui * b + ui1) / v0)
       = Ok q1
    /\ (if v0 =? ui then b - 1 else (ui * b + ui1) / v0) - 2 <= q1
    /\ q1 <= (if v0 =? ui then b - 1 else (ui * b + ui1) / v0)
    /\ digits_val b (window (s_u st) k (S (Z.to_nat (p_leb p))))
       / digits_val b (window (p_vf p) (Z.to_nat (p_v p)) (Z.to_nat (p_leb p)))
       <= q1
    /\ q1 <= digits_val b (window (s_u st) k (S (Z.to_nat (p_leb p))))
             / digits_val b (window (p_vf p) (Z.to_nat (p_v p)) (Z.to_nat (p_leb p)))
             + 1.
Proof.
  intros Hb Hint Hnum Hden Hnz Hscale Hprep Hoos Hnorm Hk Hrun.
  destruct (pass_state b num den scale p0 p k st Hb Hnum Hden Hnz Hscale Hprep Hoos
              Hnorm ltac:(lia) Hrun)
    as (ws & vpre & x & rest & vpost & vs & rs & j0 & m & _ & Hfo & HI).
  destruct Hfo as [F1 F2 F3 F4 F5 F6 F7 F8 F9 F10 F11 F12 F13 F14 F15 F16 F17 F18
                      F19 F20 F21 F22].
  destruct HI as [Hi Hj Hul Hub Huh Hut Hrem Hquot Htl Hql Hqh Hqt Hqb Hqlp Hqlen].
  rewrite length_app in Hul. simpl length in Hul.
  pose proof (divisor_lead b vpre vs vpost F1 F2 F3) as [Lv0 Lv1].
  pose proof (divisor_bounds b vs Hb F1 F2 F3) as (Hv0 & Hv1 & HVlo & HVhi).
  assert (Hlen : (k + length vs + 2 <= length (s_u st))%nat) by lia.
  destruct (digit_bounds b vs Hb F1 F2 F3 (s_u st) k Hub Hlen ltac:(lia))
    as (G & R1 & R2 & R3).
  pose proof (in_base_lookup_total b (s_u st) k Hub ltac:(lia)) as Hu0.
  pose proof (in_base_lookup_total b (s_u st) (S k) Hub ltac:(lia)) as Hu1.
  pose proof (in_base_lookup_total b (s_u st) (S (S k)) Hub ltac:(lia)) as Hu2.
  pose proof (lookup_total_Some (s_u st) k ltac:(lia)) as Lu0.
  pose proof (lookup_total_Some (s_u st) (S k) ltac:(lia)) as Lu1.
  pose proof (lookup_total_Some (s_u st) (S (S k)) ltac:(lia)) as Lu2.
  exists (s_u st !!! k), (s_u st !!! S k), (s_u st !!! S (S k)),
    (vs !!! 0%nat), ((vs ++ [0]) !!! 1%nat).
  eexists.
  rewrite F4, F5, F6, Hi, Nat2Z.id, Nat2Z.id, window_app.
  fold (guess b (vs !!! 0%nat) (s_u st !!! k) (s_u st !!! S k)).
  split; [reflexivity|].
  split; [apply (load_at _ _ k); [lia|exact Lu0]|].
  split; [apply (load_at _ _ (S k)); [lia|exact Lu1]|].
  split; [apply (load_at _ _ (S (S k))); [lia|exact Lu2]|].
  split; [apply (load_at _ _ (length vpre)); [lia|exact Lv0]|].
  split; [apply (load_at _ _ (S (length vpre))); [lia|exact Lv1]|].
  split.
  { apply (trial_digit_spec _ _ _ _ b (length vpre) k); try assumption;
      try reflexivity; try lia. }
  split.
  { apply (refine_digit_spec _ _ _ _ b _ (length vpre) k (vs !!! 0%nat)
             ((vs ++ [0]) !!! 1%nat)
             (s_u st !!! k) (s_u st !!! S k) (s_u st !!! S (S k)));
      try assumption; try reflexivity; try lia. }
  pose proof (refine_decrements b (vs !!! 0%nat) ((vs ++ [0]) !!! 1%nat)
                (s_u st !!! k) (s_u st !!! S k) (s_u st !!! S (S k))
                (guess b (vs !!! 0%nat) (s_u st !!! k) (s_u st !!! S k))) as Hdec.
  set (q1 := refine b (vs !!! 0%nat) ((vs ++ [0]) !!! 1%nat)
                    (s_u st !!! k) (s_u st !!! S k) (s_u st !!! S (S k))
                    (guess b (vs !!! 0%nat) (s_u st !!! k) (s_u st !!! S k))) in *.
  split; [lia|]. split; [lia|].
  assert (HV : 0 < digits_val b vs).
  { pose proof (Zpow_nat_pos b (length vs - 1) ltac:(lia)). nia. }
  split.
  - apply Z.lt_succ_r. apply Z.div_lt_upper_bound; lia.
  - assert (q1 - 1 <= digits_val b (window (s_u st) k (S (length vs)))
                      / digits_val b vs); [|lia].
    apply Z.div_le_lower_bound; lia.
Qed.

(** C7 as the code has it: the add-back.  In a pass whose
    multiply-and-subtract borrows, the subtract has gone over the
    [leb + 1] cells [u[i..i+leb]] and left [b - 1] in the top cell [u[i]].
    The divisor is then added back into the [leb] low cells
    [u[i+1..i+leb]] only; the carry out of those cells is the borrow of the
    subtract; it is not added to the top cell, which stays at [b - 1]
    unless it is [u[0]], which the code resets to 0; the digit kept is the
    refined digit less one; the cells left of the window are as they were
    before the pass, and the low cells hold the remainder.
    The base is one whose cube fits an [int], where the products of lines
    164-167 are exact. *)
Theorem add_back_cancels_borrow b num den scale p0 p k st qt q1 temp' u1 borrow :
  2 <= b <= UARBT_MOD -> b * b * b <= INT_MAX ->
  wf_number b num -> wf_number b den ->
  iszero den <> 0 -> 0 <= scale ->
  div_prepare num den (arb_expand (len num + len den + scale)) b scale = Ok p0 ->
  p_out_of_scale p0 = false ->
  div_normalize b p0 = Ok p ->
  Z.of_nat k <= p_lea p + scale - p_leb p ->
  div_iter k p b (loop_entry p) = Ok st ->
  trial_digit (p_vf p) (p_v p) (s_u st) (s_i st) b = Ok qt ->
  refine_digit (p_vf p) (p_v p) (s_u st) (s_i st) b qt = Ok q1 ->
  q1 <> 0 ->
  arb_mul_core (p_vf p) (p_v p) (p_leb p) q1 (s_temp st) 0 b = Ok temp' ->
  _long_sub (s_u st) (p_leb p) (s_i st) temp' 0 (p_leb p) b = Ok (u1, borrow) ->
  borrow <> 0 ->
  exists u2,
    _long_add u1 (p_leb p) (s_i st) (p_vf p) (p_v p) (p_leb p - 1) b
    = Ok (u2, borrow)
    /\ mul_sub_add (p_vf p) (p_v p) (p_leb p) (s_u st) (s_temp st) (s_i st) b q1
       = Ok (<[0%nat := 0]> u2, temp', q1 - 1)
    /\ u1 !! k = Some (b - 1)
    /\ u2 !! k = Some (b - 1)
    /\ (<[0%nat := 0]> u2) !! k = Some (if (k =? 0)%nat then 0 else b - 1)
    /\ take (S k) u2 = take (S k) u1
    /\ drop (k + S (Z.to_nat (p_leb p))) u2 = drop (k + S (Z.to_nat (p_leb p))) u1
    /\ take k (<[0%nat := 0]> u2) = take k (s_u st)
    /\ drop (k + S (Z.to_nat (p_leb p))) (<[0%nat := 0]> u2)
       = drop (k + S (Z.to_nat (p_leb p))) (s_u st)
    /\ digits_val b (window (<[0%nat := 0]> u2) (S k) (Z.to_nat (p_leb p)))
       = digits_val b (window (s_u st) k (S (Z.to_nat (p_leb p))))
         - (q1 - 1)
           * digits_val b (window (p_vf p) (Z.to_nat (p_v p)) (Z.to_nat (p_leb p))).
Proof.
  intros Hb Hint Hnum Hden Hnz Hscale Hprep Hoos Hnorm Hk Hrun Htrial Hrefine Hq0
         Hmul Hsub Hbor.
  destruct (pass_state b num den scale p0 p k st Hb Hnum Hden Hnz Hscale Hprep Hoos
              Hnorm ltac:(lia) Hrun)
    as (ws & vpre & x & rest & vpost & vs & rs & j0 & m & _ & Hfo & HI).
  destruct Hfo as [F1 F2 F3 F4 F5 F6 F7 F8 F9 F10 F11 F12 F13 F14 F15 F16 F17 F18
                      F19 F20 F21 F22].
  destruct HI as [Hi Hj Hul Hub Huh Hut Hrem Hquot Htl Hql Hqh Hqt Hqb Hqlp Hqlen].
  rewrite length_app in Hul. simpl length in Hul.
  pose proof (divisor_lead b vpre vs vpost F1 F2 F3) as [Lv0 Lv1].
  pose proof (divisor_bounds b vs Hb F1 F2 F3) as (Hv0 & Hv1 & HVlo & HVhi).
  assert (Hlen : (k + length vs + 2 <= length (s_u st))%nat) by lia.
  destruct (digit_bounds b vs Hb F1 F2 F3 (s_u st) k Hub Hlen ltac:(lia))
    as (G & R1 & R2 & R3).
  pose proof (in_base_lookup_total b (s_u st) k Hub ltac:(lia)) as Hu0.
  pose proof (in_base_lookup_total b (s_u st) (S k) Hub ltac:(lia)) as Hu1.
  pose proof (in_base_lookup_total b (s_u st) (S (S k)) Hub ltac:(lia)) as Hu2.
  pose proof (lookup_total_Some (s_u st) k ltac:(lia)) as Lu0.
  pose proof (lookup_total_Some (s_u st) (S k) ltac:(lia)) as Lu1.
  pose proof (lookup_total_Some (s_u st) (S (S k)) ltac:(lia)) as Lu2.
  rewrite F4, F5, F6, Hi in *. rewrite ?Nat2Z.id, ?window_app.
  rewrite (trial_digit_spec _ _ (s_u st) _ b (length vpre) k (vs !!! 0%nat)
             (s_u st !!! k) (s_u st !!! S k)) in Htrial;
    try assumption; try reflexivity; try lia.
  injection Htrial as <-.
  rewrite (refine_digit_spec _ _ (s_u st) _ b _ (length vpre) k (vs !!! 0%nat)
             ((vs ++ [0]) !!! 1%nat)
             (s_u st !!! k) (s_u st !!! S k) (s_u st !!! S (S k))) in Hrefine;
    try assumption; try reflexivity; try lia.
  injection Hrefine as <-.
  destruct (mul_sub_add_borrow b vpre vs vpost Hb F1 F2 F3 (s_u st) (s_temp st) k _
              temp' u1 borrow Hub Hlen ltac:(lia) Huh R1 Hq0 R2 R3 Hmul Hsub Hbor)
    as (u2 & Hadd & Hmsa & Hcast & T1 & T2 & T3 & T4 & T5).
  pose proof (borrow_top_cell b vpre vs vpost Hb F1 F2 F3 (s_u st) (s_temp st) k _
                temp' u1 borrow Hub Hlen ltac:(lia) R1 R2 Hmul Hsub Hbor) as Htop.
  assert (Htop2 : u2 !! k = Some (b - 1)).
  { rewrite <- (lookup_take_lt u2 (S k) k) by lia.
    rewrite T1, lookup_take_lt by lia. exact Htop. }
  exists u2. rewrite Hcast in Hmsa.
  split; [exact Hadd|]. split; [exact Hmsa|].
  split; [exact Htop|]. split; [exact Htop2|].
  split.
  { destruct k as [|k'].
    - apply list_lookup_insert_eq. apply lookup_lt_Some in Htop2. exact Htop2.
    - rewrite list_lookup_insert_ne by lia. exact Htop2. }
  split; [exact T1|].
  split; [exact T2|]. split; [exact T3|]. split; [exact T4|]. exact T5.
Qed.

(** C3 as the code has it: sizing and the early-out.  [lea] is the
    integer-digit count of the dividend plus the fractional-digit count of
    the divisor and [leb] the length of the divisor without its leading
    zeros.  When [leb > lea + scale] the loop is skipped and the quotient is
    zero at the scale.  Otherwise the loop makes [lea - leb + scale + 1]
    passes, one quotient digit each; the quotient is shaped with
    [quodig = lea - leb + scale + 1] digits when [leb <= lea] and with
    [quodig = scale + 1] digits when [leb > lea]; in every case its
    integer part has [quodig - scale] digits before the leading zeros are
    removed. *)
Theorem sizing_and_early_out b num den c scale p0 :
  2 <= b <= UARBT_MOD -> wf_number b num -> wf_number b den ->
  iszero den <> 0 -> 0 <= scale ->
  div_prepare num den (arb_expand (len num + len den + scale)) b scale = Ok p0 ->
  p_lea p0 = rl num + rr den
  /\ (exists z x rest,
        digits den = replicate z 0 ++ x :: rest /\ x <> 0
        /\ p_leb p0 = Z.of_nat (S (length rest)))
  /\ p_out_of_scale p0 = (p_leb p0 >? p_lea p0 + scale)
  /\ lp (p_q p0) = p_quodig p0 - scale
  /\ len (p_q p0) = p_quodig p0
  /\ (p_leb p0 > p_lea p0 + scale ->
      arb_div num den c b scale = Ok (remove_leading_zeros (p_q p0))
      /\ p_quodig p0 = scale + 1
      /\ digits (p_q p0) = replicate (Z.to_nat (scale + 1)) 0
      /\ quotient_value b num den scale = 0)
  /\ (p_leb p0 <= p_lea p0 + scale ->
      p_quodig p0
      = (if p_leb p0 >? p_lea p0 then scale + 1
         else p_lea p0 - p_leb p0 + scale + 1)
      /\ exists p st,
           div_normalize b p0 = Ok p
           /\ div_iter (Z.to_nat (p_lea p0 - p_leb p0 + scale + 1)) p b (loop_entry p)
              = Ok st
           /\ s_i st = p_lea p0 - p_leb p0 + scale + 1
           /\ s_j st = p_quodig p0
           /\ arb_div num den c b scale = Ok (remove_leading_zeros (s_q st))
           /\ lp (s_q st) = lp (p_q p0)
           /\ len (s_q st) = len (p_q p0)).
Proof.
  intros Hb Hnum Hden Hnz Hscale Hprep.
  pose proof Hnum as (Hnlp & Hnlen & _). pose proof Hden as (Hdlp & Hdlen & _).
  destruct (prepared b num den (arb_expand (len num + len den + scale)) scale
              ltac:(lia) Hnum Hden Hnz Hscale)
    as (p0' & ws & vpre & x & rest & vpost & Hprep' & Hpo).
  rewrite Hprep in Hprep'. injection Hprep' as <-.
  pose proof Hpo as [Hu Hwsb Hsize Hvf Hvsb Hx Hv Hleb Hwsv Hvsv Hlea Huscal Hoffset
                        Hwsl Hdl Hdd Hvpre Htemp Hoos Hquodig Hq].
  split; [exact Hlea|].
  split.
  { exists (length vpre), x, rest. rewrite <- Hvpre.
    split; [exact Hdd|]. split; [exact Hx|exact Hleb]. }
  split; [exact Hoos|].
  split; [rewrite Hq; reflexivity|].
  split; [rewrite Hq; cbn [len]; lia|].
  split.
  - intros Hgt.
    assert (Eoos : p_out_of_scale p0 = true).
    { rewrite Hoos. apply Z.gtb_lt. lia. }
    split.
    { unfold arb_div, arb_div_inter. rewrite Hprep. cbn [bind]. rewrite Eoos.
      reflexivity. }
    rewrite Eoos in Hquodig.
    split; [exact Hquodig|].
    split.
    { rewrite Hq, Hquodig. unfold digits, arb_expand, arb_calloc. cbn [number len].
      rewrite take_replicate. f_equal. lia. }
    apply (out_of_scale_zero b scale num den
             (arb_expand (len num + len den + scale)) p0 ws vpre x rest vpost);
      try assumption; lia.
  - intros Hle.
    assert (Eoos : p_out_of_scale p0 = false).
    { rewrite Hoos. destruct (Z.gtb_spec (p_leb p0) (p_lea p0 + scale)); [lia|reflexivity]. }
    split.
    { rewrite Hquodig, Eoos.
      destruct (Z.gtb_spec (p_leb p0) (p_lea p0)); reflexivity. }
    destruct (engine_frame b scale num den (arb_expand (len num + len den + scale))
                (Z.to_nat (len num + len den + scale)) p0 ws vpre x rest vpost
                Hb Hnum Hden Hscale Hpo eq_refl ltac:(lia) Eoos)
      as (p & vs & rs & j0 & m & Hnorm & Hfo & Ea & Eb).
    pose proof Hfo as [F1 F2 F3 F4 F5 F6 F7 F8 F9 F10 F11 F12 F13 F14 F15 F16 F17 F18
                          F19 F20 F21 F22].
    destruct (div_loop_inv b scale p vpre vs vpost (rs ++ [0; 0]) (p_temp p) (p_q p)
                j0 m Hb F1 F2 F3 F4 F5 F6 F7
                ltac:(rewrite length_app; simpl length; lia) F11 F12
                (loop_entry p) eq_refl F13)
      as (st & Hloop & Hiter & HI).
    destruct HI as [Hi Hj Hul Hub Huh Hut Hrem Hquot Htl Hql Hqh Hqt Hqb Hqlp Hqlen].
    assert (Hpq : p_q p = p_q p0).
    { unfold div_normalize in Hnorm.
      destruct (div_norm b p0); try discriminate. cbn [bind] in Hnorm.
      destruct (negb (a =? 1)).
      - destruct (shmul (p_u p0) _ _ _ _ _); try discriminate. cbn [bind] in Hnorm.
        destruct (shmul (p_vf p0) _ _ _ _ _); try discriminate. cbn [bind] in Hnorm.
        injection Hnorm as <-. reflexivity.
      - injection Hnorm as <-. reflexivity. }
    exists p, st.
    split; [exact Hnorm|].
    split.
    { replace (Z.to_nat (p_lea p0 - p_leb p0 + scale + 1)) with (S m) by lia.
      exact Hiter. }
    split; [lia|].
    split.
    { rewrite Hj. rewrite <- Hpq in Hq. rewrite Hq in F20. cbn [lp] in F20. lia. }
    split.
    { unfold arb_div, arb_div_inter. rewrite Hprep. cbn [bind]. rewrite Eoos.
      rewrite Hnorm. cbn [bind]. rewrite Hloop. reflexivity. }
    rewrite <- Hpq. split; assumption.
Qed.

(** * Further properties of the digit-array primitives *)

(** X1: [_long_sub] subtracts.  On a window [ws] of the buffer
    [pre ++ ws ++ post] that ends at index [u + i], and a digit sequence
    [vs] of [k + 1] digits, all digits in [[0, b)], it leaves in the window
    the digits of [ws - vs], taken modulo [b ^ length ws], which are again
    in [[0, b)]; it returns the borrow, which is 0 or 1 and is 1 exactly
    when [ws] is less than [vs]; and it leaves [pre] and [post] alone. *)
Theorem long_sub_value b pre ws post vpre vs vpost u i v k :
  0 < b <= UARBT_MOD ->
  in_base b ws -> in_base b vs -> length ws = length vs ->
  k = Z.of_nat (length ws) - 1 ->
  u + i = Z.of_nat (length pre) + Z.of_nat (length ws) - 1 ->
  v + k = Z.of_nat (length vpre) + Z.of_nat (length vs) - 1 ->
  exists rs borrow,
    _long_sub (pre ++ ws ++ post) u i (vpre ++ vs ++ vpost) v k b
    = Ok (pre ++ rs ++ post, borrow)
    /\ length rs = length ws
    /\ in_base b rs
    /\ (borrow = 0 \/ borrow = 1)
    /\ (borrow = 1 <-> digits_val b ws < digits_val b vs)
    /\ digits_val b rs
       = digits_val b ws - digits_val b vs + borrow * b ^ Z.of_nat (length ws)
    /\ digits_val b rs
       = (digits_val b ws - digits_val b vs) mod b ^ Z.of_nat (length ws).
Proof.
  intros Hb Hws Hvs Hlen Hk Hu Hv.
  destruct (long_sub_spec b pre ws post vpre vs vpost u i v k)
    as (rs & borrow & Hsub & Hrl & Hrb & Hbor & Hval); try assumption.
  exists rs, borrow.
  pose proof (digits_val_bound b ws ltac:(lia) Hws) as B1.
  pose proof (digits_val_bound b vs ltac:(lia) Hvs) as B2.
  pose proof (digits_val_bound b rs ltac:(lia) Hrb) as B3.
  rewrite Hrl in B3. rewrite <- Hlen in B2.
  pose proof (Zpow_nat_pos b (length ws) ltac:(lia)) as HB.
  split; [exact Hsub|]. split; [exact Hrl|]. split; [exact Hrb|].
  split; [lia|]. split; [split; intros; nia|]. split; [exact Hval|].
  apply (Z.mod_unique_pos _ _ (- borrow)); lia.
Qed.

(** X2: [_long_add] adds.  Under the conditions of X1 it leaves in the
    window the digits of [ws + vs], taken modulo [b ^ length ws], and
    returns the carry, which is 0 or 1 and is 1 exactly when the sum does
    not fit the window; [pre] and [post] are left alone. *)
Theorem long_add_value b pre ws post vpre vs vpost u i v k :
  0 < b <= UARBT_MOD ->
  in_base b ws -> in_base b vs -> length ws = length vs ->
  k = Z.of_nat (length ws) - 1 ->
  u + i = Z.of_nat (length pre) + Z.of_nat (length ws) - 1 ->
  v + k = Z.of_nat (length vpre) + Z.of_nat (length vs) - 1 ->
  exists rs carry,
    _long_add (pre ++ ws ++ post) u i (vpre ++ vs ++ vpost) v k b
    = Ok (pre ++ rs ++ post, carry)
    /\ length rs = length ws
    /\ in_base b rs
    /\ (carry = 0 \/ carry = 1)
    /\ (carry = 1 <-> b ^ Z.of_nat (length ws) <= digits_val b ws + digits_val b vs)
    /\ digits_val b rs
       = digits_val b ws + digits_val b vs - carry * b ^ Z.of_nat (length ws)
    /\ digits_val b rs
       = (digits_val b ws + digits_val b vs) mod b ^ Z.of_nat (length ws).
Proof.
  intros Hb Hws Hvs Hlen Hk Hu Hv.
  destruct (long_add_spec b pre ws post vpre vs vpost u i v k)
    as (rs & carry & Hadd & Hrl & Hrb & Hcar & Hval); try assumption.
  exists rs, carry.
  pose proof (digits_val_bound b ws ltac:(lia) Hws) as B1.
  pose proof (digits_val_bound b vs ltac:(lia) Hvs) as B2.
  pose proof (digits_val_bound b rs ltac:(lia) Hrb) as B3.
  rewrite Hrl in B3. rewrite <- Hlen in B2.
  pose proof (Zpow_nat_pos b (length ws) ltac:(lia)) as HB.
  split; [exact Hadd|]. split; [exact Hrl|]. split; [exact Hrb|].
  split; [lia|]. split; [split; intros; nia|]. split; [exact Hval|].
  apply (Z.mod_unique_pos _ _ carry); lia.
Qed.

(** X3: the round trip the other way.  [_long_add] followed by
    [_long_sub] on the same window gives the buffer back digit for digit,
    and the borrow out of the subtract is the carry out of the add. *)
Theorem long_add_sub_inverse b pre ws post vpre vs vpost u i v k :
  0 < b <= UARBT_MOD ->
  in_base b ws -> in_base b vs -> length ws = length vs ->
  k = Z.of_nat (length ws) - 1 ->
  u + i = Z.of_nat (length pre) + Z.of_nat (length ws) - 1 ->
  v + k = Z.of_nat (length vpre) + Z.of_nat (length vs) - 1 ->
  exists rs carry,
    _long_add (pre ++ ws ++ post) u i (vpre ++ vs ++ vpost) v k b
    = Ok (pre ++ rs ++ post, carry)
    /\ length rs = length ws
    /\ _long_sub (pre ++ rs ++ post) u i (vpre ++ vs ++ vpost) v k b
       = Ok (pre ++ ws ++ post, carry).
Proof.
  intros Hb Hws Hvs Hlen Hk Hu Hv.
  destruct (long_add_spec b pre ws post vpre vs vpost u i v k)
    as (rs & carry & Hadd & Hrl & Hrb & Hcar & Hval); try assumption.
  destruct (long_sub_spec b pre rs post vpre vs vpost u i v k)
    as (rs' & borrow & Hsub & Hrl' & Hrb' & Hbor & Hval'); try assumption; try lia.
  exists rs, carry. split; [exact Hadd|]. split; [exact Hrl|].
  pose proof (digits_val_bound b ws ltac:(lia) Hws) as B1.
  pose proof (digits_val_bound b rs' ltac:(lia) Hrb') as B2.
  rewrite Hrl', Hrl in B2. rewrite Hrl in Hval'.
  pose proof (Zpow_nat_pos b (length ws) ltac:(lia)) as HB.
  assert (borrow = carry) by nia. subst borrow.
  assert (rs' = ws).
  { apply (digits_val_inj b); try assumption; try lia. }
  subst rs'. exact Hsub.
Qed.


Lemma splice_lookup_outside (m : list Z) a ds j :
  (a + length ds <= length m)%nat -> (j < a \/ a + length ds <= j)%nat ->
  splice m a ds !! j = m !! j.
Proof.
  intros Hlen H. unfold splice. destruct H as [H|H].
  - rewrite lookup_app_l by (rewrite length_take; lia).
    apply lookup_take_lt. exact H.
  - rewrite lookup_app_r by (rewrite length_take; lia).
    rewrite length_take, Nat.min_l by lia.
    rewrite lookup_app_r by lia.
    rewrite lookup_drop. f_equal. lia.
Qed.

Lemma spare_cell_app (pre : list Z) c0 ws post :
  pre ++ c0 :: ws ++ post = (pre ++ [c0]) ++ ws ++ post
  /\ length (pre ++ [c0]) = S (length pre).
Proof.
  split.
  - rewrite <- app_assoc. reflexivity.
  - rewrite length_app. simpl. lia.
Qed.

(** X4: [shmul] multiplies, and the cell left of the destination takes the
    carry.  Run in place on the window [ws] of [pre ++ c0 :: ws ++ post]
    with a digit [d], digits and [d] in [[0, b)], it leaves the [length ws]
    low digits of [ws * d] in the window and has a carry [c < b] with
    [rs + c * b ^ length ws = ws * d].  A non-zero carry overwrites the
    cell [c0], whatever it held; a zero carry leaves [c0] as it was.  So
    when [c0] is a zero guard cell, the guard and the window together hold
    exactly [ws * d].
    The base is one whose square fits an [int], where the product of line
    63 is exact. *)
Theorem shmul_carry_cell b d pre c0 ws post :
  0 < b <= UARBT_MOD -> b * b <= INT_MAX ->
  0 <= d < b -> in_base b ws ->
  exists rs c,
    shmul (pre ++ c0 :: ws ++ post) (Z.of_nat (S (length pre)))
          (Z.of_nat (length ws)) d (Z.of_nat (S (length pre))) b
    = Ok (pre ++ (if c =? 0 then c0 else c) :: rs ++ post)
    /\ length rs = length ws
    /\ in_base b rs
    /\ 0 <= c < b
    /\ digits_val b rs + c * b ^ Z.of_nat (length ws) = digits_val b ws * d
    /\ (c0 = 0 ->
        digits_val b ((if c =? 0 then c0 else c) :: rs) = digits_val b ws * d).
Proof.
  intros Hb Hint Hd Hws.
  destruct (spare_cell_app pre c0 ws post) as [Eapp Elen].
  assert (Hwin : window (pre ++ c0 :: ws ++ post) (S (length pre)) (length ws) = ws).
  { rewrite Eapp, <- Elen. apply window_app. }
  rewrite shmul_scale; try assumption; try lia.
  2: { rewrite Hwin. exact Hws. }
  2, 3: rewrite Eapp, length_app, Elen, length_app; lia.
  unfold scale. rewrite Hwin.
  pose proof (scale_digits_spec b d ws ltac:(lia) Hd Hws) as (Hl & Ho & Hc & Hv).
  destruct (scale_digits b d ws) as [out c]. simpl fst in *. simpl snd in *.
  assert (Hsp : splice (pre ++ c0 :: ws ++ post) (S (length pre)) out
                = pre ++ c0 :: out ++ post).
  { rewrite Eapp, <- Elen, splice_app by exact Hl.
    rewrite <- app_assoc. reflexivity. }
  rewrite Hsp.
  exists out, c.
  split.
  - destruct (Z.eqb_spec c 0) as [E|E]; [reflexivity|].
    f_equal.
    replace (length pre) with (length pre + 0)%nat at 1 by lia.
    rewrite insert_app_r. reflexivity.
  - split; [exact Hl|]. split; [exact Ho|]. split; [exact Hc|].
    split; [exact Hv|].
    intros ->. rewrite digits_val_cons, Hl.
    destruct (Z.eqb_spec c 0) as [E|E]; lia.
Qed.

(** X5: a destination that starts its buffer has no cell for the carry.
    Run in place on a window [ws] at offset 0, [shmul] succeeds exactly
    when [ws * d] fits [length ws] digits, and then the window holds the
    product; when the product needs one digit more, the store of the carry
    goes to the cell before the buffer, which is a fault.
    The base is one whose square fits an [int], where the product of line
    63 is exact. *)
Theorem shmul_at_buffer_start b d ws post :
  0 < b <= UARBT_MOD -> b * b <= INT_MAX ->
  0 <= d < b -> in_base b ws ->
  (digits_val b ws * d < b ^ Z.of_nat (length ws) ->
   exists rs,
     shmul (ws ++ post) 0 (Z.of_nat (length ws)) d 0 b = Ok (rs ++ post)
     /\ length rs = length ws /\ in_base b rs
     /\ digits_val b rs = digits_val b ws * d)
  /\ (b ^ Z.of_nat (length ws) <= digits_val b ws * d ->
      shmul (ws ++ post) 0 (Z.of_nat (length ws)) d 0 b = Fault).
Proof.
  intros Hb Hint Hd Hws. split.
  - intros Hfit.
    destruct (shmul_in_place b d [] ws post Hb Hd Hws Hfit) as (rs & Hrun & H).
    exists rs. split; [exact Hrun|exact H].
  - intros Hover.
    assert (Hwin : window (ws ++ post) 0 (length ws) = ws)
      by apply (window_app [] ws post).
    change 0 with (Z.of_nat 0).
    rewrite shmul_scale; try assumption; try lia.
    2: { rewrite Hwin. exact Hws. }
    2, 3: rewrite length_app; lia.
    unfold scale. rewrite Hwin.
    pose proof (scale_digits_spec b d ws ltac:(lia) Hd Hws) as (Hl & Ho & Hc & Hv).
    destruct (scale_digits b d ws) as [out c]. simpl fst in *. simpl snd in *.
    pose proof (digits_val_bound b out ltac:(lia) Ho) as Hob. rewrite Hl in Hob.
    pose proof (Zpow_nat_pos b (length ws) ltac:(lia)) as HB.
    destruct (Z.eqb_spec c 0) as [E|E]; [nia|reflexivity].
Qed.

(** X6: what [shmul] leaves alone.  With the source window at [num] and
    the destination window at [result] (the same window, or two that do not
    overlap), a run that ends normally changes no cell but the [size] cells
    of the destination and the one cell left of it, keeps the length of the
    buffer, and leaves digits of [[0, b)] in the destination; a buffer
    whose digits all were in [[0, b)] stays so.
    The base is one whose square fits an [int], where the product of line
    63 is exact. *)
Theorem shmul_frame m (num size result : nat) d b m' :
  0 < b <= UARBT_MOD -> b * b <= INT_MAX ->
  0 <= d < b ->
  in_base b (window m num size) ->
  (num + size <= length m)%nat -> (result + size <= length m)%nat ->
  (num = result \/ num + size <= result \/ result + size <= num)%nat ->
  shmul m (Z.of_nat num) (Z.of_nat size) d (Z.of_nat result) b = Ok m' ->
  length m' = length m
  /\ (forall j, (S j < result \/ result + size <= j)%nat -> m' !! j = m !! j)
  /\ in_base b (window m' result size)
  /\ (in_base b m -> in_base b m').
Proof.
  intros Hb Hint Hd Hsrc Hnum Hres Hsep Hrun.
  pose proof (window_length m num size Hnum) as Hwl.
  rewrite shmul_scale in Hrun by assumption.
  unfold scale in Hrun.
  pose proof (scale_digits_spec b d _ ltac:(lia) Hd Hsrc) as (Hl & Ho & Hc & Hv).
  destruct (scale_digits b d (window m num size)) as [out c].
  simpl fst in *. simpl snd in *. rewrite Hwl in Hl.
  assert (Hsl : length (splice m result out) = length m)
    by (apply splice_length; lia).
  assert (Hsw : window (splice m result out) result size = out).
  { unfold splice, window.
    rewrite drop_app_length' by (rewrite length_take; lia).
    rewrite take_app_length' by lia. reflexivity. }
  assert (Hsb : in_base b m -> in_base b (splice m result out))
    by (intros Hm; apply in_base_splice; assumption).
  destruct (Z.eqb_spec c 0) as [E|E].
  - injection Hrun as <-.
    split; [exact Hsl|]. split; [|split; [rewrite Hsw; exact Ho|exact Hsb]].
    intros j Hj. apply splice_lookup_outside; lia.
  - destruct result as [|p]; [discriminate Hrun|].
    injection Hrun as <-.
    split; [rewrite length_insert; exact Hsl|].
    split; [|split].
    + intros j Hj.
      rewrite list_lookup_insert_ne by lia.
      apply splice_lookup_outside; lia.
    + rewrite window_insert_outside by lia. rewrite Hsw. exact Ho.
    + intros Hm. apply Forall_insert; [apply Hsb, Hm|lia].
Qed.


(** * Further properties of the engine *)

Lemma divisor_positive b den :
  0 < b -> wf_number b den -> iszero den <> 0 -> 0 < digits_val b (digits den).
Proof.
  intros Hb Hden Hnz.
  destruct (nonzero_decompose _ (iszero_nonzero den Hnz)) as (z & x & rest & Hdd & Hx).
  pose proof Hden as (_ & _ & Hdb).
  rewrite Hdd in Hdb. apply in_base_app in Hdb as [_ Hdb].
  pose proof (divisor_value_pos b x rest Hb Hdb Hx) as HD.
  rewrite <- (digits_val_zeros_app b z), <- Hdd in HD.
  pose proof (Zpow_nat_pos b (length rest) Hb). lia.
Qed.

Lemma zero_digits b l :
  0 < b -> in_base b l -> digits_val b l = 0 -> forallb (fun d => d =? 0) l = true.
Proof.
  intros Hb H. induction H as [|x l Hx Hl IH]; [reflexivity|].
  rewrite digits_val_cons. intros Hv.
  pose proof (digits_val_bound b l Hb Hl).
  pose proof (Zpow_nat_pos b (length l) Hb).
  assert (x = 0) by nia. subst x.
  simpl. apply IH. lia.
Qed.

Lemma iszero_value b a :
  0 < b -> wf_number b a -> (iszero a = 0 <-> digits_val b (digits a) = 0).
Proof.
  intros Hb (_ & _ & Hab). unfold iszero. split.
  - destruct (forallb _ _) eqn:E; [intros _|discriminate].
    destruct (Z.eq_dec (digits_val b (digits a)) 0) as [H|H]; [exact H|].
    exfalso.
    assert (Hl : forall l, forallb (fun d => d =? 0) l = true -> digits_val b l = 0).
    { induction l as [|x l IH]; [reflexivity|]. simpl.
      destruct (Z.eqb_spec x 0) as [->|]; [|discriminate]. simpl. intros Hf.
      rewrite digits_val_zero_cons. apply IH, Hf. }
    apply H, Hl, E.
  - intros Hv. rewrite (zero_digits b _ Hb Hab Hv). reflexivity.
Qed.

(** A number is in canonical form when no zero digit leads its integer
    part. *)
Lemma head_digits b q :
  wf_number b q -> 0 < lp q ->
  (lp q = 0 \/ exists d rest, number q = d :: rest /\ d <> 0) ->
  exists d rest, digits q = d :: rest /\ d <> 0.
Proof.
  intros (Hlp & Hlen & _) Hpos [H0|(d & rest & Hn & Hd)]; [lia|].
  exists d, (take (Z.to_nat (len q - 1)) rest). split; [|exact Hd].
  unfold digits. rewrite Hn.
  replace (Z.to_nat (len q)) with (S (Z.to_nat (len q - 1))) by lia.
  reflexivity.
Qed.

Lemma canonical_lower b q :
  0 < b -> wf_number b q -> 0 < lp q ->
  (exists d rest, digits q = d :: rest /\ d <> 0) ->
  b ^ (len q - 1) <= digits_val b (digits q).
Proof.
  intros Hb Hwf Hpos (d & rest & Hd & Hnz).
  pose proof (digits_length b q Hwf) as Hl.
  destruct Hwf as (Hlp & Hlen & Hqb).
  rewrite Hd in Hl, Hqb |- *.
  pose proof (divisor_value_pos b d rest Hb Hqb Hnz) as H.
  simpl length in Hl.
  replace (len q - 1) with (Z.of_nat (length rest)) by lia. exact H.
Qed.

Lemma canonical_upper b q :
  0 < b -> wf_number b q -> digits_val b (digits q) < b ^ len q.
Proof.
  intros Hb Hwf.
  pose proof (digits_length b q Hwf) as Hl.
  destruct Hwf as (Hlp & Hlen & Hqb).
  pose proof (digits_val_bound b _ Hb Hqb) as H.
  rewrite Hl, Z2Nat.id in H by lia. lia.
Qed.

Lemma canonical_unique b q1 q2 :
  2 <= b -> wf_number b q1 -> wf_number b q2 ->
  len q1 - lp q1 = len q2 - lp q2 ->
  (lp q1 = 0 \/ exists d rest, digits q1 = d :: rest /\ d <> 0) ->
  (lp q2 = 0 \/ exists d rest, digits q2 = d :: rest /\ d <> 0) ->
  digits_val b (digits q1) = digits_val b (digits q2) ->
  digits q1 = digits q2 /\ lp q1 = lp q2 /\ len q1 = len q2.
Proof.
  intros Hb W1 W2 Hs H1 H2 Hv.
  pose proof (canonical_upper b q1 ltac:(lia) W1) as U1.
  pose proof (canonical_upper b q2 ltac:(lia) W2) as U2.
  pose proof W1 as (Hlp1 & Hlen1 & Hb1). pose proof W2 as (Hlp2 & Hlen2 & Hb2).
  assert (E : len q1 = len q2).
  { destruct (Z.lt_trichotomy (len q1) (len q2)) as [L|[L|L]]; [exfalso| exact L |exfalso].
    - destruct H2 as [H2|H2]; [lia|].
      pose proof (canonical_lower b q2 ltac:(lia) W2 ltac:(lia) H2) as Lo.
      assert (b ^ len q1 <= b ^ (len q2 - 1)) by (apply Z.pow_le_mono_r; lia).
      lia.
    - destruct H1 as [H1|H1]; [lia|].
      pose proof (canonical_lower b q1 ltac:(lia) W1 ltac:(lia) H1) as Lo.
      assert (b ^ len q2 <= b ^ (len q1 - 1)) by (apply Z.pow_le_mono_r; lia).
      lia. }
  split; [|lia].
  apply (digits_val_inj b); try assumption; try lia.
  rewrite (digits_length b q1 W1), (digits_length b q2 W2), E. reflexivity.
Qed.

(** The result of [arb_div], with the head of its digits in view. *)
Lemma arb_div_canonical b num den c scale :
  2 <= b <= UARBT_MOD -> wf_number b num -> wf_number b den ->
  iszero den <> 0 -> 0 <= scale ->
  exists q,
    arb_div num den c b scale = Ok q
    /\ wf_number b q /\ len q - lp q = scale
    /\ (lp q = 0 \/ exists d rest, digits q = d :: rest /\ d <> 0)
    /\ digits_val b (digits q) = quotient_value b num den scale.
Proof.
  intros Hb Hnum Hden Hnz Hscale.
  destruct (arb_div_spec b num den c scale Hb Hnum Hden Hnz Hscale)
    as (q & Hrun & Hwf & Hsc & Hhead & Hval).
  exists q. split; [exact Hrun|]. split; [exact Hwf|]. split; [exact Hsc|].
  split; [|exact Hval].
  destruct (Z.eq_dec (lp q) 0) as [E|E]; [left; exact E|right].
  destruct Hwf as (Hlp & Hrest).
  apply (head_digits b q); [exact (conj Hlp Hrest)|lia|exact Hhead].
Qed.

(** Two quotients of equal fractions are equal. *)
Lemma quotient_value_cross b n1 d1 n2 d2 scale :
  0 < b -> wf_number b n1 -> wf_number b n2 ->
  0 < digits_val b (digits d1) -> 0 < digits_val b (digits d2) ->
  0 <= rr d1 -> 0 <= rr d2 -> 0 <= scale ->
  digits_val b (digits n1) * b ^ rr d1 * (digits_val b (digits d2) * b ^ rr n2)
  = digits_val b (digits n2) * b ^ rr d2 * (digits_val b (digits d1) * b ^ rr n1) ->
  quotient_value b n1 d1 scale = quotient_value b n2 d2 scale.
Proof.
  intros Hb (Hl1 & _) (Hl2 & _) HD1 HD2 Hr1 Hr2 Hs Hx.
  unfold quotient_value.
  assert (P1 : 0 < b ^ rr n1) by (apply Z.pow_pos_nonneg; unfold rr; lia).
  assert (P2 : 0 < b ^ rr n2) by (apply Z.pow_pos_nonneg; unfold rr; lia).
  rewrite !Z.pow_add_r by lia.
  set (A1 := digits_val b (digits n1) * (b ^ rr d1 * b ^ scale)).
  set (A2 := digits_val b (digits n2) * (b ^ rr d2 * b ^ scale)).
  set (B1 := digits_val b (digits d1) * b ^ rr n1).
  set (B2 := digits_val b (digits d2) * b ^ rr n2).
  assert (HB1 : 0 < B1) by (unfold B1; nia).
  assert (HB2 : 0 < B2) by (unfold B2; nia).
  assert (HX : A1 * B2 = A2 * B1).
  { unfold A1, A2. fold B1 B2 in Hx.
    replace (digits_val b (digits n1) * (b ^ rr d1 * b ^ scale) * B2)
      with (digits_val b (digits n1) * b ^ rr d1 * B2 * b ^ scale) by ring.
    rewrite Hx. ring. }
  rewrite <- (Z.div_mul_cancel_r A1 B1 B2) by lia.
  rewrite HX.
  rewrite (Z.mul_comm B1 B2).
  apply Z.div_mul_cancel_r; lia.
Qed.

(** X7: a zero dividend gives a zero quotient.  Whatever the non-zero
    divisor and the scale, a dividend of value zero (the empty digit
    sequence included) yields the quotient with no integer digit and
    [scale] fractional digits, all of them zero.
    The base is one whose cube fits an [int], where the products of lines
    164-167 are exact. *)
Theorem arb_div_zero_dividend b num den c scale :
  2 <= b <= UARBT_MOD -> b * b * b <= INT_MAX ->
  wf_number b num -> wf_number b den ->
  iszero den <> 0 -> 0 <= scale ->
  digits_val b (digits num) = 0 ->
  exists q,
    arb_div num den c b scale = Ok q
    /\ digits q = replicate (Z.to_nat scale) 0
    /\ lp q = 0 /\ len q = scale.
Proof.
  intros Hb Hint Hnum Hden Hnz Hscale Hz.
  destruct (arb_div_canonical b num den c scale Hb Hnum Hden Hnz Hscale)
    as (q & Hrun & Hwf & Hsc & Hhead & Hval).
  exists q. split; [exact Hrun|].
  assert (Hv0 : digits_val b (digits q) = 0).
  { rewrite Hval. unfold quotient_value. rewrite Hz. reflexivity. }
  pose proof Hwf as (Hlp & Hlen & Hqb).
  assert (Hlp0 : lp q = 0).
  { destruct Hhead as [H|H]; [exact H|].
    destruct (Z.eq_dec (lp q) 0) as [E|E]; [exact E|exfalso].
    pose proof (canonical_lower b q ltac:(lia) Hwf ltac:(lia) H) as Lo.
    assert (0 < b ^ (len q - 1)) by (apply Z.pow_pos_nonneg; lia).
    lia. }
  split; [|lia].
  apply (digits_val_inj b); try assumption; try lia.
  - apply in_base_replicate_0. lia.
  - rewrite (digits_length b q Hwf), length_replicate. f_equal. lia.
  - rewrite digits_val_replicate_0. exact Hv0.
Qed.

(** X8: a number divided by itself is one.  For every non-zero [a] and
    every scale, [arb_div a a] (the call the test driver makes) yields the
    digit 1 followed by [scale] zero digits, with one integer digit.
    The base is one whose cube fits an [int], where the products of lines
    164-167 are exact. *)
Theorem arb_div_self b a c scale :
  2 <= b <= UARBT_MOD -> b * b * b <= INT_MAX ->
  wf_number b a -> iszero a <> 0 -> 0 <= scale ->
  exists q,
    arb_div a a c b scale = Ok q
    /\ digits q = 1 :: replicate (Z.to_nat scale) 0
    /\ lp q = 1 /\ len q = scale + 1.
Proof.
  intros Hb Hint Ha Hnz Hscale.
  destruct (arb_div_canonical b a a c scale Hb Ha Ha Hnz Hscale)
    as (q & Hrun & Hwf & Hsc & Hhead & Hval).
  exists q. split; [exact Hrun|].
  pose proof (divisor_positive b a ltac:(lia) Ha Hnz) as HA.
  pose proof Ha as (Halp & _).
  assert (HP : 0 < b ^ rr a) by (apply Z.pow_pos_nonneg; unfold rr; lia).
  assert (Hv : digits_val b (digits q) = b ^ scale).
  { rewrite Hval. unfold quotient_value.
    rewrite Z.pow_add_r by (unfold rr; lia).
    replace (digits_val b (digits a) * (b ^ rr a * b ^ scale))
      with (b ^ scale * (digits_val b (digits a) * b ^ rr a)) by ring.
    apply Z.div_mul. nia. }
  set (one := mk_fxdpnt (1 :: replicate (Z.to_nat scale) 0) 1 (scale + 1)).
  assert (Hd1 : digits one = 1 :: replicate (Z.to_nat scale) 0).
  { unfold digits, one. cbn [len number].
    apply take_ge. simpl length. rewrite length_replicate. lia. }
  assert (W1 : wf_number b one).
  { unfold wf_number. rewrite Hd1. unfold one. cbn [lp len number].
    simpl length. rewrite length_replicate.
    split; [lia|]. split; [lia|].
    apply Forall_cons. split; [lia|]. apply in_base_replicate_0. lia. }
  destruct (canonical_unique b q one ltac:(lia) Hwf W1) as (E1 & E2 & E3).
  - unfold one. cbn [lp len]. lia.
  - exact Hhead.
  - right. exists 1, (replicate (Z.to_nat scale) 0). split; [exact Hd1|lia].
  - rewrite Hv, Hd1, digits_val_cons, digits_val_replicate_0, length_replicate.
    rewrite Z2Nat.id by lia. lia.
  - rewrite E1, E2, E3, Hd1. unfold one. cbn [lp len]. repeat split.
Qed.


(** Two divisions whose truncated quotients agree give the same number. *)
Lemma arb_div_same b n1 d1 c1 n2 d2 c2 scale :
  2 <= b <= UARBT_MOD ->
  wf_number b n1 -> wf_number b d1 -> wf_number b n2 -> wf_number b d2 ->
  iszero d1 <> 0 -> iszero d2 <> 0 -> 0 <= scale ->
  quotient_value b n1 d1 scale = quotient_value b n2 d2 scale ->
  exists q1 q2,
    arb_div n1 d1 c1 b scale = Ok q1
    /\ arb_div n2 d2 c2 b scale = Ok q2
    /\ digits q1 = digits q2 /\ lp q1 = lp q2 /\ len q1 = len q2.
Proof.
  intros Hb Hn1 Hd1 Hn2 Hd2 Hz1 Hz2 Hscale Hq.
  destruct (arb_div_canonical b n1 d1 c1 scale Hb Hn1 Hd1 Hz1 Hscale)
    as (q1 & Hrun1 & Hwf1 & Hsc1 & Hhead1 & Hval1).
  destruct (arb_div_canonical b n2 d2 c2 scale Hb Hn2 Hd2 Hz2 Hscale)
    as (q2 & Hrun2 & Hwf2 & Hsc2 & Hhead2 & Hval2).
  exists q1, q2. split; [exact Hrun1|]. split; [exact Hrun2|].
  apply (canonical_unique b); try assumption; lia.
Qed.

(** X9: the quotient depends on the values of the operands only.  When
    [n1 / d1] and [n2 / d2] are the same fraction (stated by cross
    multiplication, each operand being its digits over [b ^ rr]), the two
    divisions return the same digits and the same integer-part count:
    leading zeros, trailing zeros and a common factor of the operands do
    not show in the result.
    The base is one whose cube fits an [int], where the products of lines
    164-167 are exact. *)
Theorem arb_div_value_only b n1 d1 c1 n2 d2 c2 scale :
  2 <= b <= UARBT_MOD -> b * b * b <= INT_MAX ->
  wf_number b n1 -> wf_number b d1 -> wf_number b n2 -> wf_number b d2 ->
  iszero d1 <> 0 -> iszero d2 <> 0 -> 0 <= scale ->
  digits_val b (digits n1) * b ^ rr d1 * (digits_val b (digits d2) * b ^ rr n2)
  = digits_val b (digits n2) * b ^ rr d2 * (digits_val b (digits d1) * b ^ rr n1) ->
  exists q1 q2,
    arb_div n1 d1 c1 b scale = Ok q1
    /\ arb_div n2 d2 c2 b scale = Ok q2
    /\ digits q1 = digits q2 /\ lp q1 = lp q2 /\ len q1 = len q2.
Proof.
  intros Hb Hint Hn1 Hd1 Hn2 Hd2 Hz1 Hz2 Hscale Hx.
  apply arb_div_same; try assumption.
  pose proof Hd1 as (Hl1 & _). pose proof Hd2 as (Hl2 & _).
  apply quotient_value_cross; try assumption; unfold rr; try lia.
  - apply divisor_positive; [lia|assumption|assumption].
  - apply divisor_positive; [lia|assumption|assumption].
Qed.

(** X10: trailing zeros of the divisor do not matter (the source leaves
    them in place: "TODO: strip trailing zeros from the denominator").
    A divisor [d2] that is [d1] with [k] more zero digits at the end of its
    fractional part gives the same digits and the same integer-part
    count.
    The base is one whose cube fits an [int], where the products of lines
    164-167 are exact. *)
Theorem arb_div_divisor_trailing_zeros b num d1 d2 c1 c2 scale k :
  2 <= b <= UARBT_MOD -> b * b * b <= INT_MAX ->
  wf_number b num -> wf_number b d1 -> wf_number b d2 ->
  iszero d1 <> 0 -> 0 <= scale ->
  digits d2 = digits d1 ++ replicate k 0 ->
  lp d2 = lp d1 -> len d2 = len d1 + Z.of_nat k ->
  exists q1 q2,
    arb_div num d1 c1 b scale = Ok q1
    /\ arb_div num d2 c2 b scale = Ok q2
    /\ digits q1 = digits q2 /\ lp q1 = lp q2 /\ len q1 = len q2.
Proof.
  intros Hb Hint Hnum Hd1 Hd2 Hz1 Hscale Hdig Hlp Hlen.
  pose proof (divisor_positive b d1 ltac:(lia) Hd1 Hz1) as HD1.
  pose proof (Zpow_nat_pos b k ltac:(lia)) as HK.
  assert (Hv2 : digits_val b (digits d2) = digits_val b (digits d1) * b ^ Z.of_nat k).
  { rewrite Hdig, digits_val_app, digits_val_replicate_0, length_replicate. lia. }
  assert (Hz2 : iszero d2 <> 0).
  { intros E. apply (iszero_value b d2 ltac:(lia) Hd2) in E. nia. }
  pose proof Hd1 as (Hl1 & _). pose proof Hd2 as (Hl2 & _).
  pose proof Hnum as (Hln & _).
  apply arb_div_same; try assumption.
  apply quotient_value_cross; try assumption; unfold rr;
    try (rewrite ?Hv2; nia).
  rewrite Hv2, Hlp, Hlen.
  replace (len d1 + Z.of_nat k - lp d1) with (len d1 - lp d1 + Z.of_nat k) by lia.
  rewrite Z.pow_add_r by lia. ring.
Qed.

(** X11: a larger scale only appends digits.  The quotient at scale
    [scale + 1] is the quotient at scale [scale] followed by one more
    fractional digit: the digits already produced do not depend on the
    scale asked for.
    The base is one whose cube fits an [int], where the products of lines
    164-167 are exact. *)
Theorem arb_div_scale_prefix b num den c c' scale :
  2 <= b <= UARBT_MOD -> b * b * b <= INT_MAX ->
  wf_number b num -> wf_number b den ->
  iszero den <> 0 -> 0 <= scale ->
  exists q q' x,
    arb_div num den c b scale = Ok q
    /\ arb_div num den c' b (scale + 1) = Ok q'
    /\ digits q' = digits q ++ [x]
    /\ 0 <= x < b
    /\ lp q' = lp q /\ len q' = len q + 1.
Proof.
  intros Hb Hint Hnum Hden Hnz Hscale.
  destruct (arb_div_canonical b num den c scale Hb Hnum Hden Hnz Hscale)
    as (q & Hrun & Hwf & Hsc & Hhead & Hval).
  destruct (arb_div_canonical b num den c' (scale + 1) Hb Hnum Hden Hnz ltac:(lia))
    as (q' & Hrun' & Hwf' & Hsc' & Hhead' & Hval').
  pose proof Hwf' as (Hlp' & Hlen' & Hqb').
  set (n := Z.to_nat (len q' - 1)).
  assert (Hn : Z.to_nat (len q') = S n) by (unfold n; lia).
  destruct (lookup_lt_is_Some_2 (number q') n ltac:(lia)) as [x Hx].
  assert (Hd' : digits q' = take n (number q') ++ [x]).
  { unfold digits. rewrite Hn. apply take_S_r. exact Hx. }
  rewrite Hd' in Hqb'. apply in_base_app in Hqb' as [Hib Hxb].
  apply Forall_cons in Hxb as [Hxb _].
  set (t := mk_fxdpnt (number q') (lp q') (len q' - 1)).
  assert (Hdt : digits t = take n (number q')) by reflexivity.
  assert (Wt : wf_number b t).
  { unfold wf_number. rewrite Hdt. unfold t. cbn [lp len number].
    split; [lia|]. split; [lia|exact Hib]. }
  assert (Hvt : digits_val b (digits t) = quotient_value b num den scale).
  { rewrite Hdt.
    assert (E : digits_val b (take n (number q'))
                = quotient_value b num den (scale + 1) / b).
    { apply (Z.div_unique _ _ _ x); [lia|].
      rewrite <- Hval', Hd', digits_val_snoc. ring. }
    rewrite E. unfold quotient_value.
    pose proof (divisor_positive b den ltac:(lia) Hden Hnz) as HD.
    pose proof Hnum as (Hnlp & _). pose proof Hden as (Hdlp & _).
    assert (HP : 0 < b ^ rr num) by (apply Z.pow_pos_nonneg; unfold rr; lia).
    rewrite Z.div_div by nia.
    replace (rr den + (scale + 1)) with (rr den + scale + 1) by lia.
    rewrite (Z.pow_add_r b (rr den + scale) 1) by (unfold rr; lia).
    rewrite Z.pow_1_r, Z.mul_assoc.
    apply Z.div_mul_cancel_r; nia. }
  assert (Hht : lp t = 0 \/ exists d rest, digits t = d :: rest /\ d <> 0).
  { destruct Hhead' as [H|(d & rest & Hd & Hdnz)]; [left; exact H|].
    destruct (Z.eq_dec (lp q') 0) as [E0|E0]; [left; exact E0|right].
    rewrite Hdt. rewrite Hd' in Hd.
    destruct (take n (number q')) as [|h tl] eqn:Et.
    - apply (f_equal length) in Et. rewrite length_take in Et.
      simpl in Et. lia.
    - injection Hd as -> _. exists d, tl. split; [reflexivity|exact Hdnz]. }
  destruct (canonical_unique b q t ltac:(lia) Hwf Wt) as (E1 & E2 & E3);
    try assumption.
  - unfold t. cbn [lp len]. lia.
  - rewrite Hval, Hvt. reflexivity.
  - exists q, q', x. split; [exact Hrun|]. split; [exact Hrun'|].
    rewrite E1, Hdt. split; [exact Hd'|]. split; [exact Hxb|].
    unfold t in E2, E3. cbn [lp len] in E2, E3. lia.
Qed.

(** X12: the integer part of the quotient has the digits of the integer
    quotient and no more.  The result has no integer digit exactly when
    the dividend is less than the divisor; otherwise its integer-part
    count [lp] is the one with [b ^ (lp - 1) <= N / D < b ^ lp].
    The base is one whose cube fits an [int], where the products of lines
    164-167 are exact. *)
Theorem arb_div_integer_digits b num den c scale :
  2 <= b <= UARBT_MOD -> b * b * b <= INT_MAX ->
  wf_number b num -> wf_number b den ->
  iszero den <> 0 -> 0 <= scale ->
  exists q,
    arb_div num den c b scale = Ok q
    /\ (lp q = 0
        <-> digits_val b (digits num) * b ^ rr den
            < digits_val b (digits den) * b ^ rr num)
    /\ (0 < lp q ->
        b ^ (lp q - 1) * (digits_val b (digits den) * b ^ rr num)
        <= digits_val b (digits num) * b ^ rr den
        < b ^ lp q * (digits_val b (digits den) * b ^ rr num)).
Proof.
  intros Hb Hint Hnum Hden Hnz Hscale.
  destruct (arb_div_canonical b num den c scale Hb Hnum Hden Hnz Hscale)
    as (q & Hrun & Hwf & Hsc & Hhead & Hval).
  exists q. split; [exact Hrun|].
  pose proof (quotient_value_bounds b num den scale ltac:(lia) Hnum Hden Hnz) as HB.
  rewrite <- Hval in HB.
  pose proof (divisor_positive b den ltac:(lia) Hden Hnz) as HD.
  pose proof Hnum as (Hnlp & _). pose proof Hden as (Hdlp & _).
  pose proof Hwf as (Hqlp & _).
  assert (HP : 0 < b ^ rr num) by (apply Z.pow_pos_nonneg; unfold rr; lia).
  assert (HS : 0 < b ^ scale) by (apply Z.pow_pos_nonneg; lia).
  rewrite Z.pow_add_r in HB by (unfold rr; lia).
  set (A := digits_val b (digits num) * b ^ rr den) in *.
  set (B := digits_val b (digits den) * b ^ rr num) in *.
  set (Q := digits_val b (digits q)) in *.
  assert (HBp : 0 < B) by (unfold B; nia).
  replace (digits_val b (digits num) * (b ^ rr den * b ^ scale))
    with (A * b ^ scale) in HB by (unfold A; ring).
  pose proof (canonical_upper b q ltac:(lia) Hwf) as Up. fold Q in Up.
  assert (Hpos : 0 < lp q ->
                 b ^ (lp q - 1) * B <= A < b ^ lp q * B).
  { intros Hl.
    destruct Hhead as [H|H]; [lia|].
    pose proof (canonical_lower b q ltac:(lia) Hwf Hl H) as Lo. fold Q in Lo.
    replace (len q - 1) with (lp q - 1 + scale) in Lo by lia.
    replace (len q) with (lp q + scale) in Up by lia.
    rewrite Z.pow_add_r in Lo, Up by lia.
    assert (0 < b ^ (lp q - 1)) by (apply Z.pow_pos_nonneg; lia).
    assert (0 < b ^ lp q) by (apply Z.pow_pos_nonneg; lia).
    split.
    - apply (Z.mul_le_mono_pos_r _ _ (b ^ scale)); [exact HS|]. nia.
    - apply (Z.mul_lt_mono_pos_r (b ^ scale)); [exact HS|]. nia. }
  split; [|exact Hpos].
  split.
  - intros H0. replace (len q) with scale in Up by lia.
    apply (Z.mul_lt_mono_pos_r (b ^ scale)); [exact HS|]. nia.
  - intros Hlt.
    destruct (Z.eq_dec (lp q) 0) as [E|E]; [exact E|exfalso].
    destruct (Hpos ltac:(lia)) as [Lo _].
    assert (1 <= b ^ (lp q - 1)) by (apply Z.lt_pred_le, Z.pow_pos_nonneg; lia).
    nia.
Qed.

(** X13: division by one gives the dividend back.  For a divisor of value
    one (in any representation) and the dividend's own number of fractional
    digits as the scale, a dividend in canonical form comes back digit for
    digit.
    The base is one whose cube fits an [int], where the products of lines
    164-167 are exact. *)
Theorem arb_div_by_one b num den c :
  2 <= b <= UARBT_MOD -> b * b * b <= INT_MAX ->
  wf_number b num -> wf_number b den ->
  digits_val b (digits den) = b ^ rr den ->
  (lp num = 0 \/ exists d rest, digits num = d :: rest /\ d <> 0) ->
  exists q,
    arb_div num den c b (rr num) = Ok q
    /\ digits q = digits num /\ lp q = lp num /\ len q = len num.
Proof.
  intros Hb Hint Hnum Hden Hone Hcan.
  pose proof Hnum as (Hnlp & _). pose proof Hden as (Hdlp & _).
  assert (HPd : 0 < b ^ rr den) by (apply Z.pow_pos_nonneg; unfold rr; lia).
  assert (HPn : 0 < b ^ rr num) by (apply Z.pow_pos_nonneg; unfold rr; lia).
  assert (Hnz : iszero den <> 0).
  { intros E. apply (iszero_value b den ltac:(lia) Hden) in E. lia. }
  destruct (arb_div_canonical b num den c (rr num) Hb Hnum Hden Hnz
              ltac:(unfold rr; lia))
    as (q & Hrun & Hwf & Hsc & Hhead & Hval).
  exists q. split; [exact Hrun|].
  apply (canonical_unique b); try assumption; try (unfold rr in *; lia).
  rewrite Hval. unfold quotient_value. rewrite Hone.
  rewrite Z.pow_add_r by (unfold rr; lia).
  apply Z.div_mul. nia.
Qed.

(** X14: the outcomes of [arb_div].  On well-formed operands the engine
    ends the process exactly when the divisor has the value zero, and
    otherwise returns a quotient: it never reads or writes outside a
    buffer, never divides by zero, and its loops come to an end.
    The base is one whose cube fits an [int], where the products of lines
    164-167 are exact. *)
Theorem arb_div_outcome b num den c scale :
  2 <= b <= UARBT_MOD -> b * b * b <= INT_MAX ->
  wf_number b num -> wf_number b den -> 0 <= scale ->
  (digits_val b (digits den) = 0 ->
   arb_div num den c b scale = Exit divide_by_zero)
  /\ (digits_val b (digits den) <> 0 ->
      exists q, arb_div num den c b scale = Ok q)
  /\ arb_div num den c b scale <> Fault
  /\ arb_div num den c b scale <> OutOfFuel.
Proof.
  intros Hb Hint Hnum Hden Hscale.
  assert (H0 : digits_val b (digits den) = 0 ->
               arb_div num den c b scale = Exit divide_by_zero).
  { intros Hz. apply (iszero_value b den ltac:(lia) Hden) in Hz.
    unfold arb_div, arb_div_inter, div_prepare. rewrite Hz. reflexivity. }
  assert (H1 : digits_val b (digits den) <> 0 ->
               exists q, arb_div num den c b scale = Ok q).
  { intros Hz.
    assert (Hnz : iszero den <> 0).
    { intros E. apply Hz, (iszero_value b den ltac:(lia) Hden), E. }
    destruct (arb_div_spec b num den c scale Hb Hnum Hden Hnz Hscale)
      as (q & Hrun & _).
    exists q. exact Hrun. }
  split; [exact H0|]. split; [exact H1|].
  destruct (Z.eq_dec (digits_val b (digits den)) 0) as [E|E].
  - rewrite (H0 E). split; discriminate.
  - destruct (H1 E) as (q & ->). split; discriminate.
Qed.

(** Truncated quotients keep the order of the fractions. *)
Lemma quotient_value_le b n1 d1 n2 d2 scale :
  0 < b -> wf_number b n1 -> wf_number b n2 ->
  0 <= digits_val b (digits n1) ->
  0 < digits_val b (digits d1) -> 0 < digits_val b (digits d2) ->
  0 <= rr d1 -> 0 <= rr d2 -> 0 <= scale ->
  digits_val b (digits n1) * b ^ rr d1 * (digits_val b (digits d2) * b ^ rr n2)
  <= digits_val b (digits n2) * b ^ rr d2 * (digits_val b (digits d1) * b ^ rr n1) ->
  quotient_value b n1 d1 scale <= quotient_value b n2 d2 scale.
Proof.
  intros Hb (Hl1 & _) (Hl2 & _) HN1 HD1 HD2 Hr1 Hr2 Hs Hx.
  unfold quotient_value.
  assert (P1 : 0 < b ^ rr n1) by (apply Z.pow_pos_nonneg; unfold rr; lia).
  assert (P2 : 0 < b ^ rr n2) by (apply Z.pow_pos_nonneg; unfold rr; lia).
  assert (PS : 0 < b ^ scale) by (apply Z.pow_pos_nonneg; lia).
  rewrite !Z.pow_add_r by lia.
  set (A1 := digits_val b (digits n1) * (b ^ rr d1 * b ^ scale)).
  set (A2 := digits_val b (digits n2) * (b ^ rr d2 * b ^ scale)).
  set (B1 := digits_val b (digits d1) * b ^ rr n1).
  set (B2 := digits_val b (digits d2) * b ^ rr n2).
  assert (HB1 : 0 < B1) by (unfold B1; nia).
  assert (HB2 : 0 < B2) by (unfold B2; nia).
  assert (HX : A1 * B2 <= A2 * B1).
  { unfold A1, A2. fold B1 B2 in Hx.
    replace (digits_val b (digits n1) * (b ^ rr d1 * b ^ scale) * B2)
      with (digits_val b (digits n1) * b ^ rr d1 * B2 * b ^ scale) by ring.
    replace (digits_val b (digits n2) * (b ^ rr d2 * b ^ scale) * B1)
      with (digits_val b (digits n2) * b ^ rr d2 * B1 * b ^ scale) by ring.
    apply Z.mul_le_mono_nonneg_r; lia. }
  rewrite <- (Z.div_mul_cancel_r A1 B1 B2) by lia.
  rewrite <- (Z.div_mul_cancel_r A2 B2 B1) by lia.
  rewrite (Z.mul_comm B2 B1).
  apply Z.div_le_mono; nia.
Qed.

(** X18: division keeps the order of fractions.  When [n1 / d1] is at
    most [n2 / d2] (by cross multiplication), the quotient of the first
    division is at most that of the second, both counted in units of the
    last fractional digit: the quotient does not decrease when the
    dividend grows or the divisor shrinks.
    The base is one whose cube fits an [int], where the products of lines
    164-167 are exact. *)
Theorem arb_div_monotone b n1 d1 c1 n2 d2 c2 scale :
  2 <= b <= UARBT_MOD -> b * b * b <= INT_MAX ->
  wf_number b n1 -> wf_number b d1 -> wf_number b n2 -> wf_number b d2 ->
  iszero d1 <> 0 -> iszero d2 <> 0 -> 0 <= scale ->
  digits_val b (digits n1) * b ^ rr d1 * (digits_val b (digits d2) * b ^ rr n2)
  <= digits_val b (digits n2) * b ^ rr d2 * (digits_val b (digits d1) * b ^ rr n1) ->
  exists q1 q2,
    arb_div n1 d1 c1 b scale = Ok q1
    /\ arb_div n2 d2 c2 b scale = Ok q2
    /\ len q1 - lp q1 = scale /\ len q2 - lp q2 = scale
    /\ digits_val b (digits q1) <= digits_val b (digits q2)
    /\ lp q1 <= lp q2.
Proof.
  intros Hb Hint Hn1 Hd1 Hn2 Hd2 Hz1 Hz2 Hscale Hx.
  destruct (arb_div_canonical b n1 d1 c1 scale Hb Hn1 Hd1 Hz1 Hscale)
    as (q1 & Hrun1 & Hwf1 & Hsc1 & Hhead1 & Hval1).
  destruct (arb_div_canonical b n2 d2 c2 scale Hb Hn2 Hd2 Hz2 Hscale)
    as (q2 & Hrun2 & Hwf2 & Hsc2 & Hhead2 & Hval2).
  exists q1, q2. split; [exact Hrun1|]. split; [exact Hrun2|].
  split; [exact Hsc1|]. split; [exact Hsc2|].
  pose proof Hd1 as (Hl1 & _). pose proof Hd2 as (Hl2 & _).
  pose proof Hn1 as (_ & _ & Hnb).
  pose proof (digits_val_bound b _ ltac:(lia) Hnb) as HN1.
  assert (Hle : digits_val b (digits q1) <= digits_val b (digits q2)).
  { rewrite Hval1, Hval2.
    apply quotient_value_le; try assumption; unfold rr; try lia.
    - apply divisor_positive; [lia|assumption|assumption].
    - apply divisor_positive; [lia|assumption|assumption]. }
  split; [exact Hle|].
  destruct (Z.le_gt_cases (lp q1) (lp q2)) as [L|L]; [exact L|exfalso].
  pose proof Hwf2 as (Hlp2 & _).
  destruct Hhead1 as [H|H]; [lia|].
  pose proof (canonical_lower b q1 ltac:(lia) Hwf1 ltac:(lia) H) as Lo.
  pose proof (canonical_upper b q2 ltac:(lia) Hwf2) as Up.
  assert (b ^ len q2 <= b ^ (len q1 - 1)) by (apply Z.pow_le_mono_r; lia).
  lia.
Qed.


(** X15: the invariant of Algorithm D.  After [k] passes of the loop the
    [k] digits written to the quotient, from the first write index on, are
    the quotient of the first [k + leb] digits of the normalized dividend
    by the normalized divisor, the [leb] cells of the dividend from [k] on
    hold the remainder of that division, each digit written is in
    [[0, b)], and the cells of the dividend further right are still
    untouched.
    The base is one whose cube fits an [int], where the products of lines
    164-167 are exact. *)
Theorem partial_quotient b num den scale p0 p k st :
  2 <= b <= UARBT_MOD -> b * b * b <= INT_MAX ->
  wf_number b num -> wf_number b den ->
  iszero den <> 0 -> 0 <= scale ->
  div_prepare num den (arb_expand (len num + len den + scale)) b scale = Ok p0 ->
  p_out_of_scale p0 = false ->
  div_normalize b p0 = Ok p ->
  Z.of_nat k <= p_lea p + scale - p_leb p + 1 ->
  div_iter k p b (loop_entry p) = Ok st ->
  exists j0 : nat,
    s_j (loop_entry p) = Z.of_nat j0
    /\ s_i st = Z.of_nat k
    /\ s_j st = Z.of_nat (j0 + k)
    /\ in_base b (window (number (s_q st)) j0 k)
    /\ 0 < digits_val b (window (p_vf p) (Z.to_nat (p_v p)) (Z.to_nat (p_leb p)))
    /\ digits_val b (window (number (s_q st)) j0 k)
       = digits_val b (take (k + Z.to_nat (p_leb p)) (p_u p))
         / digits_val b (window (p_vf p) (Z.to_nat (p_v p)) (Z.to_nat (p_leb p)))
    /\ digits_val b (window (s_u st) k (Z.to_nat (p_leb p)))
       = digits_val b (take (k + Z.to_nat (p_leb p)) (p_u p))
         mod digits_val b (window (p_vf p) (Z.to_nat (p_v p)) (Z.to_nat (p_leb p)))
    /\ drop (k + Z.to_nat (p_leb p)) (s_u st)
       = drop (k + Z.to_nat (p_leb p)) (p_u p).
Proof.
  intros Hb Hint Hnum Hden Hnz Hscale Hprep Hoos Hnorm Hk Hrun.
  destruct (pass_state b num den scale p0 p k st Hb Hnum Hden Hnz Hscale Hprep Hoos
              Hnorm Hk Hrun)
    as (ws & vpre & x & rest & vpost & vs & rs & j0 & m & _ & Hfo & HI).
  destruct Hfo as [F1 F2 F3 F4 F5 F6 F7 F8 F9 F10 F11 F12 F13 F14 F15 F16 F17 F18
                      F19 F20 F21 F22].
  destruct HI as [Hi Hj Hul Hub Huh Hut Hrem Hquot Htl Hql Hqh Hqt Hqb Hqlp Hqlen].
  destruct F13 as [Ei Ej _ _ _ _ _ _ _ _ _ _ _ _ _].
  exists j0.
  rewrite F4, F5, F6, F8, !Nat2Z.id, window_app.
  split; [rewrite Ej; f_equal; lia|].
  split; [exact Hi|]. split; [exact Hj|]. split; [exact Hqb|].
  split; [lia|].
  split; [|split; [|exact Hut]].
  - apply (Z.div_unique _ _ _ (digits_val b (window (s_u st) k (length vs))));
      [left; exact Hrem|].
    rewrite Hquot. ring.
  - apply (Z.mod_unique _ _ (digits_val b (window (number (s_q st)) j0 k)));
      [left; exact Hrem|].
    rewrite Hquot. ring.
Qed.

(** What a pass of the loop that ends normally has written. *)
Lemma div_step_writes p b st st' :
  div_step p b st = Ok st' -> 0 <= s_j st ->
  exists d,
    number (s_q st') = <[Z.to_nat (s_j st) := d]> (number (s_q st))
    /\ s_i st' = s_i st + 1 /\ s_j st' = s_j st + 1.
Proof.
  unfold div_step. intros H Hj.
  destruct (trial_digit _ _ _ _ _) as [qt| | |]; try discriminate H.
  cbn [bind] in H.
  destruct (refine_digit _ _ _ _ _ _) as [q1| | |]; try discriminate H.
  cbn [bind] in H.
  destruct (mul_sub_add _ _ _ _ _ _ _ _) as [[[u' t'] qd]| | |]; try discriminate H.
  cbn [bind] in H.
  unfold store in H.
  destruct (Z.ltb_spec (s_j st) 0) as [L|L]; [lia|].
  destruct (number (s_q st) !! Z.to_nat (s_j st)); [|discriminate H].
  cbn [bind] in H. injection H as <-.
  exists qd. cbn [s_q s_i s_j number]. repeat split.
Qed.

(** X16: every pass stores the exact quotient digit.  In pass [k] of a
    division that reaches the loop, with [W] the value of the [leb + 1]
    cells of the dividend from [k] on and [V] the normalized divisor, the
    body of the loop ends normally, the digit it stores at the write index
    is [W / V], a digit of [[0, b)], and the [leb] cells of the dividend
    from [k + 1] on are left holding [W mod V]: trial digit, refinement,
    multiply-and-subtract and add-back together never leave a digit that
    is off by one.
    The base is one whose cube fits an [int], where the products of lines
    164-167 are exact. *)
Theorem pass_digit_exact b num den scale p0 p k st :
  2 <= b <= UARBT_MOD -> b * b * b <= INT_MAX ->
  wf_number b num -> wf_number b den ->
  iszero den <> 0 -> 0 <= scale ->
  div_prepare num den (arb_expand (len num + len den + scale)) b scale = Ok p0 ->
  p_out_of_scale p0 = false ->
  div_normalize b p0 = Ok p ->
  Z.of_nat k <= p_lea p + scale - p_leb p ->
  div_iter k p b (loop_entry p) = Ok st ->
  exists st',
    div_step p b st = Ok st'
    /\ number (s_q st')
       = <[Z.to_nat (s_j st) :=
             digits_val b (window (s_u st) k (S (Z.to_nat (p_leb p))))
             / digits_val b (window (p_vf p) (Z.to_nat (p_v p)) (Z.to_nat (p_leb p)))]>
           (number (s_q st))
    /\ 0 <= digits_val b (window (s_u st) k (S (Z.to_nat (p_leb p))))
            / digits_val b (window (p_vf p) (Z.to_nat (p_v p)) (Z.to_nat (p_leb p)))
       < b
    /\ digits_val b (window (s_u st') (S k) (Z.to_nat (p_leb p)))
       = digits_val b (window (s_u st) k (S (Z.to_nat (p_leb p))))
         mod digits_val b (window (p_vf p) (Z.to_nat (p_v p)) (Z.to_nat (p_leb p)))
    /\ s_i st' = s_i st + 1 /\ s_j st' = s_j st + 1.
Proof.
  intros Hb Hint Hnum Hden Hnz Hscale Hprep Hoos Hnorm Hk Hrun.
  destruct (pass_state b num den scale p0 p k st Hb Hnum Hden Hnz Hscale Hprep Hoos
              Hnorm ltac:(lia) Hrun)
    as (ws & vpre & x & rest & vpost & vs & rs & j0 & m & _ & Hfo & HI).
  destruct Hfo as [F1 F2 F3 F4 F5 F6 F7 F8 F9 F10 F11 F12 F13 F14 F15 F16 F17 F18
                      F19 F20 F21 F22].
  assert (Hu0l : (m + length vs + 2 <= length (rs ++ [0%Z; 0%Z]))%nat)
    by (rewrite length_app; simpl length; lia).
  destruct (div_step_inv b p vpre vs vpost (rs ++ [0; 0]) (p_temp p) (p_q p) j0 m
              Hb F1 F2 F3 F4 F5 F6 Hu0l F11 F12 k st ltac:(lia) HI)
    as (st' & Hstep & HI').
  destruct HI as [Hi Hj Hul Hub Huh Hut Hrem Hquot Htl Hql Hqh Hqt Hqb Hqlp Hqlen].
  destruct HI' as [Hi' Hj' Hul' Hub' Huh' Hut' Hrem' Hquot' Htl' Hql' Hqh' Hqt' Hqb'
                       Hqlp' Hqlen'].
  destruct (div_step_writes p b st st' Hstep ltac:(lia)) as (d & Hd & Hsi & Hsj).
  rewrite Hj, Nat2Z.id in Hd.
  assert (Hqw : window (number (s_q st')) j0 (S k)
                = window (number (s_q st)) j0 k ++ [d]).
  { rewrite Hd.
    rewrite (window_snoc _ j0 k d) by (apply list_lookup_insert_eq; lia).
    rewrite window_insert_outside by lia. reflexivity. }
  assert (Lx : (rs ++ [0; 0]) !! (k + length vs)%nat
               = Some (s_u st !!! (k + length vs)%nat)).
  { rewrite <- (drop_eq_lookup _ _ _ Hut). apply lookup_total_Some. lia. }
  assert (HW : digits_val b (window (s_u st) k (S (length vs)))
               = digits_val b (window (s_u st) k (length vs)) * b
                 + s_u st !!! (k + length vs)%nat).
  { rewrite (window_snoc _ k (length vs) (s_u st !!! (k + length vs)%nat))
      by (apply lookup_total_Some; lia).
    apply digits_val_snoc. }
  replace (S k + length vs)%nat with (S (k + length vs)) in Hquot' by lia.
  rewrite (take_S_r _ _ _ Lx), digits_val_snoc, Hquot, Hqw, digits_val_snoc
    in Hquot'.
  rewrite Hqw in Hqb'. apply in_base_app in Hqb' as [_ Hdb].
  apply Forall_cons in Hdb as [Hdb _].
  assert (HWd : digits_val b (window (s_u st) k (S (length vs)))
                = digits_val b vs * d
                  + digits_val b (window (s_u st') (S k) (length vs))) by lia.
  assert (Ed : d = digits_val b (window (s_u st) k (S (length vs))) / digits_val b vs).
  { apply (Z.div_unique _ _ _ (digits_val b (window (s_u st') (S k) (length vs))));
      [left; exact Hrem'|exact HWd]. }
  exists st'. rewrite F4, F5, F6, Hj, !Nat2Z.id, window_app.
  split; [exact Hstep|]. rewrite <- Ed.
  split; [exact Hd|]. split; [exact Hdb|].
  split; [|split; [exact Hsi|rewrite Hsj, Hj; reflexivity]].
  apply (Z.mod_unique _ _ d); [left; exact Hrem'|exact HWd].
Qed.


(** X17: multiplying by a digit and dividing by it again.  [shmul] run on
    a zero guard cell followed by the digits [ws] of an integer, as the
    engine runs it, leaves the digits of [ws * d]; [arb_div] of that
    integer by the one-digit integer [d] at scale 0 returns the digits
    [ws], when no zero leads them.
    The base is one whose cube fits an [int], where the products of lines
    164-167 are exact. *)
Theorem shmul_div_round_trip b d ws c :
  2 <= b <= UARBT_MOD -> b * b * b <= INT_MAX ->
  1 <= d < b -> in_base b ws ->
  (ws = [] \/ exists h t, ws = h :: t /\ h <> 0) ->
  exists rs q,
    shmul (0 :: ws) 0 (Z.of_nat (S (length ws))) d 0 b = Ok rs
    /\ digits_val b rs = digits_val b ws * d
    /\ arb_div (mk_fxdpnt rs (Z.of_nat (S (length ws))) (Z.of_nat (S (length ws))))
               (mk_fxdpnt [d] 1 1) c b 0
       = Ok q
    /\ digits q = ws
    /\ lp q = Z.of_nat (length ws) /\ len q = Z.of_nat (length ws).
Proof.
  intros Hb Hint Hd Hws Hcan.
  pose proof (digits_val_bound b ws ltac:(lia) Hws) as Bw.
  pose proof (Zpow_nat_pos b (length ws) ltac:(lia)) as HP.
  assert (H0 : in_base b (0 :: ws)) by (apply Forall_cons; split; [lia|exact Hws]).
  destruct (shmul_in_place b d [] (0 :: ws) [] ltac:(lia) ltac:(lia) H0)
    as (rs & Hrun & Hrl & Hrb & Hrv).
  { rewrite digits_val_zero_cons.
    replace (Z.of_nat (length (0 :: ws))) with (Z.succ (Z.of_nat (length ws)))
      by (simpl length; lia).
    rewrite Z.pow_succ_r by lia. nia. }
  simpl app in Hrun. rewrite !app_nil_r in Hrun. simpl length in Hrun.
  change (Z.of_nat (length (@nil Z))) with 0 in Hrun.
  rewrite digits_val_zero_cons in Hrv. simpl length in Hrl.
  set (n := length ws) in *.
  set (num := mk_fxdpnt rs (Z.of_nat (S n)) (Z.of_nat (S n))).
  set (den := mk_fxdpnt [d] 1 1).
  assert (Hdn : digits num = rs).
  { unfold digits, num. cbn [len number]. apply take_ge. lia. }
  assert (Hdd : digits den = [d]) by reflexivity.
  assert (Wn : wf_number b num).
  { unfold wf_number. rewrite Hdn. unfold num. cbn [lp len number].
    split; [lia|]. split; [lia|exact Hrb]. }
  assert (Wd : wf_number b den).
  { unfold wf_number. rewrite Hdd. unfold den. cbn [lp len number]. simpl length.
    split; [lia|]. split; [lia|]. apply Forall_cons. split; [lia|constructor]. }
  assert (Vd : digits_val b (digits den) = d) by reflexivity.
  assert (Hnz : iszero den <> 0).
  { intros E. apply (iszero_value b den ltac:(lia) Wd) in E. lia. }
  destruct (arb_div_canonical b num den c 0 Hb Wn Wd Hnz ltac:(lia))
    as (q & Hq & Hwf & Hsc & Hhead & Hval).
  exists rs, q.
  split; [exact Hrun|]. split; [exact Hrv|]. split; [exact Hq|].
  set (t := mk_fxdpnt ws (Z.of_nat n) (Z.of_nat n)).
  assert (Hdt : digits t = ws).
  { unfold digits, t. cbn [len number]. apply take_ge. unfold n. lia. }
  assert (Wt : wf_number b t).
  { unfold wf_number. rewrite Hdt. unfold t. cbn [lp len number]. fold n.
    split; [lia|]. split; [lia|exact Hws]. }
  destruct (canonical_unique b q t ltac:(lia) Hwf Wt) as (E1 & E2 & E3).
  - unfold t. cbn [lp len]. lia.
  - exact Hhead.
  - rewrite Hdt. unfold t. cbn [lp].
    destruct Hcan as [->|Hc]; [left; reflexivity|right; exact Hc].
  - rewrite Hval, Hdt. unfold quotient_value. rewrite Hdn, Vd, Hrv.
    unfold rr, num, den. cbn [lp len].
    replace (1 - 1 + 0) with 0 by lia.
    replace (Z.of_nat (S n) - Z.of_nat (S n)) with 0 by lia.
    rewrite Z.pow_0_r, !Z.mul_1_r. apply Z.div_mul. lia.
  - rewrite E1, E2, E3, Hdt. unfold t. cbn [lp len]. repeat split.
Qed.

(** C2 on the code: a zero divisor takes the engine to [arb_error], which
    ends the process ("TODO: don't exit on zero", div.c line 3); no buffer
    has been allocated at that point. *)
Lemma arb_div_inter_zero_divisor num den q b scale :
  iszero den = 0 -> arb_div_inter num den q b scale = Exit divide_by_zero.
Proof.
  intros H. unfold arb_div_inter, div_prepare. rewrite H. reflexivity.
Qed.

End Engine.

(** * Concrete runs, with digits held in an eight-bit [UARBT] *)

Ltac wf_tac :=
  unfold wf_number, digits; cbn; repeat split; try lia; repeat constructor; lia.

Ltac run_tac := vm_compute; reflexivity.

(** C2, at the input 7 / 0 in base 10: the outcome is the exit of the
    process, not an error value handed back to the caller. *)
Example zero_divisor_exits :
  arb_div 256 [] (mk_fxdpnt [7] 1 1) (mk_fxdpnt [0] 1 1) (mk_fxdpnt [] 0 0) 10 3
  = Exit divide_by_zero.
Proof. reflexivity. Qed.

(** C3 as stated fails at 0.01 / 100 in base 10 at scale 5.  The divisor
    is three digits wide and [lea] is 1, so the early-out is not taken and
    the claim's count of produced digits is 1 - 3 + 5 + 1 = 4, which is the
    number of passes of the loop; the integer part it gives is 4 - 5 = -1
    digits long.  The code shapes the quotient with [quodig = 6] digits, one
    of them an integer digit, and hands back no integer digit once the
    leading zero is removed: neither length is the claim's. *)
Example sizing_claim_refuted :
  exists p0 p st q,
    div_prepare [] (mk_fxdpnt [0; 0; 1] 1 3) (mk_fxdpnt [1; 0; 0] 3 3)
                (arb_expand 11) 10 5 = Ok p0
    /\ p_lea p0 = 1 /\ p_leb p0 = 3
    /\ p_leb p0 <= p_lea p0 + 5
    /\ div_normalize 256 10 p0 = Ok p
    /\ div_loop 256 4 p 10 5 (loop_entry p) = Ok st
    /\ s_i st = p_lea p0 - p_leb p0 + 5 + 1
    /\ arb_div 256 [] (mk_fxdpnt [0; 0; 1] 1 3) (mk_fxdpnt [1; 0; 0] 3 3)
               (mk_fxdpnt [] 0 0) 10 5 = Ok q
    /\ p_quodig p0 = 6
    /\ lp (p_q p0) = 1
    /\ lp q = 0
    /\ lp (p_q p0) <> (p_lea p0 - p_leb p0 + 5 + 1) - 5
    /\ lp q <> (p_lea p0 - p_leb p0 + 5 + 1) - 5.
Proof.
  do 4 eexists.
  split; [run_tac|]. split; [reflexivity|]. split; [reflexivity|].
  split; [cbn; lia|]. split; [run_tac|]. split; [run_tac|].
  split; [reflexivity|]. split; [run_tac|]. cbn. repeat split; lia.
Qed.

(** C4 as stated fails: for 0.01 / 100 in base 10 at scale 5 no run of the
    engine both takes the early-out and returns a zero quotient, whether the
    dividend is held as 0.01 (one integer digit) or as .01 (none). *)
Example early_out_scenario_refuted :
  ~ (exists p0 q,
        div_prepare [] (mk_fxdpnt [0; 0; 1] 1 3) (mk_fxdpnt [1; 0; 0] 3 3)
                    (arb_expand 11) 10 5 = Ok p0
        /\ p_out_of_scale p0 = true
        /\ arb_div 256 [] (mk_fxdpnt [0; 0; 1] 1 3) (mk_fxdpnt [1; 0; 0] 3 3)
                   (mk_fxdpnt [] 0 0) 10 5 = Ok q
        /\ digits_val 10 (digits q) = 0)
  /\ ~ (exists p0 q,
          div_prepare [] (mk_fxdpnt [0; 1] 0 2) (mk_fxdpnt [1; 0; 0] 3 3)
                      (arb_expand 10) 10 5 = Ok p0
          /\ p_out_of_scale p0 = true
          /\ arb_div 256 [] (mk_fxdpnt [0; 1] 0 2) (mk_fxdpnt [1; 0; 0] 3 3)
                     (mk_fxdpnt [] 0 0) 10 5 = Ok q
          /\ digits_val 10 (digits q) = 0).
Proof.
  split; intros (p0 & q & H1 & H2 & H3 & H4);
    vm_compute in H3; injection H3 as <-;
    vm_compute in H4; discriminate H4.
Qed.

(** C4 as the code has it: 0.01 / 100 in base 10 at scale 5 is 0.00010.
    The divisor width 3 does not exceed [lea + scale = 6], so the loop runs,
    for four passes, and the quotient has the digits 0,0,0,1,0 behind the
    point and none before it once the leading zero is removed.  With the
    dividend held as .01 the loop runs for three passes, to the same
    quotient. *)
Example small_dividend_scenario :
  (exists p0 p st q,
      div_prepare [] (mk_fxdpnt [0; 0; 1] 1 3) (mk_fxdpnt [1; 0; 0] 3 3)
                  (arb_expand 11) 10 5 = Ok p0
      /\ p_out_of_scale p0 = false
      /\ p_lea p0 = 1 /\ p_leb p0 = 3
      /\ div_normalize 256 10 p0 = Ok p
      /\ div_loop 256 4 p 10 5 (loop_entry p) = Ok st
      /\ s_i st = 4
      /\ arb_div 256 [] (mk_fxdpnt [0; 0; 1] 1 3) (mk_fxdpnt [1; 0; 0] 3 3)
                 (mk_fxdpnt [] 0 0) 10 5 = Ok q
      /\ q = remove_leading_zeros (s_q st)
      /\ digits q = [0; 0; 0; 1; 0] /\ lp q = 0 /\ len q = 5)
  /\ (exists p0 p st q,
        div_prepare [] (mk_fxdpnt [0; 1] 0 2) (mk_fxdpnt [1; 0; 0] 3 3)
                    (arb_expand 10) 10 5 = Ok p0
        /\ p_out_of_scale p0 = false
        /\ p_lea p0 = 0 /\ p_leb p0 = 3
        /\ div_normalize 256 10 p0 = Ok p
        /\ div_loop 256 3 p 10 5 (loop_entry p) = Ok st
        /\ s_i st = 3
        /\ arb_div 256 [] (mk_fxdpnt [0; 1] 0 2) (mk_fxdpnt [1; 0; 0] 3 3)
                   (mk_fxdpnt [] 0 0) 10 5 = Ok q
        /\ q = remove_leading_zeros (s_q st)
        /\ digits q = [0; 0; 0; 1; 0] /\ lp q = 0 /\ len q = 5).
Proof.
  split; do 4 eexists;
    (split; [run_tac|]); (split; [reflexivity|]); (split; [reflexivity|]);
    (split; [reflexivity|]); (split; [run_tac|]); (split; [run_tac|]);
    (split; [reflexivity|]); (split; [run_tac|]); repeat split.
Qed.

(** C5 as stated fails at an odd base.  In base 3 the divisor 12 leads
    with 1, the factor is [3 / (1 + 1) = 1], nothing is multiplied, and the
    leading digit stays 1, which is the integer half of the base but less
    than 3/2. *)
Example normalization_claim_refuted :
  exists p0 p v0',
    div_prepare [] (mk_fxdpnt [1; 2] 2 2) (mk_fxdpnt [1; 2] 2 2) (arb_expand 4) 3 0
    = Ok p0
    /\ p_out_of_scale p0 = false
    /\ div_norm 256 3 p0 = Ok 1
    /\ div_normalize 256 3 p0 = Ok p
    /\ load (p_vf p) (p_v p) = Ok v0'
    /\ v0' = 1
    /\ 2 * v0' < 3.
Proof.
  do 2 eexists. exists 1.
  split; [run_tac|]. split; [reflexivity|]. split; [run_tac|].
  split; [run_tac|]. split; [run_tac|]. split; [reflexivity|]. lia.
Qed.

(** C7 as stated fails at 1000 / 143 in base 10 at scale 0.  In the second
    pass the window [u[1..4]] holds 5000 and the normalized divisor is 715;
    the digit 7 makes the subtract borrow, and the add-back leaves the
    digit 6.  Adding the divisor back into the window the subtract used
    would leave 5000 - 6 * 715 = 0710 in it.  The code adds to the three
    low cells only: the window is left holding 9710, the carry out of the
    add is not taken into the top cell [u[1]]. *)
Example add_back_window_refuted :
  exists p0 p st st' u' temp',
    div_prepare [] (mk_fxdpnt [1; 0; 0; 0] 4 4) (mk_fxdpnt [1; 4; 3] 3 3)
                (arb_expand 7) 10 0 = Ok p0
    /\ div_normalize 256 10 p0 = Ok p
    /\ div_iter 256 1 p 10 (loop_entry p) = Ok st
    /\ s_i st = 1
    /\ p_leb p = 3
    /\ window (s_u st) 1 4 = [5; 0; 0; 0]
    /\ window (p_vf p) (Z.to_nat (p_v p)) 3 = [7; 1; 5]
    /\ trial_digit 256 (p_vf p) (p_v p) (s_u st) (s_i st) 10 = Ok 7
    /\ refine_digit 256 (p_vf p) (p_v p) (s_u st) (s_i st) 10 7 = Ok 7
    /\ mul_sub_add 256 (p_vf p) (p_v p) (p_leb p) (s_u st) (s_temp st) (s_i st) 10 7
       = Ok (u', temp', 6)
    /\ div_step 256 p 10 st = Ok st'
    /\ s_u st' = u'
    /\ window u' 1 4 = [9; 7; 1; 0]
    /\ digits_val 10 (window u' 1 4) <> 5000 - 6 * 715.
Proof.
  do 6 eexists.
  split; [run_tac|]. split; [run_tac|]. split; [run_tac|].
  split; [reflexivity|]. split; [reflexivity|]. split; [reflexivity|].
  split; [reflexivity|]. split; [run_tac|]. split; [run_tac|].
  split; [run_tac|]. split; [run_tac|]. split; [reflexivity|].
  split; [reflexivity|]. vm_compute. discriminate.
Qed.

(** ** The theorems at work on concrete inputs *)

(** 23 - 56 in base 10 borrows and leaves 67; adding 56 back restores 23. *)
Lemma long_sub_add_inverse_witness :
  (0 < 10 <= 256 /\ in_base 10 [2; 3] /\ in_base 10 [5; 6]
   /\ length [2; 3] = length [5; 6]
   /\ 1 = Z.of_nat (length [2; 3]) - 1
   /\ 0 + 2 = Z.of_nat (length [1]) + Z.of_nat (length [2; 3]) - 1
   /\ 0 + 1 = Z.of_nat (length (@nil Z)) + Z.of_nat (length [5; 6]) - 1)
  /\ exists rs borrow,
       _long_sub 256 ([1] ++ [2; 3] ++ [4]) 0 2 ([] ++ [5; 6] ++ []) 0 1 10
       = Ok ([1] ++ rs ++ [4], borrow)
       /\ length rs = length [2; 3]
       /\ _long_add 256 ([1] ++ rs ++ [4]) 0 2 ([] ++ [5; 6] ++ []) 0 1 10
          = Ok ([1] ++ [2; 3] ++ [4], borrow).
Proof.
  assert (H1 : 0 < 10 <= 256) by lia.
  assert (H2 : in_base 10 [2; 3]) by (repeat constructor; lia).
  assert (H3 : in_base 10 [5; 6]) by (repeat constructor; lia).
  split; [repeat split; assumption || lia|].
  apply (long_sub_add_inverse 256 10 [1] [2; 3] [4] [] [5; 6] [] 0 2 0 1);
    assumption || reflexivity.
Defined.

(** 999 * 7 in base 10, in place: the carry 6 lands in the spare cell. *)
Lemma shmul_refines_scale_witness :
  (0 < 10 <= 256 /\ 10 * 10 <= INT_MAX /\ 0 <= 7 < 10 /\ in_base 10 (window [0; 9; 9; 9] 1 3)
   /\ (1 + 3 <= length [0; 9; 9; 9])%nat /\ (1 + 3 <= length [0; 9; 9; 9])%nat
   /\ (1 = 1 \/ 1 + 3 <= 1 \/ 1 + 3 <= 1)%nat)
  /\ (shmul 256 [0; 9; 9; 9] (Z.of_nat 1) (Z.of_nat 3) 7 (Z.of_nat 1) 10
      = scale [0; 9; 9; 9] 1 3 7 1 10
      /\ (7 = 0 -> scale [0; 9; 9; 9] 1 3 7 1 10
                   = Ok (splice [0; 9; 9; 9] 1 (replicate 3 0)))
      /\ (7 = 1 -> scale [0; 9; 9; 9] 1 3 7 1 10
                   = Ok (splice [0; 9; 9; 9] 1 (window [0; 9; 9; 9] 1 3)))
      /\ digits_val 10 (scale_digits 10 7 (window [0; 9; 9; 9] 1 3)).1
         + (scale_digits 10 7 (window [0; 9; 9; 9] 1 3)).2 * 10 ^ Z.of_nat 3
         = digits_val 10 (window [0; 9; 9; 9] 1 3) * 7).
Proof.
  assert (H1 : 0 < 10 <= 256) by lia.
  assert (Hi : 10 * 10 <= INT_MAX) by (unfold INT_MAX; lia).
  assert (H2 : 0 <= 7 < 10) by lia.
  assert (H3 : in_base 10 (window [0; 9; 9; 9] 1 3)) by (repeat constructor; lia).
  assert (H4 : (1 + 3 <= length [0; 9; 9; 9])%nat) by (simpl; lia).
  assert (H5 : (1 = 1 \/ 1 + 3 <= 1 \/ 1 + 3 <= 1)%nat) by (left; reflexivity).
  split; [repeat split; assumption || lia|].
  apply (shmul_refines_scale 256 [0; 9; 9; 9] 1 3 1 7 10); assumption.
Defined.

(** 1000 / 3 in base 10 at scale 4. *)
Lemma arb_div_reconstruction_witness :
  (2 <= 10 <= 256 /\ 10 * 10 * 10 <= INT_MAX /\ wf_number 10 (mk_fxdpnt [1; 0; 0; 0] 4 4)
   /\ wf_number 10 (mk_fxdpnt [3] 1 1) /\ iszero (mk_fxdpnt [3] 1 1) <> 0 /\ 0 <= 4)
  /\ exists q,
       arb_div 256 [] (mk_fxdpnt [1; 0; 0; 0] 4 4) (mk_fxdpnt [3] 1 1)
               (mk_fxdpnt [] 0 0) 10 4 = Ok q
       /\ len q - lp q = 4
       /\ exists r,
            digits_val 10 (digits q)
            * (digits_val 10 (digits (mk_fxdpnt [3] 1 1))
               * 10 ^ rr (mk_fxdpnt [1; 0; 0; 0] 4 4)) + r
            = digits_val 10 (digits (mk_fxdpnt [1; 0; 0; 0] 4 4))
              * 10 ^ (rr (mk_fxdpnt [3] 1 1) + 4)
            /\ 0 <= r < digits_val 10 (digits (mk_fxdpnt [3] 1 1))
                        * 10 ^ rr (mk_fxdpnt [1; 0; 0; 0] 4 4).
Proof.
  assert (H1 : 2 <= 10 <= 256) by lia.
  assert (Hi : 10 * 10 * 10 <= INT_MAX) by (unfold INT_MAX; lia).
  assert (H2 : wf_number 10 (mk_fxdpnt [1; 0; 0; 0] 4 4)) by wf_tac.
  assert (H3 : wf_number 10 (mk_fxdpnt [3] 1 1)) by wf_tac.
  assert (H4 : iszero (mk_fxdpnt [3] 1 1) <> 0) by (vm_compute; discriminate).
  assert (H5 : 0 <= 4) by lia.
  split; [exact (conj H1 (conj Hi (conj H2 (conj H3 (conj H4 H5)))))|].
  apply (arb_div_reconstruction 256 [] 10); assumption.
Defined.

Lemma arb_div_invariant_witness :
  (2 <= 10 <= 256 /\ 10 * 10 * 10 <= INT_MAX /\ wf_number 10 (mk_fxdpnt [1; 0; 0; 0] 4 4)
   /\ wf_number 10 (mk_fxdpnt [3] 1 1) /\ iszero (mk_fxdpnt [3] 1 1) <> 0 /\ 0 <= 4)
  /\ exists q,
       arb_div 256 [] (mk_fxdpnt [1; 0; 0; 0] 4 4) (mk_fxdpnt [3] 1 1)
               (mk_fxdpnt [] 0 0) 10 4 = Ok q
       /\ in_base 10 (digits q)
       /\ 0 <= lp q <= len q
       /\ len q = Z.of_nat (length (digits q))
       /\ (lp q = 0 \/ exists d rest, digits q = d :: rest /\ d <> 0).
Proof.
  assert (H1 : 2 <= 10 <= 256) by lia.
  assert (Hi : 10 * 10 * 10 <= INT_MAX) by (unfold INT_MAX; lia).
  assert (H2 : wf_number 10 (mk_fxdpnt [1; 0; 0; 0] 4 4)) by wf_tac.
  assert (H3 : wf_number 10 (mk_fxdpnt [3] 1 1)) by wf_tac.
  assert (H4 : iszero (mk_fxdpnt [3] 1 1) <> 0) by (vm_compute; discriminate).
  assert (H5 : 0 <= 4) by lia.
  split; [exact (conj H1 (conj Hi (conj H2 (conj H3 (conj H4 H5)))))|].
  apply (arb_div_invariant 256 [] 10); assumption.
Defined.

(** 1000 / 143 in base 10 at scale 0: two passes; the second one guesses 7,
    borrows, and adds back to give 6. *)
Local Abbreviation ex_num := (mk_fxdpnt [1; 0; 0; 0] 4 4).
Local Abbreviation ex_den := (mk_fxdpnt [1; 4; 3] 3 3).
Local Abbreviation ex_q := (arb_expand (len ex_num + len ex_den + 0)).

Lemma sizing_and_early_out_witness :
  exists p0,
    (2 <= 10 <= 256 /\ wf_number 10 ex_num /\ wf_number 10 ex_den
     /\ iszero ex_den <> 0 /\ 0 <= 0
     /\ div_prepare [] ex_num ex_den ex_q 10 0 = Ok p0)
    /\ p_lea p0 = rl ex_num + rr ex_den
    /\ (exists z x rest,
          digits ex_den = replicate z 0 ++ x :: rest /\ x <> 0
          /\ p_leb p0 = Z.of_nat (S (length rest)))
    /\ p_out_of_scale p0 = (p_leb p0 >? p_lea p0 + 0)
    /\ lp (p_q p0) = p_quodig p0 - 0
    /\ len (p_q p0) = p_quodig p0
    /\ (p_leb p0 > p_lea p0 + 0 ->
        arb_div 256 [] ex_num ex_den (mk_fxdpnt [] 0 0) 10 0
        = Ok (remove_leading_zeros (p_q p0))
        /\ p_quodig p0 = 0 + 1
        /\ digits (p_q p0) = replicate (Z.to_nat (0 + 1)) 0
        /\ quotient_value 10 ex_num ex_den 0 = 0)
    /\ (p_leb p0 <= p_lea p0 + 0 ->
        p_quodig p0
        = (if p_leb p0 >? p_lea p0 then 0 + 1 else p_lea p0 - p_leb p0 + 0 + 1)
        /\ exists p st,
             div_normalize 256 10 p0 = Ok p
             /\ div_iter 256 (Z.to_nat (p_lea p0 - p_leb p0 + 0 + 1)) p 10 (loop_entry p)
                = Ok st
             /\ s_i st = p_lea p0 - p_leb p0 + 0 + 1
             /\ s_j st = p_quodig p0
             /\ arb_div 256 [] ex_num ex_den (mk_fxdpnt [] 0 0) 10 0
                = Ok (remove_leading_zeros (s_q st))
             /\ lp (s_q st) = lp (p_q p0)
             /\ len (s_q st) = len (p_q p0)).
Proof.
  let r0 := eval vm_compute in (div_prepare [] ex_num ex_den ex_q 10 0) in
  lazymatch r0 with Ok ?p0 => exists p0 end.
  assert (H1 : 2 <= 10 <= 256) by lia.
  assert (H2 : wf_number 10 ex_num) by wf_tac.
  assert (H3 : wf_number 10 ex_den) by wf_tac.
  assert (H4 : iszero ex_den <> 0) by (vm_compute; discriminate).
  assert (H5 : 0 <= 0) by lia.
  match goal with
  | |- (_ /\ _ /\ _ /\ _ /\ _ /\ ?E) /\ _ =>
    assert (H6 : E) by run_tac;
    split; [exact (conj H1 (conj H2 (conj H3 (conj H4 (conj H5 H6)))))|]
  end.
  apply (sizing_and_early_out 256 [] 10 ex_num ex_den (mk_fxdpnt [] 0 0) 0 _
           H1 H2 H3 H4 H5 H6).
Defined.

Lemma normalization_step_witness :
  exists p0,
    (2 <= 10 <= 256 /\ 10 * 10 <= INT_MAX /\ wf_number 10 ex_num /\ wf_number 10 ex_den
     /\ iszero ex_den <> 0 /\ 0 <= 0
     /\ div_prepare [] ex_num ex_den ex_q 10 0 = Ok p0
     /\ p_out_of_scale p0 = false)
    /\ exists v0 p v0',
         load (p_vf p0) (p_v p0) = Ok v0
         /\ div_norm 256 10 p0 = Ok (10 / (v0 + 1))
         /\ div_normalize 256 10 p0 = Ok p
         /\ (10 / (v0 + 1) <> 1 ->
             shmul 256 (p_u p0) 0 (p_lea p0 + p_uscal p0 + p_offset p0 + 1)
                   (10 / (v0 + 1)) 0 10 = Ok (p_u p)
             /\ shmul 256 (p_vf p0) (p_v p0) (p_leb p0) (10 / (v0 + 1)) (p_v p0) 10
                = Ok (p_vf p))
         /\ (10 / (v0 + 1) = 1 -> p = p0)
         /\ digits_val 10 (window (p_u p) 0
               (Z.to_nat (p_lea p0 + p_uscal p0 + p_offset p0 + 1)))
            = digits_val 10 (window (p_u p0) 0
                (Z.to_nat (p_lea p0 + p_uscal p0 + p_offset p0 + 1)))
              * (10 / (v0 + 1))
         /\ digits_val 10 (window (p_vf p) (Z.to_nat (p_v p0)) (Z.to_nat (p_leb p0)))
            = digits_val 10 (window (p_vf p0) (Z.to_nat (p_v p0))
                                    (Z.to_nat (p_leb p0)))
              * (10 / (v0 + 1))
         /\ load (p_vf p) (p_v p) = Ok v0'
         /\ 10 / 2 <= v0'.
Proof.
  let r0 := eval vm_compute in (div_prepare [] ex_num ex_den ex_q 10 0) in
  lazymatch r0 with Ok ?p0 => exists p0 end.
  assert (H1 : 2 <= 10 <= 256) by lia.
  assert (Hi : 10 * 10 <= INT_MAX) by (unfold INT_MAX; lia).
  assert (H2 : wf_number 10 ex_num) by wf_tac.
  assert (H3 : wf_number 10 ex_den) by wf_tac.
  assert (H4 : iszero ex_den <> 0) by (vm_compute; discriminate).
  assert (H5 : 0 <= 0) by lia.
  match goal with
  | |- (_ /\ _ /\ _ /\ _ /\ _ /\ _ /\ ?E /\ ?F) /\ _ =>
    assert (H6 : E) by run_tac;
    assert (H7 : F) by reflexivity;
    split; [exact (conj H1 (conj Hi (conj H2 (conj H3 (conj H4 (conj H5 (conj H6 H7)))))))|]
  end.
  apply (normalization_step 256 [] 10 ex_num ex_den ex_q 0 _ H1 Hi H2 H3 H4 H5 H6 H7).
Defined.

Lemma trial_digit_refinement_witness :
  exists p0 p st,
    (2 <= 10 <= 256 /\ 10 * 10 * 10 <= INT_MAX /\ wf_number 10 ex_num /\ wf_number 10 ex_den
     /\ iszero ex_den <> 0 /\ 0 <= 0
     /\ div_prepare [] ex_num ex_den ex_q 10 0 = Ok p0
     /\ p_out_of_scale p0 = false
     /\ div_normalize 256 10 p0 = Ok p
     /\ Z.of_nat 1 <= p_lea p + 0 - p_leb p
     /\ div_iter 256 1 p 10 (loop_entry p) = Ok st)
    /\ exists ui ui1 ui2 v0 v1 q1,
         s_i st = Z.of_nat 1
         /\ load (s_u st) (s_i st) = Ok ui
         /\ load (s_u st) (s_i st + 1) = Ok ui1
         /\ load (s_u st) (s_i st + 2) = Ok ui2
         /\ load (p_vf p) (p_v p) = Ok v0
         /\ load (p_vf p) (p_v p + 1) = Ok v1
         /\ trial_digit 256 (p_vf p) (p_v p) (s_u st) (s_i st) 10
            = Ok (if v0 =? ui then 10 - 1 else (ui * 10 + ui1) / v0)
         /\ refine_digit 256 (p_vf p) (p_v p) (s_u st) (s_i st) 10
                         (if v0 =? ui then 10 - 1 else (ui * 10 + ui1) / v0)
            = Ok q1
         /\ (if v0 =? ui then 10 - 1 else (ui * 10 + ui1) / v0) - 2 <= q1
         /\ q1 <= (if v0 =? ui then 10 - 1 else (ui * 10 + ui1) / v0)
         /\ digits_val 10 (window (s_u st) 1 (S (Z.to_nat (p_leb p))))
            / digits_val 10 (window (p_vf p) (Z.to_nat (p_v p)) (Z.to_nat (p_leb p)))
            <= q1
         /\ q1 <= digits_val 10 (window (s_u st) 1 (S (Z.to_nat (p_leb p))))
                  / digits_val 10 (window (p_vf p) (Z.to_nat (p_v p))
                                          (Z.to_nat (p_leb p)))
                  + 1.
Proof.
  let r0 := eval vm_compute in (div_prepare [] ex_num ex_den ex_q 10 0) in
  lazymatch r0 with
  | Ok ?p0 =>
    exists p0;
    let r1 := eval vm_compute in (div_normalize 256 10 p0) in
    lazymatch r1 with
    | Ok ?p =>
      exists p;
      let r2 := eval vm_compute in (div_iter 256 1 p 10 (loop_entry p)) in
      lazymatch r2 with Ok ?st => exists st end
    end
  end.
  assert (H1 : 2 <= 10 <= 256) by lia.
  assert (Hi : 10 * 10 * 10 <= INT_MAX) by (unfold INT_MAX; lia).
  assert (H2 : wf_number 10 ex_num) by wf_tac.
  assert (H3 : wf_number 10 ex_den) by wf_tac.
  assert (H4 : iszero ex_den <> 0) by (vm_compute; discriminate).
  assert (H5 : 0 <= 0) by lia.
  match goal with
  | |- (_ /\ _ /\ _ /\ _ /\ _ /\ _ /\ ?E /\ ?F /\ ?G /\ ?H /\ ?I) /\ _ =>
    assert (H6 : E) by run_tac;
    assert (H7 : F) by reflexivity;
    assert (H8 : G) by run_tac;
    assert (H9 : H) by (vm_compute; discriminate);
    assert (H10 : I) by run_tac;
    split; [exact (conj H1 (conj Hi (conj H2 (conj H3 (conj H4 (conj H5 (conj H6
                  (conj H7 (conj H8 (conj H9 H10))))))))))|]
  end.
  apply (trial_digit_refinement 256 [] 10 ex_num ex_den 0 _ _ 1 _
           H1 Hi H2 H3 H4 H5 H6 H7 H8 H9 H10).
Defined.

Lemma add_back_cancels_borrow_witness :
  exists p0 p st qt q1 temp' u1 borrow,
    (2 <= 10 <= 256 /\ 10 * 10 * 10 <= INT_MAX /\ wf_number 10 ex_num /\ wf_number 10 ex_den
     /\ iszero ex_den <> 0 /\ 0 <= 0
     /\ div_prepare [] ex_num ex_den ex_q 10 0 = Ok p0
     /\ p_out_of_scale p0 = false
     /\ div_normalize 256 10 p0 = Ok p
     /\ Z.of_nat 1 <= p_lea p + 0 - p_leb p
     /\ div_iter 256 1 p 10 (loop_entry p) = Ok st
     /\ trial_digit 256 (p_vf p) (p_v p) (s_u st) (s_i st) 10 = Ok qt
     /\ refine_digit 256 (p_vf p) (p_v p) (s_u st) (s_i st) 10 qt = Ok q1
     /\ q1 <> 0
     /\ arb_mul_core 256 (p_vf p) (p_v p) (p_leb p) q1 (s_temp st) 0 10 = Ok temp'
     /\ _long_sub 256 (s_u st) (p_leb p) (s_i st) temp' 0 (p_leb p) 10
        = Ok (u1, borrow)
     /\ borrow <> 0)
    /\ exists u2,
         _long_add 256 u1 (p_leb p) (s_i st) (p_vf p) (p_v p) (p_leb p - 1) 10
         = Ok (u2, borrow)
         /\ mul_sub_add 256 (p_vf p) (p_v p) (p_leb p) (s_u st) (s_temp st)
                        (s_i st) 10 q1
            = Ok (<[0%nat := 0]> u2, temp', q1 - 1)
         /\ u1 !! 1%nat = Some (10 - 1)
         /\ u2 !! 1%nat = Some (10 - 1)
         /\ (<[0%nat := 0]> u2) !! 1%nat = Some (if (1 =? 0)%nat then 0 else 10 - 1)
         /\ take (S 1) u2 = take (S 1) u1
         /\ drop (1 + S (Z.to_nat (p_leb p))) u2
            = drop (1 + S (Z.to_nat (p_leb p))) u1
         /\ take 1 (<[0%nat := 0]> u2) = take 1 (s_u st)
         /\ drop (1 + S (Z.to_nat (p_leb p))) (<[0%nat := 0]> u2)
            = drop (1 + S (Z.to_nat (p_leb p))) (s_u st)
         /\ digits_val 10 (window (<[0%nat := 0]> u2) (S 1) (Z.to_nat (p_leb p)))
            = digits_val 10 (window (s_u st) 1 (S (Z.to_nat (p_leb p))))
              - (q1 - 1)
                * digits_val 10 (window (p_vf p) (Z.to_nat (p_v p))
                                        (Z.to_nat (p_leb p))).
Proof.
  let r0 := eval vm_compute in (div_prepare [] ex_num ex_den ex_q 10 0) in
  lazymatch r0 with
  | Ok ?p0 =>
    exists p0;
    let r1 := eval vm_compute in (div_normalize 256 10 p0) in
    lazymatch r1 with
    | Ok ?p =>
      exists p;
      let r2 := eval vm_compute in (div_iter 256 1 p 10 (loop_entry p)) in
      lazymatch r2 with
      | Ok ?st =>
        exists st;
        let r3 := eval vm_compute in
                    (trial_digit 256 (p_vf p) (p_v p) (s_u st) (s_i st) 10) in
        lazymatch r3 with
        | Ok ?qt =>
          exists qt;
          let r4 := eval vm_compute in
                      (refine_digit 256 (p_vf p) (p_v p) (s_u st) (s_i st) 10 qt) in
          lazymatch r4 with
          | Ok ?q1 =>
            exists q1;
            let r5 := eval vm_compute in
                        (arb_mul_core 256 (p_vf p) (p_v p) (p_leb p) q1 (s_temp st)
                                      0 10) in
            lazymatch r5 with
            | Ok ?t =>
              exists t;
              let r6 := eval vm_compute in
                          (_long_sub 256 (s_u st) (p_leb p) (s_i st) t 0 (p_leb p) 10) in
              lazymatch r6 with Ok (?u1, ?bo) => exists u1, bo end
            end
          end
        end
      end
    end
  end.
  assert (H1 : 2 <= 10 <= 256) by lia.
  assert (Hi : 10 * 10 * 10 <= INT_MAX) by (unfold INT_MAX; lia).
  assert (H2 : wf_number 10 ex_num) by wf_tac.
  assert (H3 : wf_number 10 ex_den) by wf_tac.
  assert (H4 : iszero ex_den <> 0) by (vm_compute; discriminate).
  assert (H5 : 0 <= 0) by lia.
  match goal with
  | |- (_ /\ _ /\ _ /\ _ /\ _ /\ _ /\ ?E /\ ?F /\ ?G /\ ?H /\ ?I /\ ?J /\ ?K /\ ?L
        /\ ?M /\ ?N /\ ?O) /\ _ =>
    assert (H6 : E) by run_tac;
    assert (H7 : F) by reflexivity;
    assert (H8 : G) by run_tac;
    assert (H9 : H) by (vm_compute; discriminate);
    assert (H10 : I) by run_tac;
    assert (H11 : J) by run_tac;
    assert (H12 : K) by run_tac;
    assert (H13 : L) by discriminate;
    assert (H14 : M) by run_tac;
    assert (H15 : N) by run_tac;
    assert (H16 : O) by discriminate;
    split; [exact (conj H1 (conj Hi (conj H2 (conj H3 (conj H4 (conj H5 (conj H6
                  (conj H7 (conj H8 (conj H9 (conj H10 (conj H11 (conj H12
                  (conj H13 (conj H14 (conj H15 H16))))))))))))))))|]
  end.
  apply (add_back_cancels_borrow 256 [] 10 ex_num ex_den 0 _ _ 1 _ _ _ _ _ _
           H1 Hi H2 H3 H4 H5 H6 H7 H8 H9 H10 H11 H12 H13 H14 H15 H16).
Defined.


(** * The scratch buffer and the width of the digit type *)

(** X19: what the engine does not depend on.  The block that [arb_malloc]
    hands out for the scratch buffer has indeterminate contents, and the
    digit type [UARBT] is fixed outside this file; neither shows in the
    result.  For any two contents of the scratch block and any two digit
    types wide enough for the base, the two divisions return the same
    digits and the same integer-part count: the scratch buffer is always
    written before it is read, and no digit is ever cut by a store.
    The base is one whose cube fits an [int], where the products of lines
    164-167 are exact. *)
Theorem arb_div_scratch_independent M1 M2 junk1 junk2 b num den c1 c2 scale :
  2 <= b <= M1 -> 2 <= b <= M2 -> b * b * b <= INT_MAX ->
  wf_number b num -> wf_number b den -> iszero den <> 0 -> 0 <= scale ->
  exists q1 q2,
    arb_div M1 junk1 num den c1 b scale = Ok q1
    /\ arb_div M2 junk2 num den c2 b scale = Ok q2
    /\ digits q1 = digits q2 /\ lp q1 = lp q2 /\ len q1 = len q2.
Proof.
  intros Hb1 Hb2 Hint Hnum Hden Hnz Hscale.
  destruct (arb_div_canonical M1 junk1 b num den c1 scale Hb1 Hnum Hden Hnz Hscale)
    as (q1 & Hrun1 & Hwf1 & Hsc1 & Hhead1 & Hval1).
  destruct (arb_div_canonical M2 junk2 b num den c2 scale Hb2 Hnum Hden Hnz Hscale)
    as (q2 & Hrun2 & Hwf2 & Hsc2 & Hhead2 & Hval2).
  exists q1, q2. split; [exact Hrun1|]. split; [exact Hrun2|].
  apply (canonical_unique b); try assumption; lia.
Qed.

(** ** The further properties at work on concrete inputs *)

(** 23 - 56 in base 10: the window is left with 67 and a borrow. *)
Lemma long_sub_value_witness :
  (0 < 10 <= 256 /\ in_base 10 [2; 3] /\ in_base 10 [5; 6]
   /\ length [2; 3] = length [5; 6]
   /\ 1 = Z.of_nat (length [2; 3]) - 1
   /\ 0 + 2 = Z.of_nat (length [1]) + Z.of_nat (length [2; 3]) - 1
   /\ 0 + 1 = Z.of_nat (length (@nil Z)) + Z.of_nat (length [5; 6]) - 1)
  /\ exists rs borrow,
       _long_sub 256 ([1] ++ [2; 3] ++ [4]) 0 2 ([] ++ [5; 6] ++ []) 0 1 10
       = Ok ([1] ++ rs ++ [4], borrow)
       /\ length rs = length [2; 3]
       /\ in_base 10 rs
       /\ (borrow = 0 \/ borrow = 1)
       /\ (borrow = 1 <-> digits_val 10 [2; 3] < digits_val 10 [5; 6])
       /\ digits_val 10 rs
          = digits_val 10 [2; 3] - digits_val 10 [5; 6]
            + borrow * 10 ^ Z.of_nat (length [2; 3])
       /\ digits_val 10 rs
          = (digits_val 10 [2; 3] - digits_val 10 [5; 6])
            mod 10 ^ Z.of_nat (length [2; 3]).
Proof.
  assert (H1 : 0 < 10 <= 256) by lia.
  assert (H2 : in_base 10 [2; 3]) by (repeat constructor; lia).
  assert (H3 : in_base 10 [5; 6]) by (repeat constructor; lia).
  split; [repeat split; assumption || lia|].
  apply (long_sub_value 256 10 [1] [2; 3] [4] [] [5; 6] [] 0 2 0 1);
    assumption || reflexivity.
Defined.

(** 67 + 56 in base 10: the window is left with 23 and a carry. *)
Lemma long_add_value_witness :
  (0 < 10 <= 256 /\ in_base 10 [6; 7] /\ in_base 10 [5; 6]
   /\ length [6; 7] = length [5; 6]
   /\ 1 = Z.of_nat (length [6; 7]) - 1
   /\ 0 + 2 = Z.of_nat (length [1]) + Z.of_nat (length [6; 7]) - 1
   /\ 0 + 1 = Z.of_nat (length (@nil Z)) + Z.of_nat (length [5; 6]) - 1)
  /\ exists rs carry,
       _long_add 256 ([1] ++ [6; 7] ++ [4]) 0 2 ([] ++ [5; 6] ++ []) 0 1 10
       = Ok ([1] ++ rs ++ [4], carry)
       /\ length rs = length [6; 7]
       /\ in_base 10 rs
       /\ (carry = 0 \/ carry = 1)
       /\ (carry = 1
           <-> 10 ^ Z.of_nat (length [6; 7])
               <= digits_val 10 [6; 7] + digits_val 10 [5; 6])
       /\ digits_val 10 rs
          = digits_val 10 [6; 7] + digits_val 10 [5; 6]
            - carry * 10 ^ Z.of_nat (length [6; 7])
       /\ digits_val 10 rs
          = (digits_val 10 [6; 7] + digits_val 10 [5; 6])
            mod 10 ^ Z.of_nat (length [6; 7]).
Proof.
  assert (H1 : 0 < 10 <= 256) by lia.
  assert (H2 : in_base 10 [6; 7]) by (repeat constructor; lia).
  assert (H3 : in_base 10 [5; 6]) by (repeat constructor; lia).
  split; [repeat split; assumption || lia|].
  apply (long_add_value 256 10 [1] [6; 7] [4] [] [5; 6] [] 0 2 0 1);
    assumption || reflexivity.
Defined.

Lemma long_add_sub_inverse_witness :
  (0 < 10 <= 256 /\ in_base 10 [6; 7] /\ in_base 10 [5; 6]
   /\ length [6; 7] = length [5; 6]
   /\ 1 = Z.of_nat (length [6; 7]) - 1
   /\ 0 + 2 = Z.of_nat (length [1]) + Z.of_nat (length [6; 7]) - 1
   /\ 0 + 1 = Z.of_nat (length (@nil Z)) + Z.of_nat (length [5; 6]) - 1)
  /\ exists rs carry,
       _long_add 256 ([1] ++ [6; 7] ++ [4]) 0 2 ([] ++ [5; 6] ++ []) 0 1 10
       = Ok ([1] ++ rs ++ [4], carry)
       /\ length rs = length [6; 7]
       /\ _long_sub 256 ([1] ++ rs ++ [4]) 0 2 ([] ++ [5; 6] ++ []) 0 1 10
          = Ok ([1] ++ [6; 7] ++ [4], carry).
Proof.
  assert (H1 : 0 < 10 <= 256) by lia.
  assert (H2 : in_base 10 [6; 7]) by (repeat constructor; lia).
  assert (H3 : in_base 10 [5; 6]) by (repeat constructor; lia).
  split; [repeat split; assumption || lia|].
  apply (long_add_sub_inverse 256 10 [1] [6; 7] [4] [] [5; 6] [] 0 2 0 1);
    assumption || reflexivity.
Defined.

(** 999 * 7 = 6993 in base 10: the carry 6 goes to the guard cell. *)
Lemma shmul_carry_cell_witness :
  (0 < 10 <= 256 /\ 10 * 10 <= INT_MAX /\ 0 <= 7 < 10 /\ in_base 10 [9; 9; 9])
  /\ exists rs c,
       shmul 256 ([5] ++ 0 :: [9; 9; 9] ++ [4]) (Z.of_nat (S (length [5])))
             (Z.of_nat (length [9; 9; 9])) 7 (Z.of_nat (S (length [5]))) 10
       = Ok ([5] ++ (if c =? 0 then 0 else c) :: rs ++ [4])
       /\ length rs = length [9; 9; 9]
       /\ in_base 10 rs
       /\ 0 <= c < 10
       /\ digits_val 10 rs + c * 10 ^ Z.of_nat (length [9; 9; 9])
          = digits_val 10 [9; 9; 9] * 7
       /\ (0 = 0 ->
           digits_val 10 ((if c =? 0 then 0 else c) :: rs)
           = digits_val 10 [9; 9; 9] * 7).
Proof.
  assert (H1 : 0 < 10 <= 256) by lia.
  assert (Hi : 10 * 10 <= INT_MAX) by (unfold INT_MAX; lia).
  assert (H2 : 0 <= 7 < 10) by lia.
  assert (H3 : in_base 10 [9; 9; 9]) by (repeat constructor; lia).
  split; [exact (conj H1 (conj Hi (conj H2 H3)))|].
  apply (shmul_carry_cell 256 10 7 [5] 0 [9; 9; 9] [4]); assumption.
Defined.

(** 999 * 7 at the start of a buffer: there is no cell for the carry. *)
Lemma shmul_at_buffer_start_witness :
  (0 < 10 <= 256 /\ 10 * 10 <= INT_MAX /\ 0 <= 7 < 10 /\ in_base 10 [9; 9; 9])
  /\ (digits_val 10 [9; 9; 9] * 7 < 10 ^ Z.of_nat (length [9; 9; 9]) ->
      exists rs,
        shmul 256 ([9; 9; 9] ++ [4]) 0 (Z.of_nat (length [9; 9; 9])) 7 0 10
        = Ok (rs ++ [4])
        /\ length rs = length [9; 9; 9] /\ in_base 10 rs
        /\ digits_val 10 rs = digits_val 10 [9; 9; 9] * 7)
  /\ (10 ^ Z.of_nat (length [9; 9; 9]) <= digits_val 10 [9; 9; 9] * 7 ->
      shmul 256 ([9; 9; 9] ++ [4]) 0 (Z.of_nat (length [9; 9; 9])) 7 0 10 = Fault).
Proof.
  assert (H1 : 0 < 10 <= 256) by lia.
  assert (Hi : 10 * 10 <= INT_MAX) by (unfold INT_MAX; lia).
  assert (H2 : 0 <= 7 < 10) by lia.
  assert (H3 : in_base 10 [9; 9; 9]) by (repeat constructor; lia).
  split; [exact (conj H1 (conj Hi (conj H2 H3)))|].
  apply (shmul_at_buffer_start 256 10 7 [9; 9; 9] [4]); assumption.
Defined.

Lemma shmul_frame_witness :
  (0 < 10 <= 256 /\ 10 * 10 <= INT_MAX /\ 0 <= 7 < 10 /\ in_base 10 (window [0; 9; 9; 9; 4] 1 3)
   /\ (1 + 3 <= length [0; 9; 9; 9; 4])%nat
   /\ (1 = 1 \/ 1 + 3 <= 1 \/ 1 + 3 <= 1)%nat
   /\ shmul 256 [0; 9; 9; 9; 4] (Z.of_nat 1) (Z.of_nat 3) 7 (Z.of_nat 1) 10
      = Ok [6; 9; 9; 3; 4])
  /\ length [6; 9; 9; 3; 4] = length [0; 9; 9; 9; 4]
  /\ (forall j : nat,
        (S j < 1 \/ 1 + 3 <= j)%nat ->
        [6; 9; 9; 3; 4] !! j = [0; 9; 9; 9; 4] !! j)
  /\ in_base 10 (window [6; 9; 9; 3; 4] 1 3)
  /\ (in_base 10 [0; 9; 9; 9; 4] -> in_base 10 [6; 9; 9; 3; 4]).
Proof.
  assert (H1 : 0 < 10 <= 256) by lia.
  assert (Hi : 10 * 10 <= INT_MAX) by (unfold INT_MAX; lia).
  assert (H2 : 0 <= 7 < 10) by lia.
  assert (H3 : in_base 10 (window [0; 9; 9; 9; 4] 1 3)) by (repeat constructor; lia).
  assert (H4 : (1 + 3 <= length [0; 9; 9; 9; 4])%nat) by (simpl; lia).
  assert (H5 : (1 = 1 \/ 1 + 3 <= 1 \/ 1 + 3 <= 1)%nat) by (left; reflexivity).
  assert (H6 : shmul 256 [0; 9; 9; 9; 4] (Z.of_nat 1) (Z.of_nat 3) 7 (Z.of_nat 1) 10
               = Ok [6; 9; 9; 3; 4]) by run_tac.
  split; [exact (conj H1 (conj Hi (conj H2 (conj H3 (conj H4 (conj H5 H6))))))|].
  apply (shmul_frame 256 [0; 9; 9; 9; 4] 1 3 1 7 10 [6; 9; 9; 3; 4]); assumption.
Defined.

(** 0.0 / 3 at scale 2. *)
Lemma arb_div_zero_dividend_witness :
  (2 <= 10 <= 256 /\ 10 * 10 * 10 <= INT_MAX /\ wf_number 10 (mk_fxdpnt [0; 0] 1 2)
   /\ wf_number 10 (mk_fxdpnt [3] 1 1) /\ iszero (mk_fxdpnt [3] 1 1) <> 0
   /\ 0 <= 2 /\ digits_val 10 (digits (mk_fxdpnt [0; 0] 1 2)) = 0)
  /\ exists q,
       arb_div 256 [] (mk_fxdpnt [0; 0] 1 2) (mk_fxdpnt [3] 1 1)
               (mk_fxdpnt [] 0 0) 10 2 = Ok q
       /\ digits q = replicate (Z.to_nat 2) 0 /\ lp q = 0 /\ len q = 2.
Proof.
  assert (H1 : 2 <= 10 <= 256) by lia.
  assert (Hi : 10 * 10 * 10 <= INT_MAX) by (unfold INT_MAX; lia).
  assert (H2 : wf_number 10 (mk_fxdpnt [0; 0] 1 2)) by wf_tac.
  assert (H3 : wf_number 10 (mk_fxdpnt [3] 1 1)) by wf_tac.
  assert (H4 : iszero (mk_fxdpnt [3] 1 1) <> 0) by (vm_compute; discriminate).
  assert (H5 : 0 <= 2) by lia.
  assert (H6 : digits_val 10 (digits (mk_fxdpnt [0; 0] 1 2)) = 0) by reflexivity.
  split; [exact (conj H1 (conj Hi (conj H2 (conj H3 (conj H4 (conj H5 H6))))))|].
  apply (arb_div_zero_dividend 256 [] 10); assumption.
Defined.

(** 1.2 / 1.2 at scale 3 is 1.000. *)
Lemma arb_div_self_witness :
  (2 <= 10 <= 256 /\ 10 * 10 * 10 <= INT_MAX /\ wf_number 10 (mk_fxdpnt [1; 2] 1 2)
   /\ iszero (mk_fxdpnt [1; 2] 1 2) <> 0 /\ 0 <= 3)
  /\ exists q,
       arb_div 256 [] (mk_fxdpnt [1; 2] 1 2) (mk_fxdpnt [1; 2] 1 2)
               (mk_fxdpnt [] 0 0) 10 3 = Ok q
       /\ digits q = 1 :: replicate (Z.to_nat 3) 0 /\ lp q = 1 /\ len q = 3 + 1.
Proof.
  assert (H1 : 2 <= 10 <= 256) by lia.
  assert (Hi : 10 * 10 * 10 <= INT_MAX) by (unfold INT_MAX; lia).
  assert (H2 : wf_number 10 (mk_fxdpnt [1; 2] 1 2)) by wf_tac.
  assert (H3 : iszero (mk_fxdpnt [1; 2] 1 2) <> 0) by (vm_compute; discriminate).
  assert (H4 : 0 <= 3) by lia.
  split; [exact (conj H1 (conj Hi (conj H2 (conj H3 H4))))|].
  apply (arb_div_self 256 [] 10); assumption.
Defined.

(** 1 / 3 and 01.0 / 3.0 at scale 4. *)
Lemma arb_div_value_only_witness :
  (2 <= 10 <= 256
   /\ 10 * 10 * 10 <= INT_MAX /\ wf_number 10 (mk_fxdpnt [1] 1 1) /\ wf_number 10 (mk_fxdpnt [3] 1 1)
   /\ wf_number 10 (mk_fxdpnt [0; 1; 0] 2 3) /\ wf_number 10 (mk_fxdpnt [3; 0] 1 2)
   /\ iszero (mk_fxdpnt [3] 1 1) <> 0 /\ iszero (mk_fxdpnt [3; 0] 1 2) <> 0
   /\ 0 <= 4
   /\ digits_val 10 (digits (mk_fxdpnt [1] 1 1)) * 10 ^ rr (mk_fxdpnt [3] 1 1)
      * (digits_val 10 (digits (mk_fxdpnt [3; 0] 1 2))
         * 10 ^ rr (mk_fxdpnt [0; 1; 0] 2 3))
      = digits_val 10 (digits (mk_fxdpnt [0; 1; 0] 2 3))
        * 10 ^ rr (mk_fxdpnt [3; 0] 1 2)
        * (digits_val 10 (digits (mk_fxdpnt [3] 1 1))
           * 10 ^ rr (mk_fxdpnt [1] 1 1)))
  /\ exists q1 q2,
       arb_div 256 [] (mk_fxdpnt [1] 1 1) (mk_fxdpnt [3] 1 1)
               (mk_fxdpnt [] 0 0) 10 4 = Ok q1
       /\ arb_div 256 [] (mk_fxdpnt [0; 1; 0] 2 3) (mk_fxdpnt [3; 0] 1 2)
                  (mk_fxdpnt [] 0 0) 10 4 = Ok q2
       /\ digits q1 = digits q2 /\ lp q1 = lp q2 /\ len q1 = len q2.
Proof.
  assert (H1 : 2 <= 10 <= 256) by lia.
  assert (Hi : 10 * 10 * 10 <= INT_MAX) by (unfold INT_MAX; lia).
  assert (H2 : wf_number 10 (mk_fxdpnt [1] 1 1)) by wf_tac.
  assert (H3 : wf_number 10 (mk_fxdpnt [3] 1 1)) by wf_tac.
  assert (H4 : wf_number 10 (mk_fxdpnt [0; 1; 0] 2 3)) by wf_tac.
  assert (H5 : wf_number 10 (mk_fxdpnt [3; 0] 1 2)) by wf_tac.
  assert (H6 : iszero (mk_fxdpnt [3] 1 1) <> 0) by (vm_compute; discriminate).
  assert (H7 : iszero (mk_fxdpnt [3; 0] 1 2) <> 0) by (vm_compute; discriminate).
  assert (H8 : 0 <= 4) by lia.
  match goal with
  | |- (_ /\ _ /\ _ /\ _ /\ _ /\ _ /\ _ /\ _ /\ _ /\ ?E) /\ _ =>
    assert (H9 : E) by reflexivity
  end.
  split; [exact (conj H1 (conj Hi (conj H2 (conj H3 (conj H4 (conj H5 (conj H6 (conj H7
                 (conj H8 H9)))))))))|].
  apply (arb_div_value_only 256 [] 10); assumption.
Defined.

(** 1000 / 3 and 1000 / 3.00 at scale 4. *)
Lemma arb_div_divisor_trailing_zeros_witness :
  (2 <= 10 <= 256 /\ 10 * 10 * 10 <= INT_MAX /\ wf_number 10 (mk_fxdpnt [1; 0; 0; 0] 4 4)
   /\ wf_number 10 (mk_fxdpnt [3] 1 1) /\ wf_number 10 (mk_fxdpnt [3; 0; 0] 1 3)
   /\ iszero (mk_fxdpnt [3] 1 1) <> 0 /\ 0 <= 4
   /\ digits (mk_fxdpnt [3; 0; 0] 1 3)
      = digits (mk_fxdpnt [3] 1 1) ++ replicate 2 0
   /\ lp (mk_fxdpnt [3; 0; 0] 1 3) = lp (mk_fxdpnt [3] 1 1)
   /\ len (mk_fxdpnt [3; 0; 0] 1 3) = len (mk_fxdpnt [3] 1 1) + Z.of_nat 2)
  /\ exists q1 q2,
       arb_div 256 [] (mk_fxdpnt [1; 0; 0; 0] 4 4) (mk_fxdpnt [3] 1 1)
               (mk_fxdpnt [] 0 0) 10 4 = Ok q1
       /\ arb_div 256 [] (mk_fxdpnt [1; 0; 0; 0] 4 4) (mk_fxdpnt [3; 0; 0] 1 3)
                  (mk_fxdpnt [] 0 0) 10 4 = Ok q2
       /\ digits q1 = digits q2 /\ lp q1 = lp q2 /\ len q1 = len q2.
Proof.
  assert (H1 : 2 <= 10 <= 256) by lia.
  assert (Hi : 10 * 10 * 10 <= INT_MAX) by (unfold INT_MAX; lia).
  assert (H2 : wf_number 10 (mk_fxdpnt [1; 0; 0; 0] 4 4)) by wf_tac.
  assert (H3 : wf_number 10 (mk_fxdpnt [3] 1 1)) by wf_tac.
  assert (H4 : wf_number 10 (mk_fxdpnt [3; 0; 0] 1 3)) by wf_tac.
  assert (H5 : iszero (mk_fxdpnt [3] 1 1) <> 0) by (vm_compute; discriminate).
  assert (H6 : 0 <= 4) by lia.
  assert (H7 : digits (mk_fxdpnt [3; 0; 0] 1 3)
               = digits (mk_fxdpnt [3] 1 1) ++ replicate 2 0) by reflexivity.
  assert (H8 : lp (mk_fxdpnt [3; 0; 0] 1 3) = lp (mk_fxdpnt [3] 1 1)) by reflexivity.
  assert (H9 : len (mk_fxdpnt [3; 0; 0] 1 3) = len (mk_fxdpnt [3] 1 1) + Z.of_nat 2)
    by reflexivity.
  split; [exact (conj H1 (conj Hi (conj H2 (conj H3 (conj H4 (conj H5 (conj H6 (conj H7
                 (conj H8 H9)))))))))|].
  apply (arb_div_divisor_trailing_zeros 256 [] 10 _ _ _ _ _ 4 2); assumption.
Defined.

(** 1000 / 3 at scale 4 and at scale 5. *)
Lemma arb_div_scale_prefix_witness :
  (2 <= 10 <= 256 /\ 10 * 10 * 10 <= INT_MAX /\ wf_number 10 (mk_fxdpnt [1; 0; 0; 0] 4 4)
   /\ wf_number 10 (mk_fxdpnt [3] 1 1) /\ iszero (mk_fxdpnt [3] 1 1) <> 0 /\ 0 <= 4)
  /\ exists q q' x,
       arb_div 256 [] (mk_fxdpnt [1; 0; 0; 0] 4 4) (mk_fxdpnt [3] 1 1)
               (mk_fxdpnt [] 0 0) 10 4 = Ok q
       /\ arb_div 256 [] (mk_fxdpnt [1; 0; 0; 0] 4 4) (mk_fxdpnt [3] 1 1)
                  (mk_fxdpnt [] 0 0) 10 (4 + 1) = Ok q'
       /\ digits q' = digits q ++ [x]
       /\ 0 <= x < 10
       /\ lp q' = lp q /\ len q' = len q + 1.
Proof.
  assert (H1 : 2 <= 10 <= 256) by lia.
  assert (Hi : 10 * 10 * 10 <= INT_MAX) by (unfold INT_MAX; lia).
  assert (H2 : wf_number 10 (mk_fxdpnt [1; 0; 0; 0] 4 4)) by wf_tac.
  assert (H3 : wf_number 10 (mk_fxdpnt [3] 1 1)) by wf_tac.
  assert (H4 : iszero (mk_fxdpnt [3] 1 1) <> 0) by (vm_compute; discriminate).
  assert (H5 : 0 <= 4) by lia.
  split; [exact (conj H1 (conj Hi (conj H2 (conj H3 (conj H4 H5)))))|].
  apply (arb_div_scale_prefix 256 [] 10); assumption.
Defined.

Lemma arb_div_integer_digits_witness :
  (2 <= 10 <= 256 /\ 10 * 10 * 10 <= INT_MAX /\ wf_number 10 (mk_fxdpnt [1; 0; 0; 0] 4 4)
   /\ wf_number 10 (mk_fxdpnt [3] 1 1) /\ iszero (mk_fxdpnt [3] 1 1) <> 0 /\ 0 <= 4)
  /\ exists q,
       arb_div 256 [] (mk_fxdpnt [1; 0; 0; 0] 4 4) (mk_fxdpnt [3] 1 1)
               (mk_fxdpnt [] 0 0) 10 4 = Ok q
       /\ (lp q = 0
           <-> digits_val 10 (digits (mk_fxdpnt [1; 0; 0; 0] 4 4))
               * 10 ^ rr (mk_fxdpnt [3] 1 1)
               < digits_val 10 (digits (mk_fxdpnt [3] 1 1))
                 * 10 ^ rr (mk_fxdpnt [1; 0; 0; 0] 4 4))
       /\ (0 < lp q ->
           10 ^ (lp q - 1)
           * (digits_val 10 (digits (mk_fxdpnt [3] 1 1))
              * 10 ^ rr (mk_fxdpnt [1; 0; 0; 0] 4 4))
           <= digits_val 10 (digits (mk_fxdpnt [1; 0; 0; 0] 4 4))
              * 10 ^ rr (mk_fxdpnt [3] 1 1)
           < 10 ^ lp q
             * (digits_val 10 (digits (mk_fxdpnt [3] 1 1))
                * 10 ^ rr (mk_fxdpnt [1; 0; 0; 0] 4 4))).
Proof.
  assert (H1 : 2 <= 10 <= 256) by lia.
  assert (Hi : 10 * 10 * 10 <= INT_MAX) by (unfold INT_MAX; lia).
  assert (H2 : wf_number 10 (mk_fxdpnt [1; 0; 0; 0] 4 4)) by wf_tac.
  assert (H3 : wf_number 10 (mk_fxdpnt [3] 1 1)) by wf_tac.
  assert (H4 : iszero (mk_fxdpnt [3] 1 1) <> 0) by (vm_compute; discriminate).
  assert (H5 : 0 <= 4) by lia.
  split; [exact (conj H1 (conj Hi (conj H2 (conj H3 (conj H4 H5)))))|].
  apply (arb_div_integer_digits 256 [] 10); assumption.
Defined.

(** 1.25 / 1.0 at scale 2. *)
Lemma arb_div_by_one_witness :
  (2 <= 10 <= 256 /\ 10 * 10 * 10 <= INT_MAX /\ wf_number 10 (mk_fxdpnt [1; 2; 5] 1 3)
   /\ wf_number 10 (mk_fxdpnt [1; 0] 1 2)
   /\ digits_val 10 (digits (mk_fxdpnt [1; 0] 1 2)) = 10 ^ rr (mk_fxdpnt [1; 0] 1 2)
   /\ (lp (mk_fxdpnt [1; 2; 5] 1 3) = 0
       \/ exists d rest, digits (mk_fxdpnt [1; 2; 5] 1 3) = d :: rest /\ d <> 0))
  /\ exists q,
       arb_div 256 [] (mk_fxdpnt [1; 2; 5] 1 3) (mk_fxdpnt [1; 0] 1 2)
               (mk_fxdpnt [] 0 0) 10 (rr (mk_fxdpnt [1; 2; 5] 1 3)) = Ok q
       /\ digits q = digits (mk_fxdpnt [1; 2; 5] 1 3)
       /\ lp q = lp (mk_fxdpnt [1; 2; 5] 1 3)
       /\ len q = len (mk_fxdpnt [1; 2; 5] 1 3).
Proof.
  assert (H1 : 2 <= 10 <= 256) by lia.
  assert (Hi : 10 * 10 * 10 <= INT_MAX) by (unfold INT_MAX; lia).
  assert (H2 : wf_number 10 (mk_fxdpnt [1; 2; 5] 1 3)) by wf_tac.
  assert (H3 : wf_number 10 (mk_fxdpnt [1; 0] 1 2)) by wf_tac.
  assert (H4 : digits_val 10 (digits (mk_fxdpnt [1; 0] 1 2))
               = 10 ^ rr (mk_fxdpnt [1; 0] 1 2)) by reflexivity.
  assert (H5 : lp (mk_fxdpnt [1; 2; 5] 1 3) = 0
               \/ exists d rest, digits (mk_fxdpnt [1; 2; 5] 1 3) = d :: rest /\ d <> 0).
  { right. exists 1, [2; 5]. split; [reflexivity|lia]. }
  split; [exact (conj H1 (conj Hi (conj H2 (conj H3 (conj H4 H5)))))|].
  apply (arb_div_by_one 256 [] 10); assumption.
Defined.

(** 1000 / 143 at scale 2, which returns, and 7 / 0 at scale 3, which
    exits. *)
Lemma arb_div_outcome_witness :
  ((2 <= 10 <= 256 /\ 10 * 10 * 10 <= INT_MAX /\ wf_number 10 ex_num
    /\ wf_number 10 ex_den /\ 0 <= 2)
   /\ (digits_val 10 (digits ex_den) = 0 ->
       arb_div 256 [] ex_num ex_den (mk_fxdpnt [] 0 0) 10 2 = Exit divide_by_zero)
   /\ (digits_val 10 (digits ex_den) <> 0 ->
       exists q, arb_div 256 [] ex_num ex_den (mk_fxdpnt [] 0 0) 10 2 = Ok q)
   /\ arb_div 256 [] ex_num ex_den (mk_fxdpnt [] 0 0) 10 2 <> Fault
   /\ arb_div 256 [] ex_num ex_den (mk_fxdpnt [] 0 0) 10 2 <> OutOfFuel)
  /\ ((2 <= 10 <= 256 /\ 10 * 10 * 10 <= INT_MAX /\ wf_number 10 (mk_fxdpnt [7] 1 1)
       /\ wf_number 10 (mk_fxdpnt [0] 1 1) /\ 0 <= 3)
      /\ (digits_val 10 (digits (mk_fxdpnt [0] 1 1)) = 0 ->
          arb_div 256 [] (mk_fxdpnt [7] 1 1) (mk_fxdpnt [0] 1 1) (mk_fxdpnt [] 0 0) 10 3
          = Exit divide_by_zero)
      /\ (digits_val 10 (digits (mk_fxdpnt [0] 1 1)) <> 0 ->
          exists q,
            arb_div 256 [] (mk_fxdpnt [7] 1 1) (mk_fxdpnt [0] 1 1) (mk_fxdpnt [] 0 0)
                    10 3 = Ok q)
      /\ arb_div 256 [] (mk_fxdpnt [7] 1 1) (mk_fxdpnt [0] 1 1) (mk_fxdpnt [] 0 0) 10 3
         <> Fault
      /\ arb_div 256 [] (mk_fxdpnt [7] 1 1) (mk_fxdpnt [0] 1 1) (mk_fxdpnt [] 0 0) 10 3
         <> OutOfFuel).
Proof.
  assert (H1 : 2 <= 10 <= 256) by lia.
  assert (Hi : 10 * 10 * 10 <= INT_MAX) by (unfold INT_MAX; lia).
  assert (H2 : wf_number 10 ex_num) by wf_tac.
  assert (H3 : wf_number 10 ex_den) by wf_tac.
  assert (H4 : 0 <= 2) by lia.
  assert (H5 : wf_number 10 (mk_fxdpnt [7] 1 1)) by wf_tac.
  assert (H6 : wf_number 10 (mk_fxdpnt [0] 1 1)) by wf_tac.
  assert (H7 : 0 <= 3) by lia.
  split.
  - split; [exact (conj H1 (conj Hi (conj H2 (conj H3 H4))))|].
    apply (arb_div_outcome 256 [] 10); assumption.
  - split; [exact (conj H1 (conj Hi (conj H5 (conj H6 H7))))|].
    apply (arb_div_outcome 256 [] 10); assumption.
Defined.

(** 1000 / 143 in base 10 at scale 0, after the first pass. *)
Lemma partial_quotient_witness :
  exists p0 p st,
    (2 <= 10 <= 256 /\ 10 * 10 * 10 <= INT_MAX /\ wf_number 10 ex_num /\ wf_number 10 ex_den
     /\ iszero ex_den <> 0 /\ 0 <= 0
     /\ div_prepare [] ex_num ex_den ex_q 10 0 = Ok p0
     /\ p_out_of_scale p0 = false
     /\ div_normalize 256 10 p0 = Ok p
     /\ Z.of_nat 1 <= p_lea p + 0 - p_leb p + 1
     /\ div_iter 256 1 p 10 (loop_entry p) = Ok st)
    /\ exists j0 : nat,
         s_j (loop_entry p) = Z.of_nat j0
         /\ s_i st = Z.of_nat 1
         /\ s_j st = Z.of_nat (j0 + 1)
         /\ in_base 10 (window (number (s_q st)) j0 1)
         /\ 0 < digits_val 10 (window (p_vf p) (Z.to_nat (p_v p)) (Z.to_nat (p_leb p)))
         /\ digits_val 10 (window (number (s_q st)) j0 1)
            = digits_val 10 (take (1 + Z.to_nat (p_leb p)) (p_u p))
              / digits_val 10 (window (p_vf p) (Z.to_nat (p_v p)) (Z.to_nat (p_leb p)))
         /\ digits_val 10 (window (s_u st) 1 (Z.to_nat (p_leb p)))
            = digits_val 10 (take (1 + Z.to_nat (p_leb p)) (p_u p))
              mod digits_val 10 (window (p_vf p) (Z.to_nat (p_v p))
                                        (Z.to_nat (p_leb p)))
         /\ drop (1 + Z.to_nat (p_leb p)) (s_u st)
            = drop (1 + Z.to_nat (p_leb p)) (p_u p).
Proof.
  let r0 := eval vm_compute in (div_prepare [] ex_num ex_den ex_q 10 0) in
  lazymatch r0 with
  | Ok ?p0 =>
    exists p0;
    let r1 := eval vm_compute in (div_normalize 256 10 p0) in
    lazymatch r1 with
    | Ok ?p =>
      exists p;
      let r2 := eval vm_compute in (div_iter 256 1 p 10 (loop_entry p)) in
      lazymatch r2 with Ok ?st => exists st end
    end
  end.
  assert (H1 : 2 <= 10 <= 256) by lia.
  assert (Hi : 10 * 10 * 10 <= INT_MAX) by (unfold INT_MAX; lia).
  assert (H2 : wf_number 10 ex_num) by wf_tac.
  assert (H3 : wf_number 10 ex_den) by wf_tac.
  assert (H4 : iszero ex_den <> 0) by (vm_compute; discriminate).
  assert (H5 : 0 <= 0) by lia.
  match goal with
  | |- (_ /\ _ /\ _ /\ _ /\ _ /\ _ /\ ?E /\ ?F /\ ?G /\ ?H /\ ?I) /\ _ =>
    assert (H6 : E) by run_tac;
    assert (H7 : F) by reflexivity;
    assert (H8 : G) by run_tac;
    assert (H9 : H) by (vm_compute; discriminate);
    assert (H10 : I) by run_tac;
    split; [exact (conj H1 (conj Hi (conj H2 (conj H3 (conj H4 (conj H5 (conj H6
                  (conj H7 (conj H8 (conj H9 H10))))))))))|]
  end.
  apply (partial_quotient 256 [] 10 ex_num ex_den 0 _ _ 1 _
           H1 Hi H2 H3 H4 H5 H6 H7 H8 H9 H10).
Defined.

(** 1000 / 143 in base 10 at scale 0: the second pass stores 5000 / 715. *)
Lemma pass_digit_exact_witness :
  exists p0 p st,
    (2 <= 10 <= 256 /\ 10 * 10 * 10 <= INT_MAX /\ wf_number 10 ex_num /\ wf_number 10 ex_den
     /\ iszero ex_den <> 0 /\ 0 <= 0
     /\ div_prepare [] ex_num ex_den ex_q 10 0 = Ok p0
     /\ p_out_of_scale p0 = false
     /\ div_normalize 256 10 p0 = Ok p
     /\ Z.of_nat 1 <= p_lea p + 0 - p_leb p
     /\ div_iter 256 1 p 10 (loop_entry p) = Ok st)
    /\ exists st',
         div_step 256 p 10 st = Ok st'
         /\ number (s_q st')
            = <[Z.to_nat (s_j st) :=
                  digits_val 10 (window (s_u st) 1 (S (Z.to_nat (p_leb p))))
                  / digits_val 10 (window (p_vf p) (Z.to_nat (p_v p))
                                          (Z.to_nat (p_leb p)))]>
                (number (s_q st))
         /\ 0 <= digits_val 10 (window (s_u st) 1 (S (Z.to_nat (p_leb p))))
                 / digits_val 10 (window (p_vf p) (Z.to_nat (p_v p))
                                         (Z.to_nat (p_leb p)))
            < 10
         /\ digits_val 10 (window (s_u st') (S 1) (Z.to_nat (p_leb p)))
            = digits_val 10 (window (s_u st) 1 (S (Z.to_nat (p_leb p))))
              mod digits_val 10 (window (p_vf p) (Z.to_nat (p_v p))
                                        (Z.to_nat (p_leb p)))
         /\ s_i st' = s_i st + 1 /\ s_j st' = s_j st + 1.
Proof.
  let r0 := eval vm_compute in (div_prepare [] ex_num ex_den ex_q 10 0) in
  lazymatch r0 with
  | Ok ?p0 =>
    exists p0;
    let r1 := eval vm_compute in (div_normalize 256 10 p0) in
    lazymatch r1 with
    | Ok ?p =>
      exists p;
      let r2 := eval vm_compute in (div_iter 256 1 p 10 (loop_entry p)) in
      lazymatch r2 with Ok ?st => exists st end
    end
  end.
  assert (H1 : 2 <= 10 <= 256) by lia.
  assert (Hi : 10 * 10 * 10 <= INT_MAX) by (unfold INT_MAX; lia).
  assert (H2 : wf_number 10 ex_num) by wf_tac.
  assert (H3 : wf_number 10 ex_den) by wf_tac.
  assert (H4 : iszero ex_den <> 0) by (vm_compute; discriminate).
  assert (H5 : 0 <= 0) by lia.
  match goal with
  | |- (_ /\ _ /\ _ /\ _ /\ _ /\ _ /\ ?E /\ ?F /\ ?G /\ ?H /\ ?I) /\ _ =>
    assert (H6 : E) by run_tac;
    assert (H7 : F) by reflexivity;
    assert (H8 : G) by run_tac;
    assert (H9 : H) by (vm_compute; discriminate);
    assert (H10 : I) by run_tac;
    split; [exact (conj H1 (conj Hi (conj H2 (conj H3 (conj H4 (conj H5 (conj H6
                  (conj H7 (conj H8 (conj H9 H10))))))))))|]
  end.
  apply (pass_digit_exact 256 [] 10 ex_num ex_den 0 _ _ 1 _
           H1 Hi H2 H3 H4 H5 H6 H7 H8 H9 H10).
Defined.

(** 999 * 7 = 6993, and 6993 / 7 = 999. *)
Lemma shmul_div_round_trip_witness :
  (2 <= 10 <= 256 /\ 10 * 10 * 10 <= INT_MAX /\ 1 <= 7 < 10 /\ in_base 10 [9; 9; 9]
   /\ ([9; 9; 9] = [] \/ exists h t, [9; 9; 9] = h :: t /\ h <> 0))
  /\ exists rs q,
       shmul 256 (0 :: [9; 9; 9]) 0 (Z.of_nat (S (length [9; 9; 9]))) 7 0 10 = Ok rs
       /\ digits_val 10 rs = digits_val 10 [9; 9; 9] * 7
       /\ arb_div 256 []
                  (mk_fxdpnt rs (Z.of_nat (S (length [9; 9; 9])))
                             (Z.of_nat (S (length [9; 9; 9]))))
                  (mk_fxdpnt [7] 1 1) (mk_fxdpnt [] 0 0) 10 0
          = Ok q
       /\ digits q = [9; 9; 9]
       /\ lp q = Z.of_nat (length [9; 9; 9]) /\ len q = Z.of_nat (length [9; 9; 9]).
Proof.
  assert (H1 : 2 <= 10 <= 256) by lia.
  assert (Hi : 10 * 10 * 10 <= INT_MAX) by (unfold INT_MAX; lia).
  assert (H2 : 1 <= 7 < 10) by lia.
  assert (H3 : in_base 10 [9; 9; 9]) by (repeat constructor; lia).
  assert (H4 : [9; 9; 9] = [] \/ exists h t, [9; 9; 9] = h :: t /\ h <> 0).
  { right. exists 9, [9; 9]. split; [reflexivity|lia]. }
  split; [exact (conj H1 (conj Hi (conj H2 (conj H3 H4))))|].
  apply (shmul_div_round_trip 256 [] 10 7 [9; 9; 9]); assumption.
Defined.

(** 1 / 3 and 2 / 3 at scale 4. *)
Lemma arb_div_monotone_witness :
  (2 <= 10 <= 256
   /\ 10 * 10 * 10 <= INT_MAX /\ wf_number 10 (mk_fxdpnt [1] 1 1) /\ wf_number 10 (mk_fxdpnt [3] 1 1)
   /\ wf_number 10 (mk_fxdpnt [2] 1 1) /\ wf_number 10 (mk_fxdpnt [3] 1 1)
   /\ iszero (mk_fxdpnt [3] 1 1) <> 0 /\ iszero (mk_fxdpnt [3] 1 1) <> 0
   /\ 0 <= 4
   /\ digits_val 10 (digits (mk_fxdpnt [1] 1 1)) * 10 ^ rr (mk_fxdpnt [3] 1 1)
      * (digits_val 10 (digits (mk_fxdpnt [3] 1 1)) * 10 ^ rr (mk_fxdpnt [2] 1 1))
      <= digits_val 10 (digits (mk_fxdpnt [2] 1 1)) * 10 ^ rr (mk_fxdpnt [3] 1 1)
         * (digits_val 10 (digits (mk_fxdpnt [3] 1 1))
            * 10 ^ rr (mk_fxdpnt [1] 1 1)))
  /\ exists q1 q2,
       arb_div 256 [] (mk_fxdpnt [1] 1 1) (mk_fxdpnt [3] 1 1)
               (mk_fxdpnt [] 0 0) 10 4 = Ok q1
       /\ arb_div 256 [] (mk_fxdpnt [2] 1 1) (mk_fxdpnt [3] 1 1)
                  (mk_fxdpnt [] 0 0) 10 4 = Ok q2
       /\ len q1 - lp q1 = 4 /\ len q2 - lp q2 = 4
       /\ digits_val 10 (digits q1) <= digits_val 10 (digits q2)
       /\ lp q1 <= lp q2.
Proof.
  assert (H1 : 2 <= 10 <= 256) by lia.
  assert (Hi : 10 * 10 * 10 <= INT_MAX) by (unfold INT_MAX; lia).
  assert (H2 : wf_number 10 (mk_fxdpnt [1] 1 1)) by wf_tac.
  assert (H3 : wf_number 10 (mk_fxdpnt [3] 1 1)) by wf_tac.
  assert (H4 : wf_number 10 (mk_fxdpnt [2] 1 1)) by wf_tac.
  assert (H5 : iszero (mk_fxdpnt [3] 1 1) <> 0) by (vm_compute; discriminate).
  assert (H6 : 0 <= 4) by lia.
  match goal with
  | |- (_ /\ _ /\ _ /\ _ /\ _ /\ _ /\ _ /\ _ /\ _ /\ ?E) /\ _ =>
    assert (H7 : E) by (vm_compute; discriminate)
  end.
  split; [exact (conj H1 (conj Hi (conj H2 (conj H3 (conj H4 (conj H3 (conj H5 (conj H5
                 (conj H6 H7)))))))))|].
  apply (arb_div_monotone 256 [] 10); assumption.
Defined.

(** 1000 / 143 at scale 2, with a clean scratch block and eight-bit digits
    and with a dirty one and sixteen-bit digits. *)
Lemma arb_div_scratch_independent_witness :
  (2 <= 10 <= 256 /\ 10 * 10 * 10 <= INT_MAX /\ 2 <= 10 <= 65536 /\ wf_number 10 ex_num
   /\ wf_number 10 ex_den /\ iszero ex_den <> 0 /\ 0 <= 2)
  /\ exists q1 q2,
       arb_div 256 [] ex_num ex_den (mk_fxdpnt [] 0 0) 10 2 = Ok q1
       /\ arb_div 65536 [9; 9; 9; 9; 9] ex_num ex_den (mk_fxdpnt [] 0 0) 10 2 = Ok q2
       /\ digits q1 = digits q2 /\ lp q1 = lp q2 /\ len q1 = len q2.
Proof.
  assert (H1 : 2 <= 10 <= 256) by lia.
  assert (Hi : 10 * 10 * 10 <= INT_MAX) by (unfold INT_MAX; lia).
  assert (H2 : 2 <= 10 <= 65536) by lia.
  assert (H3 : wf_number 10 ex_num) by wf_tac.
  assert (H4 : wf_number 10 ex_den) by wf_tac.
  assert (H5 : iszero ex_den <> 0) by (vm_compute; discriminate).
  assert (H6 : 0 <= 2) by lia.
  split; [exact (conj H1 (conj Hi (conj H2 (conj H3 (conj H4 (conj H5 H6))))))|].
  apply (arb_div_scratch_independent 256 65536 [] [9; 9; 9; 9; 9] 10); assumption.
Defined.

